(** * FixTCX: the Peloton/Strava TCX cleaner of Strava2Garmin/FixTCX.py

    A shallow embedding of [clean_strava_peloton_tcx] and the properties its
    specification states about it.

    - Text is a [string] that holds the UTF-8 encoding of a Python [str]:
      [strip] and [float] decode it and follow Python's Unicode white space
      and decimal digits.
    - An [Element] is ElementTree's element: tag in Clark notation
      ("{uri}local"), attributes, text, children, tail.
    - Python exceptions are the [Raise] case of [result]; [try ... except
      ValueError: pass] is a match on the exception raised.
    - The XML parser and serializer (ET.fromstring, ElementTree.write) are the
      standard library's: they are parameters of the file-level function; a
      write may fail after it has truncated the file.
    - The file system is a finite map from files to contents, a path standing
      for the file it names. *)

From Stdlib Require Import ZArith Lia String Ascii List Bool.
From stdpp Require Import base strings gmap.
Import ListNotations.
Local Open Scope string_scope.
Local Open Scope Z_scope.

(* ===================================================================== *)
(** ** Exceptions *)

Inductive exn : Type :=
| FileNotFoundError (msg : string)
| ValueError (msg : string)
| TypeError
| OverflowError
| RecursionError.

Inductive result (A : Type) : Type :=
| Ok (a : A)
| Raise (e : exn).
Arguments Ok {A} a.
Arguments Raise {A} e.

Definition bind {A B : Type} (r : result A) (k : A -> result B) : result B :=
  match r with
  | Ok a => k a
  | Raise e => Raise e
  end.

Notation "'let*' x ':=' r 'in' k" := (bind r (fun x => k))
  (at level 10, x name, r at level 100, k at level 200).

Definition is_ok {A : Type} (r : result A) : bool :=
  match r with Ok _ => true | Raise _ => false end.

(** [for x in l: ...] over a body that may raise: left to right, the first
    exception ends the loop. *)
Fixpoint mapM {A B : Type} (f : A -> result B) (l : list A) : result (list B) :=
  match l with
  | [] => Ok []
  | x :: l' => let* y := f x in let* ys := mapM f l' in Ok (y :: ys)
  end.

(* ===================================================================== *)
(** ** Text

    A [string] stands for a Python [str] through its UTF-8 encoding, as the
    file is read with [encoding='utf-8'].  Tags and paths are compared as
    they are; the operations of Python that look at characters ([str.strip],
    [float]) read the code points. *)

Module Utf8.
Local Open Scope N_scope.

Definition byte (c : ascii) : N := N_of_ascii c.

(** A continuation byte, 10xxxxxx, and its six bits. *)
Definition is_cont (c : ascii) : bool := (128 <=? byte c) && (byte c <? 192).
Definition bits (c : ascii) : N := byte c - 128.

(** The code point that stands for a byte that starts no character; such
    bytes do not occur in a text that was decoded from UTF-8. *)
Definition replacement : N := 65533.

(** The first character of [l]: its code point, its bytes, and the rest. *)
Definition next (l : list ascii) : option (N * list ascii * list ascii) :=
  match l with
  | [] => None
  | a :: r =>
      let n := byte a in
      let bad := Some (replacement, [a], r) in
      if n <? 128 then Some (n, [a], r)
      else if (194 <=? n) && (n <? 224) then
        match r with
        | b :: r1 =>
            if is_cont b then Some ((n - 192) * 64 + bits b, [a; b], r1) else bad
        | _ => bad
        end
      else if (224 <=? n) && (n <? 240) then
        match r with
        | b :: c :: r2 =>
            let cp := ((n - 224) * 64 + bits b) * 64 + bits c in
            if is_cont b && is_cont c && (2048 <=? cp)
               && negb ((55296 <=? cp) && (cp <? 57344))
            then Some (cp, [a; b; c], r2) else bad
        | _ => bad
        end
      else if (240 <=? n) && (n <? 245) then
        match r with
        | b :: c :: d :: r3 =>
            let cp := (((n - 240) * 64 + bits b) * 64 + bits c) * 64 + bits d in
            if is_cont b && is_cont c && is_cont d
               && (65536 <=? cp) && (cp <? 1114112)
            then Some (cp, [a; b; c; d], r3) else bad
        | _ => bad
        end
      else bad
  end.

Fixpoint chars_of (fuel : nat) (l : list ascii) : list (N * list ascii) :=
  match fuel with
  | O => []
  | S fuel' =>
      match next l with
      | None => []
      | Some (cp, bs, r) => (cp, bs) :: chars_of fuel' r
      end
  end.

(** The characters of [s], each with its code point and its bytes; a
    character takes at least one byte, so the length of [s] is fuel enough. *)
Definition chars (s : string) : list (N * list ascii) :=
  chars_of (String.length s) (list_ascii_of_string s).

Definition text_of (l : list (N * list ascii)) : string :=
  string_of_list_ascii (List.concat (List.map snd l)).

Definition is_ascii (s : string) : bool :=
  forallb (fun c => byte c <? 128) (list_ascii_of_string s).

(** [str.isspace] of one character: TAB LF VT FF CR, FS GS RS US, SPACE,
    NEL, NBSP, and the separators of the Unicode character database. *)
Definition isspace (cp : N) : bool :=
  (9 <=? cp) && (cp <=? 13) || (28 <=? cp) && (cp <=? 32)
  || (cp =? 133) || (cp =? 160) || (cp =? 5760)
  || (8192 <=? cp) && (cp <=? 8202)
  || (cp =? 8232) || (cp =? 8233) || (cp =? 8239) || (cp =? 8287)
  || (cp =? 12288).

(** The code points of the digits zero of the Unicode character database
    (version 14.0, the one of Python 3.11): each is followed by its digits
    one to nine. *)
Definition digit_zeros : list N :=
  [48; 1632; 1776; 1984; 2406; 2534; 2662; 2790; 2918; 3046; 3174; 3302;
   3430; 3558; 3664; 3792; 3872; 4160; 4240; 6112; 6160; 6470; 6608; 6784;
   6800; 6992; 7088; 7232; 7248; 42528; 43216; 43264; 43472; 43504; 43600;
   44016; 65296; 66720; 68912; 69734; 69872; 69942; 70096; 70384; 70736;
   70864; 71248; 71360; 71472; 71904; 72016; 72784; 73040; 73120; 92768;
   92864; 93008; 120782; 120792; 120802; 120812; 120822; 123200; 123632;
   125264; 130032].

(** The decimal value of a character, when it is a decimal digit. *)
Definition decimal (cp : N) : option N :=
  match List.find (fun z => (z <=? cp) && (cp <? z + 10)) digit_zeros with
  | Some z => Some (cp - z)
  | None => None
  end.

End Utf8.

(* ===================================================================== *)
(** ** Python strings *)

Module PyStr.

Definition isdigit (c : ascii) : bool :=
  let n := N_of_ascii c in ((48 <=? n) && (n <=? 57))%N.

(** The white space [float] skips around a number: C's [isspace]. *)
Definition c_isspace (c : ascii) : bool :=
  let n := N_of_ascii c in
  ((9 <=? n) && (n <=? 13) || (n =? 32))%N.

Fixpoint lstrip_with (sp : ascii -> bool) (s : string) : string :=
  match s with
  | String c s' => if sp c then lstrip_with sp s' else s
  | EmptyString => EmptyString
  end.

Fixpoint rstrip_with (sp : ascii -> bool) (s : string) : string :=
  match s with
  | String c s' =>
      match rstrip_with sp s' with
      | EmptyString => if sp c then EmptyString else String c EmptyString
      | r => String c r
      end
  | EmptyString => EmptyString
  end.

Definition strip_with (sp : ascii -> bool) (s : string) : string :=
  rstrip_with sp (lstrip_with sp s).

(** [s.strip()]: the white space characters of [str.isspace] are taken off
    both ends. *)
Fixpoint lstrip_chars (l : list (N * list ascii)) : list (N * list ascii) :=
  match l with
  | c :: l' => if Utf8.isspace (fst c) then lstrip_chars l' else l
  | [] => []
  end.

Definition strip (s : string) : string :=
  Utf8.text_of
    (List.rev (lstrip_chars (List.rev (lstrip_chars (Utf8.chars s))))).

(** [s.startswith(p)] *)
Fixpoint startswith (p s : string) : bool :=
  match p, s with
  | EmptyString, _ => true
  | String a p', String b s' => if Ascii.eqb a b then startswith p' s' else false
  | String _ _, EmptyString => false
  end.

(** [s.find(sub)]: the lowest index where [sub] occurs, -1 when it does not. *)
Fixpoint find (sub s : string) : Z :=
  if startswith sub s then 0
  else match s with
       | EmptyString => -1
       | String _ s' => let i := find sub s' in if i <? 0 then -1 else i + 1
       end.

Fixpoint drop (n : nat) (s : string) : string :=
  match n, s with
  | O, _ => s
  | S n', String _ s' => drop n' s'
  | S _, EmptyString => EmptyString
  end.

(** [s[i:]] for [0 <= i] (the only use in the source has [i >= 1]). *)
Definition slice_from (i : Z) (s : string) : string := drop (Z.to_nat i) s.

(** [s.split(sep)[-1]] for a one-character separator: what follows the last
    occurrence of [sep], the whole string when there is none. *)
Fixpoint split_last (sep : ascii) (s : string) : string :=
  match s with
  | EmptyString => EmptyString
  | String c s' =>
      if Ascii.eqb c sep then split_last sep s'
      else if existsb (Ascii.eqb sep) (list_ascii_of_string s') then split_last sep s'
      else s
  end.

Definition lower (c : ascii) : ascii :=
  let n := N_of_ascii c in
  if ((65 <=? n) && (n <=? 90))%N then ascii_of_N (n + 32) else c.

End PyStr.

(* ===================================================================== *)
(** ** Python numbers: [float(s)], [round(x)], [str(n)] *)

Module PyNum.

(** A binary64 value: [Finite neg m e] is (-1)^neg * m * 2^e with
    [0 <= m <= 2^53] and [-1074 <= e]. *)
Inductive pyfloat : Type :=
| Finite (neg : bool) (m e : Z)
| Inf (neg : bool)
| NaN.

(** Division of [a >= 0] by [b > 0], rounded to the nearest integer, ties to
    the even one. *)
Definition div_rne (a b : Z) : Z :=
  let q := a / b in
  let r := a mod b in
  if 2 * r <? b then q
  else if b <? 2 * r then q + 1
  else if Z.even q then q else q + 1.

(** [n * 2^k] compared with [d], for an exponent of either sign. *)
Definition scaled_geb (n d k : Z) : bool :=
  if 0 <=? k then d * 2 ^ k <=? n else d <=? n * 2 ^ (- k).

(** The [k] with [2^k <= n/d < 2^(k+1)], for [n, d > 0]. *)
Definition floor_log2 (n d : Z) : Z :=
  let k := Z.log2 n - Z.log2 d in
  if scaled_geb n d k then k else k - 1.

(** The binary64 nearest to [n/d] (ties to even), for [n >= 0], [d > 0]:
    53 bits of precision, least exponent -1074, overflow to infinity. *)
Definition to_double (neg : bool) (n d : Z) : pyfloat :=
  if n =? 0 then Finite neg 0 0
  else
    let e := Z.max (floor_log2 n d - 52) (-1074) in
    let m := if 0 <=? e then div_rne n (d * 2 ^ e)
             else div_rne (n * 2 ^ (- e)) d in
    if (971 <? e) || ((e =? 971) && (2 ^ 53 <=? m)) then Inf neg
    else Finite neg m e.

(** *** The text of a number *)

Definition digit_val (c : ascii) : Z := Z.of_N (N_of_ascii c) - 48.

(** The value of a run of digits read after the value [acc]. *)
Fixpoint digits_val (acc : Z) (l : list ascii) : Z :=
  match l with
  | [] => acc
  | c :: l' => digits_val (10 * acc + digit_val c) l'
  end.

(** Splits off the longest prefix of digits. *)
Fixpoint span_digits (l : list ascii) : list ascii * list ascii :=
  match l with
  | c :: l' =>
      if PyStr.isdigit c then let (ds, rest) := span_digits l' in (c :: ds, rest)
      else ([], l)
  | [] => ([], [])
  end.

(** An underscore is accepted between two digits only, and dropped. *)
Fixpoint drop_underscores (prev : ascii) (l : list ascii) : option (list ascii) :=
  match l with
  | [] => if Ascii.eqb prev "_" then None else Some []
  | c :: l' =>
      if Ascii.eqb c "_" then
        if PyStr.isdigit prev then drop_underscores c l' else None
      else if Ascii.eqb prev "_" && negb (PyStr.isdigit c) then None
      else option_map (cons c) (drop_underscores c l')
  end.

Definition take_sign (l : list ascii) : bool * list ascii :=
  match l with
  | c :: l' =>
      if Ascii.eqb c "-" then (true, l')
      else if Ascii.eqb c "+" then (false, l')
      else (false, l)
  | [] => (false, [])
  end.

Definition lower_list (l : list ascii) : list ascii := map PyStr.lower l.

Definition list_eqb (a b : list ascii) : bool :=
  String.eqb (string_of_list_ascii a) (string_of_list_ascii b).

(** The exponent part: [e] or [E], an optional sign, at least one digit, and
    nothing after it. *)
Definition parse_exponent (l : list ascii) : option Z :=
  match l with
  | [] => Some 0
  | c :: l' =>
      if Ascii.eqb (PyStr.lower c) "e" then
        let (neg, l'') := take_sign l' in
        match span_digits l'' with
        | (d :: ds, []) =>
            let v := digits_val 0 (d :: ds) in Some (if neg then - v else v)
        | _ => None
        end
      else None
  end.

(** [digits [. digits] [exponent]] with at least one digit before the
    exponent: the numerator and denominator of the value read. *)
Definition parse_decimal (l : list ascii) : option (Z * Z) :=
  let (ip, rest) := span_digits l in
  let (fp, rest') :=
    match rest with
    | c :: r => if Ascii.eqb c "." then span_digits r else ([], rest)
    | [] => ([], [])
    end in
  match (ip ++ fp)%list with
  | [] => None
  | ds =>
      match parse_exponent rest' with
      | None => None
      | Some ex =>
          let D := digits_val 0 ds in
          let E := ex - Z.of_nat (List.length fp) in
          Some (if 0 <=? E then (D * 10 ^ E, 1) else (D, 10 ^ (- E)))
      end
  end.

(** What [float] makes of a text before it reads it: an ASCII text is taken
    as it is; in another text every white space character beyond ASCII
    becomes a space and every decimal digit its ASCII digit, and the first
    character beyond ASCII that is neither becomes a question mark and ends
    the text. *)
Fixpoint transform_chars (l : list (N * list ascii)) : list ascii :=
  match l with
  | [] => []
  | (cp, _) :: l' =>
      if (cp <? 127)%N then ascii_of_N cp :: transform_chars l'
      else if Utf8.isspace cp then " "%char :: transform_chars l'
      else match Utf8.decimal cp with
           | Some d => ascii_of_N (48 + d) :: transform_chars l'
           | None => ["?"%char]
           end
  end.

Definition transform (s : string) : string :=
  if Utf8.is_ascii s then s
  else string_of_list_ascii (transform_chars (Utf8.chars s)).

(** [float(s)] for a string [s]. *)
Definition float_of_string (s : string) : result pyfloat :=
  let bad := Raise (ValueError "could not convert string to float") in
  match drop_underscores " "
          (list_ascii_of_string
             (PyStr.strip_with PyStr.c_isspace (transform s))) with
  | None => bad
  | Some l =>
      let (neg, body) := take_sign l in
      let lb := lower_list body in
      if list_eqb lb (list_ascii_of_string "inf")
         || list_eqb lb (list_ascii_of_string "infinity") then Ok (Inf neg)
      else if list_eqb lb (list_ascii_of_string "nan") then Ok NaN
      else match parse_decimal body with
           | Some (n, d) => Ok (to_double neg n d)
           | None => bad
           end
  end.

(** [float(x)] where [x] is an element's [text]: [None] is not a string. *)
Definition float (x : option string) : result pyfloat :=
  match x with
  | None => Raise TypeError
  | Some s => float_of_string s
  end.

(** [round(x)] with one argument, an [int]. *)
Definition round (x : pyfloat) : result Z :=
  match x with
  | NaN => Raise (ValueError "cannot convert float NaN to integer")
  | Inf _ => Raise OverflowError
  | Finite neg m e =>
      let a := if 0 <=? e then m * 2 ^ e else div_rne m (2 ^ (- e)) in
      Ok (if neg then - a else a)
  end.


(** *** [str(n)] *)

Definition digit_char (d : Z) : ascii := ascii_of_N (Z.to_N (48 + d)).

Fixpoint pos_digits (fuel : nat) (n : Z) (acc : list ascii) : list ascii :=
  match fuel with
  | O => acc
  | S fuel' =>
      let acc' := digit_char (n mod 10) :: acc in
      if n <? 10 then acc' else pos_digits fuel' (n / 10) acc'
  end.

(** The decimal digits of [n >= 0]; [S (log2 n)] steps are enough. *)
Definition nat_digits (n : Z) : list ascii :=
  pos_digits (S (Z.to_nat (Z.log2 n))) n [].

Definition str (n : Z) : string :=
  if n <? 0 then String "-" (string_of_list_ascii (nat_digits (- n)))
  else string_of_list_ascii (nat_digits n).

(** [str(int(round(float(x))))] *)
Definition round_text (x : option string) : result string :=
  let* f := float x in
  let* n := round f in
  Ok (str n).

End PyNum.


(* ===================================================================== *)
(** ** ElementTree *)

(** [xml.etree.ElementTree.Element]: the tag is in Clark notation. *)
#[local] Set Warnings "-register-all".
Inductive Element : Type :=
| Elem (tag : string) (attrib : list (string * string)) (text : option string)
       (children : list Element) (tail : option string).

Definition tag (e : Element) : string :=
  match e with Elem t _ _ _ _ => t end.
Definition attrib (e : Element) : list (string * string) :=
  match e with Elem _ a _ _ _ => a end.
Definition text (e : Element) : option string :=
  match e with Elem _ _ x _ _ => x end.
Definition children (e : Element) : list Element :=
  match e with Elem _ _ _ c _ => c end.
Definition tail (e : Element) : option string :=
  match e with Elem _ _ _ _ x => x end.

(** [e.tag = t], [e.text = x], and the replacement of the children list. *)
Definition set_tag (t : string) (e : Element) : Element :=
  match e with Elem _ a x c tl => Elem t a x c tl end.
Definition set_text (x : option string) (e : Element) : Element :=
  match e with Elem t a _ c tl => Elem t a x c tl end.
Definition set_children (c : list Element) (e : Element) : Element :=
  match e with Elem t a x _ tl => Elem t a x c tl end.

Definition has_tag (t : string) (e : Element) : bool := String.eqb (tag e) t.

Module ET.

(** [e.find(t)] for a single tag [t]: the first child with that tag. *)
Definition find (t : string) (e : Element) : option Element :=
  List.find (has_tag t) (children e).

(** [l.remove(x)] where [x] is the first element of [l] that satisfies [P]
    (the element a [find] has just returned). *)
Fixpoint remove_first (P : Element -> bool) (l : list Element) : list Element :=
  match l with
  | [] => []
  | c :: l' => if P c then l' else c :: remove_first P l'
  end.

(** An update in place of the first element of [l] that satisfies [P]; no
    such element, no change. *)
Fixpoint modify_first (P : Element -> bool) (f : Element -> result Element)
    (l : list Element) : result (list Element) :=
  match l with
  | [] => Ok []
  | c :: l' =>
      if P c then let* c' := f c in Ok (c' :: l')
      else let* r := modify_first P f l' in Ok (c :: r)
  end.

(** [x = e.find(t); if x is not None: e.remove(x)] *)
Definition remove_child (t : string) (e : Element) : Element :=
  set_children (remove_first (has_tag t) (children e)) e.

(** [x = e.find(t); if x is not None: f(x)] where [f] updates [x] in place. *)
Definition with_child (t : string) (f : Element -> result Element)
    (e : Element) : result Element :=
  let* c := modify_first (has_tag t) f (children e) in Ok (set_children c e).

(** [x = e.find(t1 + "/" + t2); if x is not None: f(x)]: the path goes through
    every child tagged [t1] in turn and stops at the first [t2] child found. *)
Definition with_grandchild (t1 t2 : string) (f : Element -> result Element)
    (e : Element) : result Element :=
  let* c := modify_first
              (fun c => has_tag t1 c && existsb (has_tag t2) (children c))
              (with_child t2 f) (children e) in
  Ok (set_children c e).

(** [x = root.find(".//" + t); if x is not None: f(x)]: the first element
    tagged [t] among the descendants of the root in document order, the root
    itself left out.  [None] when there is none. *)
Fixpoint modify_first_desc (t : string) (f : Element -> Element)
    (e : Element) : option Element :=
  match e with
  | Elem tg a x kids tl =>
      let fix go (l : list Element) : option (list Element) :=
        match l with
        | [] => None
        | c :: l' =>
            if has_tag t c then Some (f c :: l')
            else match modify_first_desc t f c with
                 | Some c' => Some (c' :: l')
                 | None => option_map (cons c) (go l')
                 end
        end in
      option_map (fun k => Elem tg a x k tl) (go kids)
  end.

Definition with_first_desc (t : string) (f : Element -> Element)
    (root : Element) : Element :=
  match modify_first_desc t f root with
  | Some r => r
  | None => root
  end.

(** [for x in root.findall(".//" + t): f(x)] where [f] updates [x] in place,
    reads and writes below [x] only, and leaves the tag of [x] alone.

    [findall] lists the elements tagged [t] below the root, in document order,
    before the first call of [f]; an element that an earlier call has detached
    from the tree is still in the list and is still visited.  Here the
    elements below [x] are visited before [x], so the ones [f x] removes have
    been visited. *)
Fixpoint visit (t : string) (f : Element -> result Element)
    (e : Element) : result Element :=
  match e with
  | Elem tg a x kids tl =>
      let fix go (l : list Element) : result (list Element) :=
        match l with
        | [] => Ok []
        | c :: l' =>
            let* c' := visit t f c in
            let* r := go l' in
            Ok (c' :: r)
        end in
      let* kids' := go kids in
      let e' := Elem tg a x kids' tl in
      if String.eqb tg t then f e' else Ok e'
  end.

(** [e.find(t1 + "/" + t2)]: the first [t2] child of the first child tagged
    [t1] that has one. *)
Definition find_path (t1 t2 : string) (e : Element) : option Element :=
  match List.find (fun c => has_tag t1 c && existsb (has_tag t2) (children c))
                  (children e) with
  | Some c => find t2 c
  | None => None
  end.

(** [root.find(".//" + t)]: the first element tagged [t] among the
    descendants of the root in document order, the root itself left out. *)
Fixpoint find_desc (t : string) (e : Element) : option Element :=
  match e with
  | Elem _ _ _ kids _ =>
      (fix go (l : list Element) : option Element :=
         match l with
         | [] => None
         | c :: l' =>
             if has_tag t c then Some c
             else match find_desc t c with
                  | Some d => Some d
                  | None => go l'
                  end
         end) kids
  end.

(** All elements of the tree, the root first, in document order. *)
Fixpoint iter (e : Element) : list Element :=
  match e with
  | Elem _ _ _ kids _ => e :: flat_map iter kids
  end.

(** [root.findall(".//" + t)]: the elements tagged [t] below the root, in
    document order. *)
Definition findall (t : string) (root : Element) : list Element :=
  List.filter (has_tag t) (flat_map iter (children root)).

(** The loop [for x in root.findall(".//" + t): f(x)].  The calls are made in
    the order of the list, so the first one that raises, in document order,
    ends the loop; what [f] reads of an element no other call changes, so a
    call raises in the loop exactly when it raises on the element as it was
    listed.  When no call raises, the tree is the one [visit] builds. *)
Definition for_each_desc (t : string) (f : Element -> result Element)
    (root : Element) : result Element :=
  let* _ := mapM f (findall t root) in
  let* kids := mapM (visit t f) (children root) in
  Ok (set_children kids root).

End ET.

(* ===================================================================== *)
(** ** The cleaner *)

Definition ns_tcx : string :=
  "http://www.garmin.com/xmlschemas/TrainingCenterDatabase/v2".
Definition ns_ext : string :=
  "http://www.garmin.com/xmlschemas/ActivityExtension/v2".

(** A name of the default namespace (the '' entry of [ns]) and a name with
    the [ae:] prefix, as [find] and [findall] resolve them. *)
Definition tcx (name : string) : string := "{" ++ ns_tcx ++ "}" ++ name.
Definition ae (name : string) : string := "{" ++ ns_ext ++ "}" ++ name.

(** [try: x.text = str(int(round(float(x.text)))) except ValueError: pass] *)
Definition round_field (x : Element) : result Element :=
  match PyNum.round_text (text x) with
  | Ok s => Ok (set_text (Some s) x)
  | Raise (ValueError _) => Ok x
  | Raise e => Raise e
  end.

(** [if x.text: ...]: neither [None] nor the empty string. *)
Definition truthy (x : option string) : bool :=
  match x with
  | Some (String _ _) => true
  | _ => false
  end.

Definition to_remove_names : list string :=
  ["TotalPower"; "AverageResistance"; "MaximumResistance"].

Definition rename_map : list (string * string) :=
  [("AverageCadence", "AvgCadence"); ("MaximumCadence", "MaxCadence");
   ("AverageWatts", "AvgWatts"); ("MaximumWatts", "MaxWatts")].

Fixpoint lookup_name (k : string) (m : list (string * string)) : option string :=
  match m with
  | [] => None
  | (k', v) :: m' => if String.eqb k k' then Some v else lookup_name k m'
  end.

Definition in_names (k : string) (l : list string) : bool :=
  existsb (String.eqb k) l.

(** [child.tag.split('}')[-1]] *)
Definition child_tag (child : Element) : string :=
  PyStr.split_last "}" (tag child).

(** One turn of [for child in tpx] (lines 112-123): the child as the turn
    leaves it, and whether it was appended to [to_remove]. *)
Definition lap_tpx_child (child : Element) : result (Element * bool) :=
  let ct := child_tag child in
  let (child1, rm) :=
    if in_names ct to_remove_names then (child, true)
    else match lookup_name ct rename_map with
         | Some new => (set_tag (ae new) child, false)
         | None => (child, false)
         end in
  let* child2 := if truthy (text child1) then round_field child1 else Ok child1 in
  Ok (child2, rm).

(** Lines 101-125 on the lap's [ae:TPX] element. *)
Definition lap_tpx (tpx : Element) : result Element :=
  let tpx := set_tag (ae "LX") tpx in
  let* marked := mapM lap_tpx_child (children tpx) in
  let kept := List.filter (fun p => negb (snd p)) marked in
  Ok (set_children (List.map fst kept) tpx).

(** The body of [for lap in root.findall(".//Lap")], lines 67-125. *)
Definition process_lap (lap : Element) : result Element :=
  let lap := ET.remove_child (tcx "Cadence") lap in
  let* lap := ET.with_child (tcx "Calories") round_field lap in
  let* lap := ET.with_grandchild (tcx "AverageHeartRateBpm") (tcx "Value")
                round_field lap in
  let* lap := ET.with_grandchild (tcx "MaximumHeartRateBpm") (tcx "Value")
                round_field lap in
  ET.with_child (tcx "Extensions") (ET.with_child (ae "TPX") lap_tpx) lap.

(** Lines 149-158 on the trackpoint's [ae:TPX] element. *)
Definition trackpoint_tpx (tpx : Element) : result Element :=
  let tpx := ET.remove_child (ae "Resistance") tpx in
  ET.with_child (ae "Watts") round_field tpx.

(** The body of [for tp in root.findall(".//Trackpoint")], lines 129-158. *)
Definition process_trackpoint (tp : Element) : result Element :=
  let* tp := ET.with_grandchild (tcx "HeartRateBpm") (tcx "Value") round_field tp in
  let* tp := ET.with_child (tcx "Cadence") round_field tp in
  ET.with_child (tcx "Extensions") (ET.with_child (ae "TPX") trackpoint_tpx) tp.

(** The names the lap loop takes away, by removal or by renaming. *)
Definition old_names : list string :=
  (to_remove_names ++ List.map fst rename_map)%list.

(** Lines 59-63. *)
Definition remove_creator (root : Element) : Element :=
  ET.with_first_desc (tcx "Activity") (ET.remove_child (tcx "Creator")) root.

(** Lines 58-158: the edits of the parsed tree. *)
Definition clean_tree (root : Element) : result Element :=
  let root := remove_creator root in
  let* root := ET.for_each_desc (tcx "Lap") process_lap root in
  ET.for_each_desc (tcx "Trackpoint") process_trackpoint root.

(* ===================================================================== *)
(** ** Files *)

(** What [ET.fromstring] answers. *)
Inductive parsed : Type :=
| Parsed (root : Element)
| ParseError (msg : string).

(** What [ElementTree(root).write(path, encoding='utf-8',
    xml_declaration=True)] does to the file: it opens and truncates it, then
    writes the document; the serializer is recursive and may raise on the way
    (RecursionError on a deeply nested tree), and the file then holds what
    had been written. *)
Inductive written : Type :=
| Written (content : string)
| WriteFailed (partial : string) (e : exn).

(** The files and what has been printed.  A path stands for the file it
    names: two spellings of one file are one key.  The errors of the
    operating system on open, read and write are not part of the model. *)
Record World : Type := mkWorld {
  files : gmap string string;
  stdout : list string
}.

Section Cleaner.

(** [ET.fromstring], and [ElementTree(root).write(f, encoding='utf-8',
    xml_declaration=True)]. *)
Variable fromstring : string -> parsed.
Variable tostring : Element -> written.

(** Lines 47-56. *)
Definition parse (content : string) : result Element :=
  match fromstring content with
  | Parsed root => Ok root
  | ParseError _ =>
      let content :=
        if PyStr.startswith "<?xml" content then
          let decl_end := PyStr.find "?>" content + 2 in
          PyStr.strip (PyStr.slice_from decl_end content)
        else content in
      match fromstring content with
      | Parsed root => Ok root
      | ParseError e => Raise (ValueError ("Failed to parse XML: " ++ e))
      end
  end.

Definition clean_strava_peloton_tcx (input_file : string)
    (output_file : option string) (w : World) : result string * World :=
  match files w !! input_file with
  | None =>
      (Raise (FileNotFoundError ("Input file '" ++ input_file ++ "' not found.")), w)
  | Some raw =>
      let content := PyStr.strip raw in
      match (let* root := parse content in clean_tree root) with
      | Raise e => (Raise e, w)
      | Ok root =>
          let output_file := default input_file output_file in
          match tostring root with
          | Written content =>
              (Ok output_file,
               mkWorld (<[output_file := content]> (files w))
                       (stdout w ++ ["Cleaned file saved to: " ++ output_file]))
          | WriteFailed partial e =>
              (Raise e, mkWorld (<[output_file := partial]> (files w)) (stdout w))
          end
      end
  end.

End Cleaner.

(* ===================================================================== *)
(** ** Sample data *)

(** An element with no attribute and no tail. *)
Definition el (t : string) (x : option string) (kids : list Element) : Element :=
  Elem t [] x kids None.

(** The byte-order mark U+FEFF, in UTF-8. *)
Definition bom : string :=
  String (ascii_of_N 239) (String (ascii_of_N 187) (String (ascii_of_N 191) "")).

(** A parser that knows one document, with or without its declaration and
    with a byte-order mark before the declaration, as ElementTree accepts
    it, and a serializer that knows the same one; they stand for
    ET.fromstring and ElementTree.write where a statement is evaluated on a
    concrete file. *)
Definition sample_fromstring (s : string) : parsed :=
  if String.eqb s "<a/>" || String.eqb s "<?xml version='1.0'?><a/>"
     || String.eqb s (bom ++ "<?xml version='1.0'?><a/>")
  then Parsed (el "a" None [])
  else ParseError "syntax error".

Definition sample_tostring (e : Element) : written :=
  match e with
  | Elem "a" [] None [] None => Written "<?xml version='1.0' encoding='utf-8'?>
<a />"
  | _ => Written "<?xml version='1.0' encoding='utf-8'?>
<other />"
  end.

Definition world_of (path content : string) : World :=
  mkWorld {[ path := content ]} [].

(** A lap whose Calories element is empty, [<Calories/>]. *)
Definition doc_empty_calories : Element :=
  el (tcx "TrainingCenterDatabase") None
    [el (tcx "Activities") None
       [el (tcx "Activity") None
          [el (tcx "Lap") None [el (tcx "Calories") None []]]]].

(** A trackpoint whose heart rate reads "inf". *)
Definition doc_inf_heart_rate : Element :=
  el (tcx "TrainingCenterDatabase") None
    [el (tcx "Trackpoint") None
       [el (tcx "HeartRateBpm") None [el (tcx "Value") (Some "inf") []]]].

(** A lap with an extension block as the exports have it. *)
Definition sample_lap : Element :=
  el (tcx "Lap") None
    [el (tcx "Calories") (Some "185.6") [];
     el (tcx "Extensions") None
       [el (ae "TPX") None
          [el (ae "TotalPower") (Some "1200.0") [];
           el (ae "AverageCadence") (Some "78.0") [];
           el (ae "MaximumWatts") (Some "310.4") []]]].

(** A trackpoint whose extension block holds two Resistance children. *)
Definition doc_two_resistance : Element :=
  el (tcx "TrainingCenterDatabase") None
    [el (tcx "Trackpoint") None
       [el (tcx "Extensions") None
          [el (ae "TPX") None
             [el (ae "Resistance") (Some "30") [];
              el (ae "Resistance") (Some "31") [];
              el (ae "Watts") (Some "145.3") []]]]].

(** A trackpoint as the exports have it. *)
Definition sample_trackpoint : Element :=
  el (tcx "Trackpoint") None
    [el (tcx "Time") (Some "2024-01-01T00:00:00Z") [];
     el (tcx "HeartRateBpm") None [el (tcx "Value") (Some "120.0") []];
     el (tcx "Extensions") None
       [el (ae "TPX") None
          [el (ae "Resistance") (Some "30") [];
           el (ae "Watts") (Some "145.3") []]]].

(** The number of elements tagged [t] in a list of children. *)
Definition count_tag (t : string) (l : list Element) : nat :=
  List.length (List.filter (has_tag t) l).

(* ===================================================================== *)
(** ** What the cleaner may change *)

(** The place of an element is the list of the tags its ancestors have in
    the input, the parent first. *)
Fixpoint starts_with (pat ctx : list string) : bool :=
  match pat, ctx with
  | [], _ => true
  | p :: pat', c :: ctx' => String.eqb p c && starts_with pat' ctx'
  | _ :: _, [] => false
  end.

(** In the extension block of a lap, of a trackpoint. *)
Definition in_lap_block (ctx : list string) : bool :=
  starts_with [ae "TPX"; tcx "Extensions"; tcx "Lap"] ctx.
Definition in_trackpoint_block (ctx : list string) : bool :=
  starts_with [ae "TPX"; tcx "Extensions"; tcx "Trackpoint"] ctx.

(** The documented removals: Creator of an Activity, Cadence of a Lap, the
    three power and resistance fields of a lap block, Resistance of a
    trackpoint block. *)
Definition may_remove (ctx : list string) (t : string) : bool :=
  starts_with [tcx "Activity"] ctx && String.eqb t (tcx "Creator")
  || starts_with [tcx "Lap"] ctx && String.eqb t (tcx "Cadence")
  || in_lap_block ctx && in_names (PyStr.split_last "}" t) to_remove_names
  || in_trackpoint_block ctx && String.eqb t (ae "Resistance").

(** The rounding set: Calories of a Lap, the Value of its average and
    maximum heart rate, the children of its block; the heart rate Value and
    the Cadence of a Trackpoint, Watts of its block. *)
Definition may_round (ctx : list string) (t : string) : bool :=
  starts_with [tcx "Lap"] ctx && String.eqb t (tcx "Calories")
  || (starts_with [tcx "AverageHeartRateBpm"; tcx "Lap"] ctx
      || starts_with [tcx "MaximumHeartRateBpm"; tcx "Lap"] ctx
      || starts_with [tcx "HeartRateBpm"; tcx "Trackpoint"] ctx)
     && String.eqb t (tcx "Value")
  || starts_with [tcx "Trackpoint"] ctx && String.eqb t (tcx "Cadence")
  || in_trackpoint_block ctx && String.eqb t (ae "Watts")
  || in_lap_block ctx.

(** The documented renames: the block of a lap, and the four fields in it. *)
Definition may_retag (ctx : list string) (t t' : string) : bool :=
  starts_with [tcx "Extensions"; tcx "Lap"] ctx
    && String.eqb t (ae "TPX") && String.eqb t' (ae "LX")
  || in_lap_block ctx
     && match lookup_name (PyStr.split_last "}" t) rename_map with
        | Some new => String.eqb t' (ae new)
        | None => false
        end.

(** [edited ctx e e']: [e'] is [e], at the place [ctx], after documented
    edits only.  Attributes and tails are kept; a tag or a text changes only
    where documented; children disappear only where documented, and the
    others keep their order. *)
Inductive edited : list string -> Element -> Element -> Prop :=
| edited_elem ctx t t' a x x' kids kids' tl :
    (t' = t \/ may_retag ctx t t' = true) ->
    (x' = x \/
     (may_round ctx t = true /\ exists s, PyNum.round_text x = Ok s /\ x' = Some s)) ->
    edited_list (t :: ctx) kids kids' ->
    edited ctx (Elem t a x kids tl) (Elem t' a x' kids' tl)
with edited_list : list string -> list Element -> list Element -> Prop :=
| edited_nil ctx : edited_list ctx [] []
| edited_keep ctx c c' l l' :
    edited ctx c c' -> edited_list ctx l l' -> edited_list ctx (c :: l) (c' :: l')
| edited_drop ctx c l l' :
    may_remove ctx (tag c) = true -> edited_list ctx l l' ->
    edited_list ctx (c :: l) l'.

Scheme edited_mind := Minimality for edited Sort Prop
  with edited_list_mind := Minimality for edited_list Sort Prop.

(** The tags the renames give. *)
Definition fresh_tag (t : string) : bool :=
  in_names t [ae "LX"; ae "AvgCadence"; ae "MaxCadence"; ae "AvgWatts"; ae "MaxWatts"].

(** [ctx'] is [ctx] after renames. *)
Definition renamed_ctx (ctx ctx' : list string) : Prop :=
  Forall2 (fun t t' => t' = t \/ fresh_tag t' = true) ctx ctx'.

Combined Scheme edited_mutind from edited_mind, edited_list_mind.

(** The search of [modify_first_desc] through a list of siblings. *)
Definition modify_first_desc_list (t : string) (f : Element -> Element)
    : list Element -> option (list Element) :=
  fix go (l : list Element) : option (list Element) :=
    match l with
    | [] => None
    | c :: l' =>
        if has_tag t c then Some (f c :: l')
        else match ET.modify_first_desc t f c with
             | Some c' => Some (c' :: l')
             | None => option_map (cons c) (go l')
             end
    end.

(* ===================================================================== *)
(** ** Namespace declarations of the written document *)

(** What precedes the last ["}"] of [s], when there is one. *)
Fixpoint before_last_brace (s : string) : option string :=
  match s with
  | EmptyString => None
  | String c s' =>
      match before_last_brace s' with
      | Some u => Some (String c u)
      | None => if Ascii.eqb c "}" then Some EmptyString else None
      end
  end.

(** The namespace of a name in Clark notation: the URI of "{uri}local", none
    for a name that is not qualified. *)
Definition namespace_of (qname : string) : list string :=
  match qname with
  | String "{" rest =>
      match before_last_brace rest with
      | Some uri => [uri]
      | None => []
      end
  | _ => []
  end.

(** The namespaces of the element and attribute names of a tree: the ones
    ElementTree.write declares on the root element, and no other (the parsed
    tree does not keep the declarations of the file that was read). *)
Fixpoint declared_namespaces (e : Element) : list string :=
  match e with
  | Elem t a _ kids _ =>
      (namespace_of t ++ flat_map (fun kv => namespace_of (fst kv)) a
       ++ flat_map declared_namespaces kids)%list
  end.

(** A ride with a creator and both extension blocks. *)
Definition sample_ride : Element :=
  Elem (tcx "TrainingCenterDatabase")
    [("{http://www.w3.org/2001/XMLSchema-instance}schemaLocation", "tcx.xsd")] None
    [el (tcx "Activities") None
       [Elem (tcx "Activity") [("Sport", "Biking")] None
          [el (tcx "Id") (Some "2024-01-01T00:00:00Z") [];
           el (tcx "Lap") None
             [el (tcx "Calories") (Some "185.6") [];
              el (tcx "Cadence") (Some "80") [];
              el (tcx "Track") None [sample_trackpoint];
              el (tcx "Extensions") None
                [el (ae "TPX") None
                   [el (ae "TotalPower") (Some "1200.0") [];
                    el (ae "AverageCadence") (Some "78.0") []]]];
           el (tcx "Creator") None [el (tcx "Name") (Some "Peloton") []]]
          None]]
    None.

Definition sample_ride_cleaned : Element :=
  Elem (tcx "TrainingCenterDatabase")
    [("{http://www.w3.org/2001/XMLSchema-instance}schemaLocation", "tcx.xsd")] None
    [el (tcx "Activities") None
       [Elem (tcx "Activity") [("Sport", "Biking")] None
          [el (tcx "Id") (Some "2024-01-01T00:00:00Z") [];
           el (tcx "Lap") None
             [el (tcx "Calories") (Some "186") [];
              el (tcx "Track") None
                [el (tcx "Trackpoint") None
                   [el (tcx "Time") (Some "2024-01-01T00:00:00Z") [];
                    el (tcx "HeartRateBpm") None [el (tcx "Value") (Some "120") []];
                    el (tcx "Extensions") None
                      [el (ae "TPX") None [el (ae "Watts") (Some "145") []]]]];
              el (tcx "Extensions") None
                [el (ae "LX") None [el (ae "AvgCadence") (Some "78") []]]]]
          None]]
    None.

(** An uncaught exception of the edits: what [except ValueError] lets
    through. *)
Definition uncaught (e : exn) : Prop := e = TypeError \/ e = OverflowError.

(** [r] raises nothing but uncaught field exceptions. *)
Definition raises_uncaught_only {A : Type} (r : result A) : Prop :=
  forall e, r = Raise e -> uncaught e.

(** A lap with summary fields: two cadences, an average heart rate element
    without a value before the one that has it. *)
Definition lap_with_summary : Element :=
  el (tcx "Lap") None
    [el (tcx "Cadence") (Some "80") [];
     el (tcx "AverageHeartRateBpm") None [];
     el (tcx "AverageHeartRateBpm") None [el (tcx "Value") (Some "131.5") []];
     el (tcx "MaximumHeartRateBpm") None [el (tcx "Value") (Some "162.5") []];
     el (tcx "Cadence") (Some "81") []].

Definition lap_with_summary_processed : Element :=
  el (tcx "Lap") None
    [el (tcx "AverageHeartRateBpm") None [];
     el (tcx "AverageHeartRateBpm") None [el (tcx "Value") (Some "132") []];
     el (tcx "MaximumHeartRateBpm") None [el (tcx "Value") (Some "162") []];
     el (tcx "Cadence") (Some "81") []].

(** A trackpoint with a cadence, and what [process_trackpoint] makes of it. *)
Definition trackpoint_with_cadence : Element :=
  el (tcx "Trackpoint") None
    [el (tcx "HeartRateBpm") None [el (tcx "Value") (Some "120.4") []];
     el (tcx "Cadence") (Some "79.5") [];
     el (tcx "Extensions") None
       [el (ae "TPX") None [el (ae "Watts") (Some "1e2") []]]].

Definition trackpoint_with_cadence_processed : Element :=
  el (tcx "Trackpoint") None
    [el (tcx "HeartRateBpm") None [el (tcx "Value") (Some "120") []];
     el (tcx "Cadence") (Some "80") [];
     el (tcx "Extensions") None
       [el (ae "TPX") None [el (ae "Watts") (Some "100") []]]].

(** A decimal integer as [str] writes one: an optional minus sign, then at
    least one digit and digits only. *)
Definition is_integer_numeral (s : string) : bool :=
  let l := list_ascii_of_string s in
  let ds := match l with
            | c :: l' => if Ascii.eqb c "-" then l' else l
            | [] => []
            end in
  negb (Nat.eqb (List.length ds) 0) && forallb PyStr.isdigit ds.

(** The text reads as an infinity: [float] answers [inf] or [-inf]. *)
Definition reads_infinite (x : option string) : Prop :=
  exists s neg, x = Some s /\ PyNum.float_of_string s = Ok (PyNum.Inf neg).

(** The search of [ET.find_desc] through a list of siblings. *)
Definition find_desc_list (t : string) : list Element -> option Element :=
  fix go (l : list Element) : option Element :=
    match l with
    | [] => None
    | c :: l' =>
        if has_tag t c then Some c
        else match ET.find_desc t c with
             | Some d => Some d
             | None => go l'
             end
    end.

(* ===================================================================== *)
(** ** Documents the cleaner accepts *)

Definition reads_infinite_b (x : option string) : bool :=
  match x with
  | Some s => match PyNum.float_of_string s with
              | Ok (PyNum.Inf _) => true
              | _ => false
              end
  | None => false
  end.

(** The tags of the fields that are converted without a test of their text. *)
Definition needs_number (t : string) : bool :=
  in_names t [tcx "Calories"; tcx "Value"; tcx "Cadence"; ae "Watts"].

Definition has_text (x : option string) : bool :=
  match x with Some _ => true | None => false end.

(** No text in the tree reads as an infinity, and every Calories, Value,
    Cadence and Watts element has a text. *)
Fixpoint fields_ok (e : Element) : bool :=
  match e with
  | Elem t _ x kids _ =>
      (negb (needs_number t) || has_text x)
      && negb (reads_infinite_b x)
      && forallb fields_ok kids
  end.

(** [f] succeeds on the acceptable elements that satisfy [P], and what it
    returns is acceptable. *)
Definition accepts (P : Element -> bool) (f : Element -> result Element) : Prop :=
  forall c, P c = true -> fields_ok c = true ->
            exists c', f c = Ok c' /\ fields_ok c' = true.

(** The shape [with_child] and [with_grandchild] share: an update of the
    first child that satisfies [P]. *)
Definition update_first_child (P : Element -> bool)
    (f : Element -> result Element) (e : Element) : result Element :=
  let* c := ET.modify_first P f (children e) in Ok (set_children c e).

(** A lap with one Cadence child and one block, a trackpoint with one
    Resistance child in its block. *)
Definition lap_before : Element :=
  el (tcx "Lap") None
    [el (tcx "Calories") (Some "185.6") [];
     el (tcx "Cadence") (Some "80") [];
     el (tcx "Extensions") None
       [el (ae "TPX") None [el (ae "AverageWatts") (Some "141.7") []]]].

Definition lap_after : Element :=
  el (tcx "Lap") None
    [el (tcx "Calories") (Some "186") [];
     el (tcx "Extensions") None
       [el (ae "LX") None [el (ae "AvgWatts") (Some "142") []]]].

Definition trackpoint_after : Element :=
  el (tcx "Trackpoint") None
    [el (tcx "Time") (Some "2024-01-01T00:00:00Z") [];
     el (tcx "HeartRateBpm") None [el (tcx "Value") (Some "120") []];
     el (tcx "Extensions") None
       [el (ae "TPX") None [el (ae "Watts") (Some "145") []]]].

(* ===================================================================== *)
(** ** A place in a document *)

(** An ancestor of the place: its own fields, and its children before and
    after the child that leads to the place. *)
Record Frame : Type := mkFrame {
  f_tag : string;
  f_attrib : list (string * string);
  f_text : option string;
  f_left : list Element;
  f_right : list Element;
  f_tail : option string
}.

(** The document with [x] at the place: the ancestors from the root down. *)
Fixpoint plug (C : list Frame) (x : Element) : Element :=
  match C with
  | [] => x
  | F :: C' =>
      Elem (f_tag F) (f_attrib F) (f_text F)
           (f_left F ++ plug C' x :: f_right F) (f_tail F)
  end.

(** The tag of the element that [C] leads to first, [t] being the tag at the
    place. *)
Definition tag_at (C : list Frame) (t : string) : string :=
  match C with
  | [] => t
  | F :: _ => f_tag F
  end.

(** The children that the cleaner handles by their tag in a parent: the
    Creator of an Activity; the Cadence, Calories, heart rates and Extensions
    of a Lap; the heart rate, Cadence and Extensions of a Trackpoint. *)
Definition handled_child (parent child : string) : bool :=
  String.eqb parent (tcx "Activity") && String.eqb child (tcx "Creator")
  || String.eqb parent (tcx "Lap")
     && in_names child [tcx "Cadence"; tcx "Calories";
                        tcx "AverageHeartRateBpm"; tcx "MaximumHeartRateBpm";
                        tcx "Extensions"]
  || String.eqb parent (tcx "Trackpoint")
     && in_names child [tcx "HeartRateBpm"; tcx "Cadence"; tcx "Extensions"].

(** No element on the way from the root to the place is a child that its
    parent handles: the place is not inside a field of a lap or of a
    trackpoint, nor inside the creator of an activity. *)
Fixpoint clear_path (C : list Frame) (t : string) : bool :=
  match C with
  | [] => true
  | F :: C' => negb (handled_child (f_tag F) (tag_at C' t)) && clear_path C' t
  end.

(** [same_path ctx C C']: the ancestors [C'] are the ancestors [C] with their
    own fields kept, and with the children before and after the way edited
    as documented. *)
Inductive same_path : list string -> list Frame -> list Frame -> Prop :=
| same_path_nil ctx : same_path ctx [] []
| same_path_cons ctx F F' C C' :
    f_tag F' = f_tag F -> f_attrib F' = f_attrib F ->
    f_text F' = f_text F -> f_tail F' = f_tail F ->
    edited_list (f_tag F :: ctx) (f_left F) (f_left F') ->
    edited_list (f_tag F :: ctx) (f_right F) (f_right F') ->
    same_path (f_tag F :: ctx) C C' ->
    same_path ctx (F :: C) (F' :: C').

(** [deep ts e e']: [e'] is [e] but for changes in and below elements tagged
    in [ts]: the tag, attributes, text and tail are those of [e], and so on
    for the children, one for one, unless the tag of [e] is in [ts]. *)
Inductive deep (ts : list string) : Element -> Element -> Prop :=
| deep_elem tg a x kids kids' tl :
    (in_names tg ts = false -> Forall2 (deep ts) kids kids') ->
    deep ts (Elem tg a x kids tl) (Elem tg a x kids' tl).

(** What the rounding step leaves as the text of a field. *)
Definition rounded_text (x : option string) : option string :=
  match PyNum.round_text x with
  | Ok s => Some s
  | Raise _ => x
  end.

(* ===================================================================== *)
(** ** The fields of the rounding set *)



(** The extension block of a lap or of a trackpoint as the loops find it
    (lines 97-99 and 146-148): the first [ae:TPX] child of the first
    Extensions child. *)
Definition block_of (e : Element) : option Element :=
  match ET.find (tcx "Extensions") e with
  | Some ext => ET.find (ae "TPX") ext
  | None => None
  end.

(** The three fields of a trackpoint, as the trackpoint loop finds them
    (lines 130, 138 and 153). *)
Inductive trackpoint_place : Type :=
| TrackpointHeartRate
| TrackpointCadence
| TrackpointWatts.

Definition trackpoint_field (p : trackpoint_place) (tp : Element) : option Element :=
  match p with
  | TrackpointHeartRate => ET.find_path (tcx "HeartRateBpm") (tcx "Value") tp
  | TrackpointCadence => ET.find (tcx "Cadence") tp
  | TrackpointWatts =>
      match block_of tp with
      | Some tpx => ET.find (ae "Watts") tpx
      | None => None
      end
  end.



(** Two ways to relate the text of a field before and after the cleaner:
    the text after is the text before, rounded; the text after is that of
    the even neighbour, when the text before reads as a binary64 half way
    between two integers. *)
Definition rounded (x x' : option string) : Prop := x' = rounded_text x.


(** [c'] is the field [c] with its text related by [R]. *)
Definition same_field (R : option string -> option string -> Prop)
    (c c' : Element) : Prop :=
  tag c' = tag c /\ attrib c' = attrib c /\ tail c' = tail c /\
  R (text c) (text c').



(** The tag, attributes, text and tail of an element. *)
Definition own (e : Element)
    : string * list (string * string) * option string * option string :=
  (tag e, attrib e, text e, tail e).

(** The trackpoint [tp'] has the fields of the trackpoint [tp] where they
    were, with their text related by [R]; the Resistance children of its
    block are those of the block of [tp] but the first. *)
Definition trackpoint_fields (R : option string -> option string -> Prop)
    (tp tp' : Element) : Prop :=
  (forall p c, trackpoint_field p tp = Some c ->
     exists c', trackpoint_field p tp' = Some c' /\ same_field R c c') /\
  (forall tpx, block_of tp = Some tpx ->
     exists tpx', block_of tp' = Some tpx' /\
       List.map own (List.filter (has_tag (ae "Resistance")) (children tpx'))
       = List.tl (List.map own
                    (List.filter (has_tag (ae "Resistance")) (children tpx)))).


(* ===================================================================== *)
(** ** Sample places *)

(** The ancestors of the lap of a ride, from the root down. *)
Definition ride_root : Frame :=
  mkFrame (tcx "TrainingCenterDatabase") [] None [] [] None.








(** The trackpoint of [doc_two_resistance], and what the cleaner leaves of
    it. *)
Definition trackpoint_two_resistance : Element :=
  el (tcx "Trackpoint") None
    [el (tcx "Extensions") None
       [el (ae "TPX") None
          [el (ae "Resistance") (Some "30") [];
           el (ae "Resistance") (Some "31") [];
           el (ae "Watts") (Some "145.3") []]]].

Definition trackpoint_two_resistance_cleaned : Element :=
  el (tcx "Trackpoint") None
    [el (tcx "Extensions") None
       [el (ae "TPX") None
          [el (ae "Resistance") (Some "31") [];
           el (ae "Watts") (Some "145") []]]].










(** Two activities, the second with a creator; an activity with two
    creators; a document whose root is an activity. *)
Definition doc_two_activities : Element :=
  el (tcx "TrainingCenterDatabase") None
    [el (tcx "Activity") None [];
     el (tcx "Activity") None [el (tcx "Creator") None []]].

Definition doc_two_creators : Element :=
  el (tcx "TrainingCenterDatabase") None
    [el (tcx "Activity") None
       [el (tcx "Creator") (Some "a") []; el (tcx "Creator") (Some "b") []]].

Definition doc_activity_at_root : Element :=
  el (tcx "Activity") None [el (tcx "Creator") None []].

(** A document without an activity, and one whose activity has no
    creator. *)
Definition doc_no_activity : Element :=
  el (tcx "TrainingCenterDatabase") None [el (tcx "Courses") None []].

Definition doc_no_creator : Element :=
  el (tcx "TrainingCenterDatabase") None
    [el (tcx "Activity") None [el (tcx "Id") (Some "ride") []]].

(** The document [doc_two_resistance] after one pass and after two. *)
Definition doc_one_resistance : Element :=
  el (tcx "TrainingCenterDatabase") None [trackpoint_two_resistance_cleaned].

Definition doc_no_resistance : Element :=
  el (tcx "TrainingCenterDatabase") None
    [el (tcx "Trackpoint") None
       [el (tcx "Extensions") None
          [el (ae "TPX") None [el (ae "Watts") (Some "145") []]]]].

(** A parser and a serializer that know these three documents, each under
    a name: they stand for ET.fromstring and ElementTree.write where a
    statement about a second run is evaluated. *)
Definition resistance_fromstring (s : string) : parsed :=
  if String.eqb s "two" then Parsed doc_two_resistance
  else if String.eqb s "one" then Parsed doc_one_resistance
  else if String.eqb s "none" then Parsed doc_no_resistance
  else ParseError "syntax error".

Definition resistance_tostring (e : Element) : written :=
  match e with
  | Elem _ _ _ [tp] _ =>
      match block_of tp with
      | Some tpx =>
          match count_tag (ae "Resistance") (children tpx) with
          | 0%nat => Written "none"
          | 1%nat => Written "one"
          | _ => Written "two"
          end
      | None => Written "none"
      end
  | _ => Written "none"
  end.





(* ===================================================================== *)
(** * Properties *)

(** ** Elements, lists of children *)

Section ElementInduction.

Variable P : Element -> Prop.
Hypothesis step : forall t a x kids tl,
  Forall P kids -> P (Elem t a x kids tl).

Fixpoint Element_rect' (e : Element) : P e :=
  match e with
  | Elem t a x kids tl =>
      step t a x kids tl
        ((fix go (l : list Element) : Forall P l :=
            match l with
            | [] => @List.Forall_nil _ P
            | c :: l' => @List.Forall_cons _ P c l' (Element_rect' c) (go l')
            end) kids)
  end.

End ElementInduction.

Lemma bind_ok {A B : Type} (r : result A) (k : A -> result B) (b : B) :
  bind r k = Ok b -> exists a, r = Ok a /\ k a = Ok b.
Proof. destruct r as [a|e]; simpl; intros H; [eauto | discriminate]. Qed.

Ltac bind_inv H :=
  let a := fresh "a" in
  let Ha := fresh "Ha" in
  apply bind_ok in H; destruct H as (a & Ha & H).

Lemma tag_set_text x e : tag (set_text x e) = tag e.
Proof. now destruct e. Qed.

Lemma tag_set_children c e : tag (set_children c e) = tag e.
Proof. now destruct e. Qed.

Lemma children_set_children c e : children (set_children c e) = c.
Proof. now destruct e. Qed.

Lemma has_tag_true t e : has_tag t e = true <-> tag e = t.
Proof. unfold has_tag. apply String.eqb_eq. Qed.

Lemma has_tag_false t e : has_tag t e = false <-> tag e <> t.
Proof. unfold has_tag. apply String.eqb_neq. Qed.

(** What [modify_first] does, when it succeeds: nothing when no element
    satisfies [P], else it replaces the first that does. *)
Lemma modify_first_ok P f l l' :
  ET.modify_first P f l = Ok l' ->
  (forallb (fun c => negb (P c)) l = true /\ l' = l) \/
  (exists l1 c c' l2,
      l = (l1 ++ c :: l2)%list /\ l' = (l1 ++ c' :: l2)%list /\
      forallb (fun c => negb (P c)) l1 = true /\ P c = true /\ f c = Ok c').
Proof.
  revert l'. induction l as [|c l IH]; simpl; intros l' H.
  - left. now inversion H.
  - destruct (P c) eqn:HP.
    + bind_inv H. inversion H; subst. right.
      exists [], c, a, l. simpl. auto.
    + bind_inv H. inversion H; subst.
      destruct (IH _ Ha) as [[Hn ->] | (l1 & d & d' & l2 & -> & -> & Hn & Hd & Hf)].
      * left. simpl. now rewrite Hn.
      * right. exists (c :: l1), d, d', l2. simpl. rewrite HP. auto.
Qed.

Lemma find_app_skip (Q : Element -> bool) l1 l2 :
  forallb (fun c => negb (Q c)) l1 = true ->
  List.find Q (l1 ++ l2)%list = List.find Q l2.
Proof.
  induction l1 as [|c l1 IH]; simpl; [easy|].
  intros H. apply andb_prop in H as [Hc H].
  destruct (Q c); [discriminate | auto].
Qed.

Lemma find_split (Q : Element -> bool) l c :
  List.find Q l = Some c ->
  exists l1 l2, l = (l1 ++ c :: l2)%list /\
                forallb (fun c => negb (Q c)) l1 = true /\ Q c = true.
Proof.
  induction l as [|d l IH]; simpl; [discriminate|].
  destruct (Q d) eqn:HQ.
  - intros [= ->]. exists [], l. auto.
  - intros H. destruct (IH H) as (l1 & l2 & -> & Hn & Hc).
    exists (d :: l1), l2. simpl. rewrite HQ. auto.
Qed.

Lemma first_unique (Q : Element -> bool) l1 c l2 m1 d m2 :
  (l1 ++ c :: l2 = m1 ++ d :: m2)%list ->
  forallb (fun c => negb (Q c)) l1 = true -> Q c = true ->
  forallb (fun c => negb (Q c)) m1 = true -> Q d = true ->
  l1 = m1 /\ c = d /\ l2 = m2.
Proof.
  revert m1. induction l1 as [|a l1 IH]; intros [|b m1]; simpl; intros E H1 Hc H2 Hd.
  - now inversion E.
  - injection E as -> _. rewrite Hc in H2. discriminate.
  - injection E as -> _. rewrite Hd in H1. discriminate.
  - injection E as -> E.
    apply andb_prop in H1 as [_ H1]. apply andb_prop in H2 as [_ H2].
    destruct (IH _ E H1 Hc H2 Hd) as (-> & -> & ->). auto.
Qed.

(** [find t] after an update of the first element that satisfies [P], when
    no element tagged [t] satisfies [P] and the update keeps the tag. *)
Lemma find_modify_first_other P f t l l' :
  ET.modify_first P f l = Ok l' ->
  (forall c, P c = true -> has_tag t c = false) ->
  (forall c c', P c = true -> f c = Ok c' -> tag c' = tag c) ->
  List.find (has_tag t) l' = List.find (has_tag t) l.
Proof.
  intros H HP Hf.
  destruct (modify_first_ok _ _ _ _ H)
    as [[_ ->] | (l1 & c & c' & l2 & -> & -> & _ & Hc & Hfc)]; [easy|].
  assert (Hc' : has_tag t c' = false).
  { apply has_tag_false. rewrite (Hf _ _ Hc Hfc). apply has_tag_false. auto. }
  clear H. induction l1 as [|d l1 IH]; simpl.
  - now rewrite Hc', (HP _ Hc).
  - now rewrite IH.
Qed.

(** [find t] after an update of the first element tagged [t]. *)
Lemma find_modify_first_same f t l l' c :
  ET.modify_first (has_tag t) f l = Ok l' ->
  List.find (has_tag t) l = Some c ->
  (forall c', f c = Ok c' -> tag c' = t) ->
  exists c', f c = Ok c' /\ List.find (has_tag t) l' = Some c'.
Proof.
  intros H Hfind Hf.
  destruct (find_split _ _ _ Hfind) as (m1 & m2 & Hl & Hm1 & Hc).
  destruct (modify_first_ok _ _ _ _ H)
    as [[Hn ->] | (l1 & d & d' & l2 & -> & -> & Hl1 & Hd & Hfd)].
  - rewrite Hl in Hn. rewrite forallb_app in Hn.
    apply andb_prop in Hn as [_ Hn]. simpl in Hn. rewrite Hc in Hn. discriminate.
  - destruct (first_unique _ _ _ _ _ _ _ Hl Hl1 Hd Hm1 Hc) as (-> & -> & ->).
    exists d'. split; [easy|].
    rewrite find_app_skip by easy. simpl.
    assert (E : has_tag t d' = true) by (apply has_tag_true; auto).
    now rewrite E.
Qed.

Lemma find_remove_first_other t t' l :
  t <> t' ->
  List.find (has_tag t) (ET.remove_first (has_tag t') l) = List.find (has_tag t) l.
Proof.
  intros Hne. induction l as [|c l IH]; simpl; [easy|].
  destruct (has_tag t' c) eqn:E'.
  - destruct (has_tag t c) eqn:E; [|easy].
    apply has_tag_true in E, E'. congruence.
  - simpl. now rewrite IH.
Qed.

Lemma round_field_tag x x' : round_field x = Ok x' -> tag x' = tag x.
Proof.
  unfold round_field. destruct (PyNum.round_text (text x)) as [s|[]];
    intros [= <-]; auto using tag_set_text.
Qed.

Lemma with_child_tag t f e e' : ET.with_child t f e = Ok e' -> tag e' = tag e.
Proof.
  unfold ET.with_child. intros H. bind_inv H. inversion H.
  apply tag_set_children.
Qed.

Lemma with_grandchild_tag t1 t2 f e e' :
  ET.with_grandchild t1 t2 f e = Ok e' -> tag e' = tag e.
Proof.
  unfold ET.with_grandchild. intros H. bind_inv H. inversion H.
  apply tag_set_children.
Qed.

(** An update of a child, or of a grandchild, tagged otherwise leaves
    [find t] as it was. *)
Lemma find_with_child_other t t' f e e' :
  ET.with_child t' f e = Ok e' -> t <> t' ->
  (forall c c', f c = Ok c' -> tag c' = tag c) ->
  ET.find t e' = ET.find t e.
Proof.
  unfold ET.with_child, ET.find. intros H Hne Hf. bind_inv H. inversion H.
  rewrite children_set_children.
  eapply find_modify_first_other; eauto.
  intros c Hc. apply has_tag_true in Hc. apply has_tag_false. congruence.
Qed.

Lemma find_with_grandchild_other t t1 t2 f e e' :
  ET.with_grandchild t1 t2 f e = Ok e' -> t <> t1 ->
  ET.find t e' = ET.find t e.
Proof.
  unfold ET.with_grandchild, ET.find. intros H Hne. bind_inv H. inversion H.
  rewrite children_set_children.
  eapply find_modify_first_other; eauto.
  - intros c Hc. apply andb_prop in Hc as [Hc _].
    apply has_tag_true in Hc. apply has_tag_false. congruence.
  - intros c c' _ Hc. eapply with_child_tag; eauto.
Qed.

Lemma find_with_child_same t f e e' c :
  ET.with_child t f e = Ok e' -> ET.find t e = Some c ->
  (forall c', f c = Ok c' -> tag c' = t) ->
  exists c', f c = Ok c' /\ ET.find t e' = Some c'.
Proof.
  unfold ET.with_child, ET.find. intros H Hc Hf. bind_inv H. inversion H.
  rewrite children_set_children. eapply find_modify_first_same; eauto.
Qed.

Lemma find_remove_child_other t t' e :
  t <> t' -> ET.find t (ET.remove_child t' e) = ET.find t e.
Proof.
  intros. unfold ET.find, ET.remove_child. rewrite children_set_children.
  now apply find_remove_first_other.
Qed.

Lemma find_tag t e c : ET.find t e = Some c -> tag c = t.
Proof.
  unfold ET.find. intros H. apply find_some in H as [_ H].
  now apply has_tag_true.
Qed.

Lemma append_cancel_l (p a b : string) : p ++ a = p ++ b -> a = b.
Proof. induction p as [|c p IH]; simpl; [easy|]. intros [= H]. auto. Qed.

Lemma tcx_inj a b : tcx a = tcx b -> a = b.
Proof. unfold tcx. intros H. now do 3 apply append_cancel_l in H. Qed.

Lemma ae_inj a b : ae a = ae b -> a = b.
Proof. unfold ae. intros H. now do 3 apply append_cancel_l in H. Qed.

Lemma tcx_neq a b : a <> b -> tcx a <> tcx b.
Proof. intros H E. now apply tcx_inj in E. Qed.

Lemma ae_neq a b : a <> b -> ae a <> ae b.
Proof. intros H E. now apply ae_inj in E. Qed.

Lemma tcx_ae_neq a b : tcx a <> ae b.
Proof. unfold tcx, ae. intros H. apply append_cancel_l in H. discriminate. Qed.

(* ===================================================================== *)
(** ** The input file must exist *)

(** C5: when the input path names no file, the cleaner raises
    FileNotFoundError, the message holds the path between two fixed pieces of
    text, and the files and the output are as they were: nothing is written. *)
Theorem missing_input_raises_not_found
    (fromstring : string -> parsed) (tostring : Element -> written)
    (input_file : string) (output_file : option string) (w : World) :
  files w !! input_file = None ->
  clean_strava_peloton_tcx fromstring tostring input_file output_file w
  = (Raise (FileNotFoundError ("Input file '" ++ input_file ++ "' not found.")), w).
Proof.
  intros H. unfold clean_strava_peloton_tcx. now rewrite H.
Qed.

(* ===================================================================== *)
(** ** Calories of a lap *)


(* ===================================================================== *)
(** ** Rounding *)


(* ===================================================================== *)
(** ** A field that cannot be rounded *)

(** C1 (the code departs from it): [except ValueError] lets the TypeError of
    [float(None)] and the OverflowError of [round(inf)] through.  An empty
    Calories element, or a heart rate of "inf", ends the whole run with that
    exception and nothing is written; text that is not a number at all is
    left as it is. *)
Theorem empty_or_infinite_field_aborts :
  clean_tree doc_empty_calories = Raise TypeError /\
  clean_tree doc_inf_heart_rate = Raise OverflowError /\
  clean_strava_peloton_tcx (fun _ => Parsed doc_empty_calories) sample_tostring
    "ride.tcx" None (world_of "ride.tcx" "<a/>")
  = (Raise TypeError, world_of "ride.tcx" "<a/>") /\
  round_field (el (tcx "Calories") (Some "n/a") [])
    = Ok (el (tcx "Calories") (Some "n/a") []) /\
  round_field (el (tcx "Calories") (Some "") [])
    = Ok (el (tcx "Calories") (Some "") []).
Proof.
  repeat split; vm_compute; reflexivity.
Qed.

(* ===================================================================== *)
(** ** The second attempt at parsing *)

(** C4, as the code has it.  The content is what the file holds, without
    the white space around it.  Content that the parser accepts is used as
    it is parsed, with no second attempt (so it is with a byte-order mark
    before the declaration, which ElementTree accepts).  Content that the
    parser refuses and that starts with "<?xml" is cut after its first "?>",
    stripped and parsed once more: the run goes on with that tree, or ends
    with ValueError and the message of the second attempt.  Content that the
    parser refuses and that does not start with "<?xml" is parsed once more
    as it is, nothing being cut: the run ends with ValueError and no file is
    written.  A run that goes on returns the output path, with the document
    written and one line printed, when the edits raise nothing and the write
    completes. *)
Theorem parse_retry_cuts_declaration_first_content_only
    (fromstring : string -> parsed) (tostring : Element -> written)
    (input_file : string) (output_file : option string) (w : World)
    (raw : string) :
  files w !! input_file = Some raw ->
  let content := PyStr.strip raw in
  let retried :=
    PyStr.strip (PyStr.slice_from (PyStr.find "?>" content + 2) content) in
  let out := default input_file output_file in
  let run :=
    clean_strava_peloton_tcx fromstring tostring input_file output_file w in
  let saved text :=
    (Ok out, mkWorld (<[out := text]> (files w))
                     (stdout w ++ [("Cleaned file saved to: " ++ out)%string])) in
  (forall root root' text,
     fromstring content = Parsed root ->
     clean_tree root = Ok root' -> tostring root' = Written text ->
     run = saved text) /\
  (forall msg root root' text,
     PyStr.startswith "<?xml" content = true ->
     fromstring content = ParseError msg ->
     fromstring retried = Parsed root ->
     clean_tree root = Ok root' -> tostring root' = Written text ->
     run = saved text) /\
  (forall msg msg',
     PyStr.startswith "<?xml" content = true ->
     fromstring content = ParseError msg ->
     fromstring retried = ParseError msg' ->
     run = (Raise (ValueError ("Failed to parse XML: " ++ msg')), w)) /\
  (forall msg,
     PyStr.startswith "<?xml" content = false ->
     fromstring content = ParseError msg ->
     run = (Raise (ValueError ("Failed to parse XML: " ++ msg)), w)).
Proof.
  intros Hf content retried out run saved.
  subst run. unfold clean_strava_peloton_tcx, parse. rewrite Hf.
  fold content. repeat split.
  - intros root root' text H1 Hc Hw. rewrite H1. simpl. now rewrite Hc, Hw.
  - intros msg root root' text Hs H1 H2 Hc Hw. rewrite H1, Hs.
    fold retried. rewrite H2. simpl. now rewrite Hc, Hw.
  - intros msg msg' Hs H1 H2. rewrite H1, Hs. fold retried. now rewrite H2.
  - intros msg Hs H1. now rewrite H1, Hs, H1.
Qed.

Lemma parse_retry_cuts_declaration_first_content_only_witness :
  clean_strava_peloton_tcx sample_fromstring sample_tostring "ride.tcx" None
    (world_of "ride.tcx" " <?xml version='1.0'?><?xml version='1.0'?><a/> ")
  = (Ok "ride.tcx",
     mkWorld (<["ride.tcx" := "<?xml version='1.0' encoding='utf-8'?>
<a />"]>
                (files (world_of "ride.tcx"
                          " <?xml version='1.0'?><?xml version='1.0'?><a/> ")))
             ["Cleaned file saved to: ride.tcx"]).
Proof.
  refine (proj1 (proj2 (parse_retry_cuts_declaration_first_content_only
           sample_fromstring sample_tostring "ride.tcx" None
           (world_of "ride.tcx" " <?xml version='1.0'?><?xml version='1.0'?><a/> ")
           " <?xml version='1.0'?><?xml version='1.0'?><a/> " _))
           "syntax error" (el "a" None []) (el "a" None []) _ _ _ _ _ _).
  - unfold world_of. simpl. apply lookup_singleton_eq.
  - vm_compute. reflexivity.
  - vm_compute. reflexivity.
  - vm_compute. reflexivity.
  - vm_compute. reflexivity.
  - vm_compute. reflexivity.
Defined.

(** C4 as stated fails: text before the declaration is never cut off, since
    the content does not start with "<?xml"; the second attempt parses the
    same content and the run ends with ValueError, although what follows the
    declaration is a document the parser accepts. *)
Lemma stray_prefix_is_not_recovered :
  let content := "junk" ++ "<?xml version='1.0'?>" ++ "<a/>" in
  sample_fromstring content = ParseError "syntax error" /\
  sample_fromstring "<a/>" = Parsed (el "a" None []) /\
  clean_tree (el "a" None []) = Ok (el "a" None []) /\
  clean_strava_peloton_tcx sample_fromstring sample_tostring "ride.tcx" None
    (world_of "ride.tcx" content)
  = (Raise (ValueError "Failed to parse XML: syntax error"),
     world_of "ride.tcx" content).
Proof.
  repeat split; vm_compute; reflexivity.
Qed.

Lemma missing_input_raises_not_found_witness :
  clean_strava_peloton_tcx sample_fromstring sample_tostring
    "missing.tcx" (Some "out.tcx") (world_of "ride.tcx" "<a/>")
  = (Raise (FileNotFoundError "Input file 'missing.tcx' not found."),
     world_of "ride.tcx" "<a/>").
Proof.
  apply (missing_input_raises_not_found sample_fromstring sample_tostring
           "missing.tcx" (Some "out.tcx") (world_of "ride.tcx" "<a/>")).
  unfold world_of. simpl. apply lookup_singleton_ne. discriminate.
Defined.

(* ===================================================================== *)
(** ** The extension block of a lap *)

Lemma mapM_In_fwd {A B : Type} (f : A -> result B) l l' x :
  mapM f l = Ok l' -> In x l -> exists y, f x = Ok y /\ In y l'.
Proof.
  revert l'. induction l as [|a l IH]; simpl; intros l' H Hx; [easy|].
  bind_inv H. bind_inv H. inversion H; subst.
  destruct Hx as [-> | Hx].
  - exists a0. simpl. auto.
  - destruct (IH _ Ha0 Hx) as (y & Hy & Hin). exists y. simpl. auto.
Qed.

Lemma mapM_In_bwd {A B : Type} (f : A -> result B) l l' y :
  mapM f l = Ok l' -> In y l' -> exists x, In x l /\ f x = Ok y.
Proof.
  revert l'. induction l as [|a l IH]; simpl; intros l' H Hy.
  - inversion H; subst. easy.
  - bind_inv H. bind_inv H. inversion H; subst.
    destruct Hy as [<- | Hy].
    + exists a. auto.
    + destruct (IH _ Ha0 Hy) as (x & Hx & Hf). exists x. auto.
Qed.

Lemma tag_set_tag t e : tag (set_tag t e) = t.
Proof. now destruct e. Qed.

Lemma text_set_tag t e : text (set_tag t e) = text e.
Proof. now destruct e. Qed.

Lemma children_set_tag t e : children (set_tag t e) = children e.
Proof. now destruct e. Qed.

Lemma children_set_text x e : children (set_text x e) = children e.
Proof. now destruct e. Qed.

(** What one turn of the loop over the children gives: a child marked for
    removal when its name is one of the three, a child with the new tag of
    the extension namespace when its name is one of the four, and in both
    other cases a child whose name is none of the seven. *)
Lemma lap_tpx_child_ok child child' rm :
  lap_tpx_child child = Ok (child', rm) ->
  (rm = true /\ in_names (child_tag child) to_remove_names = true) \/
  (rm = false /\ exists new,
      lookup_name (child_tag child) rename_map = Some new /\
      tag child' = ae new /\ in_names (child_tag child') old_names = false) \/
  (rm = false /\ tag child' = tag child /\
   in_names (child_tag child') old_names = false).
Proof.
  unfold lap_tpx_child.
  destruct (in_names (child_tag child) to_remove_names) eqn:Hrm.
  - intros H. bind_inv H. inversion H; subst. auto.
  - destruct (lookup_name (child_tag child) rename_map) as [new|] eqn:Hnew.
    + intros H. bind_inv H. inversion H; subst. right. left.
      split; [easy|]. exists new. split; [easy|].
      assert (Ht : tag child' = ae new).
      { destruct (truthy _); [|now inversion Ha; rewrite tag_set_tag].
        rewrite (round_field_tag _ _ Ha). apply tag_set_tag. }
      split; [easy|]. unfold child_tag. rewrite Ht.
      revert Hnew. unfold rename_map, lookup_name.
      repeat (destruct (String.eqb _ _); [intros [= <-]; vm_compute; reflexivity|]).
      discriminate.
    + intros H. bind_inv H. inversion H; subst. right. right.
      assert (Ht : tag child' = tag child).
      { destruct (truthy _); [|now inversion Ha]. now apply round_field_tag. }
      split; [easy|]. split; [easy|]. unfold child_tag in *. rewrite Ht.
      revert Hrm Hnew. unfold in_names, old_names, to_remove_names, rename_map.
      simpl. generalize (PyStr.split_last "}" (tag child)). intros s.
      repeat (destruct (String.eqb s _); [discriminate|]). reflexivity.
Qed.

(** The children of the retagged block are the children the loop kept. *)
Lemma lap_tpx_ok tpx lx :
  lap_tpx tpx = Ok lx ->
  tag lx = ae "LX" /\
  exists marked,
    mapM lap_tpx_child (children tpx) = Ok marked /\
    children lx = List.map fst (List.filter (fun p => negb (snd p)) marked).
Proof.
  unfold lap_tpx. intros H. bind_inv H. inversion H; subst.
  rewrite children_set_tag in Ha.
  rewrite tag_set_children, tag_set_tag, children_set_children. eauto.
Qed.


(* ===================================================================== *)
(** ** The extension block of a trackpoint *)

Lemma count_tag_remove_first t l :
  count_tag t (ET.remove_first (has_tag t) l) = Nat.pred (count_tag t l).
Proof.
  unfold count_tag. induction l as [|c l IH]; simpl; [easy|].
  destruct (has_tag t c) eqn:E; simpl; [easy|]. now rewrite E.
Qed.

Lemma count_tag_modify_first P f t l l' :
  ET.modify_first P f l = Ok l' ->
  (forall c c', P c = true -> f c = Ok c' -> tag c' = tag c) ->
  count_tag t l' = count_tag t l.
Proof.
  intros H Hf.
  destruct (modify_first_ok _ _ _ _ H)
    as [[_ ->] | (l1 & c & c' & l2 & -> & -> & _ & Hc & Hfc)]; [easy|].
  unfold count_tag. rewrite !List.filter_app, !List.length_app. simpl.
  assert (E : has_tag t c' = has_tag t c)
    by (unfold has_tag; now rewrite (Hf _ _ Hc Hfc)).
  rewrite E. now destruct (has_tag t c).
Qed.

Lemma trackpoint_tpx_tag tpx tpx' :
  trackpoint_tpx tpx = Ok tpx' -> tag tpx' = tag tpx.
Proof.
  unfold trackpoint_tpx. intros H. rewrite (with_child_tag _ _ _ _ H).
  unfold ET.remove_child. apply tag_set_children.
Qed.

(** What [trackpoint_tpx] does to the block: the first Resistance child is
    gone, the first Watts child is rounded. *)
Lemma trackpoint_tpx_ok tpx tpx' :
  trackpoint_tpx tpx = Ok tpx' ->
  count_tag (ae "Resistance") (children tpx')
    = Nat.pred (count_tag (ae "Resistance") (children tpx)) /\
  (forall w, ET.find (ae "Watts") tpx = Some w ->
     exists w', round_field w = Ok w' /\ ET.find (ae "Watts") tpx' = Some w').
Proof.
  unfold trackpoint_tpx. intros H. split.
  - unfold ET.with_child in H. bind_inv H. inversion H; subst.
    rewrite children_set_children.
    rewrite (count_tag_modify_first _ _ _ _ _ Ha)
      by (intros; now apply round_field_tag).
    unfold ET.remove_child. rewrite children_set_children.
    apply count_tag_remove_first.
  - intros w Hw.
    rewrite <- (find_remove_child_other _ (ae "Resistance")) in Hw
      by (apply ae_neq; discriminate).
    apply (find_with_child_same _ _ _ _ _ H Hw).
    intros c' Hc'. rewrite (round_field_tag _ _ Hc'). eapply find_tag; eauto.
Qed.

(** [process_trackpoint] on a trackpoint whose first Extensions child [ext]
    has a first [ae:TPX] child [tpx]. *)
Lemma process_trackpoint_extensions tp tp' ext tpx :
  ET.find (tcx "Extensions") tp = Some ext ->
  ET.find (ae "TPX") ext = Some tpx ->
  process_trackpoint tp = Ok tp' ->
  exists ext' tpx',
    ET.find (tcx "Extensions") tp' = Some ext' /\
    ET.find (ae "TPX") ext' = Some tpx' /\
    trackpoint_tpx tpx = Ok tpx'.
Proof.
  intros He Ht H. unfold process_trackpoint in H.
  bind_inv H. rename a into tp2, Ha into H2.
  bind_inv H. rename a into tp3, Ha into H3.
  rewrite <- (find_with_grandchild_other _ _ _ _ _ _ H2) in He
    by (apply tcx_neq; discriminate).
  rewrite <- (find_with_child_other _ _ _ _ _ H3) in He;
    [|apply tcx_neq; discriminate | apply round_field_tag].
  destruct (find_with_child_same _ _ _ _ _ H He) as (ext' & Hext & He').
  { intros c' Hc'. rewrite (with_child_tag _ _ _ _ Hc'). eapply find_tag; eauto. }
  destruct (find_with_child_same _ _ _ _ _ Hext Ht) as (tpx' & Htpx & Ht').
  { intros c' Hc'. rewrite (trackpoint_tpx_tag _ _ Hc'). eapply find_tag; eauto. }
  eauto.
Qed.

(* ===================================================================== *)
(** ** A rounded text is rounded to itself *)

Module PyNumFacts.
Import PyNum.

Lemma pow2_pos k : 0 < 2 ^ k \/ k < 0.
Proof. destruct (Z.le_gt_cases 0 k); [left; now apply Z.pow_pos_nonneg | now right]. Qed.

Lemma pow2_gt0 k : 0 <= k -> 0 < 2 ^ k.
Proof. intros. now apply Z.pow_pos_nonneg. Qed.

Lemma div_rne_exact q b : 0 < b -> div_rne (q * b) b = q.
Proof.
  intros Hb. unfold div_rne. rewrite Z.div_mul, Z.mod_mul by lia.
  destruct (2 * 0 <? b) eqn:E; [easy | apply Z.ltb_ge in E; lia].
Qed.

Lemma div_rne_bounds a b c :
  0 <= a -> 0 < b -> a <= b * c -> 0 <= div_rne a b <= c.
Proof.
  intros Ha Hb Hc. unfold div_rne.
  pose proof (Z.div_mod a b ltac:(lia)) as E.
  pose proof (Z.mod_pos_bound a b Hb) as Hr.
  assert (0 <= a / b) by (apply Z.div_pos; lia).
  destruct (2 * (a mod b) <? b) eqn:E1; [nia|].
  apply Z.ltb_ge in E1.
  assert (a / b + 1 <= c) by nia.
  destruct (b <? 2 * (a mod b)); [lia|].
  destruct (Z.even (a / b)); nia.
Qed.

(** [floor_log2 n d] is not too small. *)
Lemma floor_log2_upper n d :
  0 < n -> 0 < d ->
  let k := floor_log2 n d in
  (0 <= k + 1 -> n < d * 2 ^ (k + 1)) /\ (k + 1 < 0 -> n * 2 ^ (- (k + 1)) < d).
Proof.
  intros Hn Hd. unfold floor_log2.
  pose proof (Z.log2_spec n Hn) as [_ Hn2].
  pose proof (Z.log2_spec d Hd) as [Hd1 _].
  pose proof (Z.log2_nonneg n) as Ha. pose proof (Z.log2_nonneg d) as Hb.
  set (a := Z.log2 n) in *. set (b := Z.log2 d) in *.
  destruct (scaled_geb n d (a - b)) eqn:E; cbv zeta.
  - split; intros Hk.
    + replace (Z.succ a) with ((a - b + 1) + b) in Hn2 by lia.
      rewrite Z.pow_add_r in Hn2 by lia.
      pose proof (pow2_gt0 (a - b + 1) Hk). nia.
    + assert (Hp : 0 < 2 ^ (- (a - b + 1))) by (apply pow2_gt0; lia).
      assert (E2 : 2 ^ Z.succ a * 2 ^ (- (a - b + 1)) = 2 ^ b).
      { rewrite <- Z.pow_add_r by lia. f_equal. lia. }
      nia.
  - unfold scaled_geb in E. replace (a - b - 1 + 1) with (a - b) by lia.
    destruct (0 <=? a - b) eqn:E0.
    + apply Z.leb_le in E0. apply Z.leb_gt in E. split; intros; lia.
    + apply Z.leb_gt in E0. apply Z.leb_gt in E. split; intros; lia.
Qed.

(** The finite values [to_double] gives have a 53-bit significand and are
    below 2^1024. *)
Lemma to_double_finite neg n d neg' m e :
  0 <= n -> 0 < d ->
  to_double neg n d = Finite neg' m e ->
  0 <= m <= 2 ^ 53 /\ e <= 971 /\ (e = 971 -> m < 2 ^ 53).
Proof.
  intros Hn Hd. unfold to_double.
  destruct (n =? 0) eqn:E0.
  { intros [= <- <- <-]. lia. }
  apply Z.eqb_neq in E0. assert (Hn' : 0 < n) by lia.
  pose proof (floor_log2_upper n d Hn' Hd) as Hk. cbv zeta in Hk.
  set (k := floor_log2 n d) in *.
  set (e0 := Z.max (k - 52) (-1074)).
  assert (He0 : k - 52 <= e0) by (unfold e0; lia).
  set (m0 := if 0 <=? e0 then div_rne n (d * 2 ^ e0) else div_rne (n * 2 ^ (- e0)) d).
  assert (Hm0 : 0 <= m0 <= 2 ^ 53).
  { unfold m0. destruct (0 <=? e0) eqn:Ee.
    - apply Z.leb_le in Ee. pose proof (pow2_gt0 e0 Ee).
      apply div_rne_bounds; [lia | nia |].
      destruct (Z.le_gt_cases 0 (k + 1)) as [Hk1|Hk1].
      + destruct Hk as [Hk _]. specialize (Hk Hk1).
        assert (2 ^ (k + 1) <= 2 ^ e0 * 2 ^ 53).
        { rewrite <- Z.pow_add_r by lia. apply Z.pow_le_mono_r; lia. }
        nia.
      + destruct Hk as [_ Hk]. specialize (Hk Hk1).
        assert (0 < 2 ^ (- (k + 1))) by (apply pow2_gt0; lia).
        assert (0 < 2 ^ 53) by (apply pow2_gt0; lia). nia.
    - apply Z.leb_gt in Ee.
      assert (Hp : 0 < 2 ^ (- e0)) by (apply pow2_gt0; lia).
      apply div_rne_bounds; [nia | lia |].
      destruct (Z.le_gt_cases 0 (k + 1)) as [Hk1|Hk1].
      + destruct Hk as [Hk _]. specialize (Hk Hk1).
        assert (2 ^ (k + 1) * 2 ^ (- e0) <= 2 ^ 53).
        { rewrite <- Z.pow_add_r by lia. apply Z.pow_le_mono_r; lia. }
        nia.
      + destruct Hk as [_ Hk]. specialize (Hk Hk1).
        assert (2 ^ (- e0) <= 2 ^ (- (k + 1)) * 2 ^ 53).
        { rewrite <- Z.pow_add_r by lia. apply Z.pow_le_mono_r; lia. }
        nia. }
  destruct ((971 <? e0) || ((e0 =? 971) && (2 ^ 53 <=? m0))) eqn:Eo; [discriminate|].
  intros [= <- <- <-].
  apply orb_false_iff in Eo as [E1 E2]. apply Z.ltb_ge in E1.
  split; [exact Hm0|]. split; [lia|]. intros ->.
  rewrite Z.eqb_refl in E2. simpl in E2. apply Z.leb_gt in E2. exact E2.
Qed.

(** The integer nearest to a finite value: below 2^1024, and a multiple of
    2^(log2 a - 52) when it has more than 53 bits. *)
Lemma round_representable m e :
  0 <= m <= 2 ^ 53 -> e <= 971 -> (e = 971 -> m < 2 ^ 53) ->
  let a := if 0 <=? e then m * 2 ^ e else div_rne m (2 ^ (- e)) in
  0 <= a < 2 ^ 1024 /\ (2 ^ 52 <= a -> a mod 2 ^ (Z.log2 a - 52) = 0).
Proof.
  intros Hm He He'. destruct (0 <=? e) eqn:E; cbv zeta.
  - apply Z.leb_le in E. pose proof (pow2_gt0 e E) as Hp.
    assert (Hlt : m * 2 ^ e < 2 ^ 1024).
    { destruct (Z.eq_dec e 971) as [->|Hne].
      - specialize (He' eq_refl).
        replace (2 ^ 1024) with (2 ^ 53 * 2 ^ 971) by (rewrite <- Z.pow_add_r; lia || reflexivity).
        nia.
      - assert (2 ^ e <= 2 ^ 970) by (apply Z.pow_le_mono_r; lia).
        replace (2 ^ 1024) with (2 * (2 ^ 53 * 2 ^ 970))
          by (rewrite <- Z.pow_add_r, <- Z.pow_succ_r; lia || reflexivity).
        assert (0 < 2 ^ 970) by (apply pow2_gt0; lia). nia. }
    split; [nia|]. intros Hge.
    assert (Hm0 : 0 < m) by (assert (0 < 2 ^ 52) by (apply pow2_gt0; lia); nia).
    rewrite Z.log2_mul_pow2 by lia.
    assert (H52 : 52 <= e + Z.log2 m).
    { rewrite <- Z.log2_mul_pow2 by lia. apply Z.log2_le_pow2; [nia | exact Hge]. }
    destruct (Z.eq_dec m (2 ^ 53)) as [->|Hne].
    + rewrite Z.log2_pow2 by lia.
      replace (2 ^ 53 * 2 ^ e) with (2 ^ 52 * 2 ^ (e + 53 - 52)).
      * apply Z.mod_mul. apply Z.pow_nonzero; lia.
      * rewrite <- !Z.pow_add_r by lia. f_equal. lia.
    + assert (Z.log2 m < 53) by (apply Z.log2_lt_pow2; lia).
      replace (m * 2 ^ e) with (m * 2 ^ (52 - Z.log2 m) * 2 ^ (e + Z.log2 m - 52)).
      * apply Z.mod_mul. apply Z.pow_nonzero; lia.
      * rewrite <- Z.mul_assoc, <- Z.pow_add_r by lia. do 2 f_equal. lia.
  - apply Z.leb_gt in E.
    assert (Hp : 2 ^ 1 <= 2 ^ (- e)) by (apply Z.pow_le_mono_r; lia).
    rewrite Z.pow_1_r in Hp.
    assert (Ha : 0 <= div_rne m (2 ^ (- e)) <= 2 ^ 52).
    { apply div_rne_bounds; [lia | lia |].
      replace (2 ^ 53) with (2 * 2 ^ 52) in Hm by reflexivity.
      assert (0 < 2 ^ 52) by (apply pow2_gt0; lia). nia. }
    split.
    + assert (2 ^ 52 < 2 ^ 1024) by (apply Z.pow_lt_mono_r; lia). lia.
    + intros Hge. assert (Heq : div_rne m (2 ^ (- e)) = 2 ^ 52) by lia.
      rewrite Heq, Z.log2_pow2 by lia. apply Z.mod_1_r.
Qed.

(** Such an integer is a binary64, and rounds to itself. *)
Lemma to_double_representable neg a :
  0 < a -> a < 2 ^ 1024 ->
  (2 ^ 52 <= a -> a mod 2 ^ (Z.log2 a - 52) = 0) ->
  exists m e, to_double neg a 1 = Finite neg m e /\
              (if 0 <=? e then m * 2 ^ e else div_rne m (2 ^ (- e))) = a.
Proof.
  intros Ha Hlt Hdiv. unfold to_double.
  destruct (a =? 0) eqn:E0; [apply Z.eqb_eq in E0; lia|].
  pose proof (Z.log2_spec a Ha) as [Hlo Hhi].
  pose proof (Z.log2_nonneg a) as Hk.
  assert (Hfl : floor_log2 a 1 = Z.log2 a).
  { unfold floor_log2, scaled_geb. change (Z.log2 1) with 0.
    rewrite Z.sub_0_r.
    destruct (0 <=? Z.log2 a) eqn:E; [|apply Z.leb_gt in E; lia].
    destruct (1 * 2 ^ Z.log2 a <=? a) eqn:E'; [easy|].
    apply Z.leb_gt in E'. lia. }
  rewrite Hfl.
  assert (Hk2 : Z.log2 a < 1024) by (apply Z.log2_lt_pow2; lia).
  replace (Z.max (Z.log2 a - 52) (-1074)) with (Z.log2 a - 52) by lia.
  set (e := Z.log2 a - 52) in *.
  destruct (0 <=? e) eqn:Ee.
  - apply Z.leb_le in Ee. pose proof (pow2_gt0 e Ee) as Hp.
    assert (H52 : 2 ^ 52 <= a).
    { eapply Z.le_trans; [|exact Hlo]. apply Z.pow_le_mono_r; lia. }
    specialize (Hdiv H52).
    apply Z.mod_divide in Hdiv; [|lia]. destruct Hdiv as [q Hq].
    rewrite Z.mul_1_l.
    assert (Hm : div_rne a (2 ^ e) = q).
    { transitivity (div_rne (q * 2 ^ e) (2 ^ e)); [now f_equal|].
      apply div_rne_exact. lia. }
    rewrite Hm.
    assert (Hq53 : q < 2 ^ 53).
    { replace (Z.succ (Z.log2 a)) with (53 + e) in Hhi by lia.
      rewrite Z.pow_add_r in Hhi by lia. nia. }
    assert (Eo : (971 <? e) || ((e =? 971) && (2 ^ 53 <=? q)) = false).
    { apply orb_false_iff. split; [apply Z.ltb_ge; lia|].
      apply andb_false_iff. right. apply Z.leb_gt. exact Hq53. }
    rewrite Eo. exists q, e. split; [easy|].
    destruct (0 <=? e) eqn:Ee'; [lia | apply Z.leb_gt in Ee'; lia].
  - apply Z.leb_gt in Ee.
    assert (Hp : 0 < 2 ^ (- e)) by (apply pow2_gt0; lia).
    assert (Hm : div_rne (a * 2 ^ (- e)) 1 = a * 2 ^ (- e)).
    { transitivity (div_rne (a * 2 ^ (- e) * 1) 1); [f_equal; lia|].
      apply div_rne_exact. lia. }
    rewrite Hm.
    assert (Eo : (971 <? e) || ((e =? 971) && (2 ^ 53 <=? a * 2 ^ (- e))) = false).
    { apply orb_false_iff. split; [apply Z.ltb_ge; lia|].
      apply andb_false_iff. left. apply Z.eqb_neq. lia. }
    rewrite Eo. exists (a * 2 ^ (- e)), e. split; [easy|].
    destruct (0 <=? e) eqn:Ee'; [apply Z.leb_le in Ee'; lia|].
    apply div_rne_exact. lia.
Qed.

(** *** Digits *)

Lemma digit_facts c :
  PyStr.isdigit c = true ->
  0 <= digit_val c <= 9 /\ PyStr.lower c = c /\ PyStr.c_isspace c = false /\
  Ascii.eqb c "_" = false /\ Ascii.eqb c "-" = false /\ Ascii.eqb c "+" = false /\
  Ascii.eqb c "i" = false /\ Ascii.eqb c "n" = false.
Proof.
  destruct c as [[] [] [] [] [] [] [] []]; intros H; try discriminate H;
    vm_compute; intuition discriminate.
Qed.

Lemma digit_char_facts d :
  0 <= d <= 9 ->
  PyStr.isdigit (digit_char d) = true /\ digit_val (digit_char d) = d.
Proof.
  intros H.
  assert (E : d = 0 \/ d = 1 \/ d = 2 \/ d = 3 \/ d = 4 \/ d = 5 \/ d = 6 \/
              d = 7 \/ d = 8 \/ d = 9) by lia.
  repeat (destruct E as [-> | E]; [vm_compute; auto|]). subst. vm_compute. auto.
Qed.

Lemma digits_val_app v l1 l2 :
  digits_val v (l1 ++ l2)%list = digits_val (digits_val v l1) l2.
Proof. revert v. induction l1 as [|c l1 IH]; simpl; intros; [easy | apply IH]. Qed.

Lemma digits_val_nonneg v l :
  0 <= v -> forallb PyStr.isdigit l = true -> 0 <= digits_val v l.
Proof.
  revert v. induction l as [|c l IH]; simpl; intros v Hv H; [easy|].
  apply andb_prop in H as [Hc H]. apply IH; [|easy].
  pose proof (digit_facts c Hc). lia.
Qed.

Lemma span_digits_digits l ds rest :
  span_digits l = (ds, rest) -> forallb PyStr.isdigit ds = true.
Proof.
  revert ds rest. induction l as [|c l IH]; simpl; intros ds rest.
  - now intros [= <- <-].
  - destruct (PyStr.isdigit c) eqn:E.
    + destruct (span_digits l) as [ds' rest'] eqn:E'. intros [= <- <-].
      simpl. rewrite E. eapply IH; eauto.
    + now intros [= <- <-].
Qed.

Lemma span_digits_all ds :
  forallb PyStr.isdigit ds = true -> span_digits ds = (ds, []).
Proof.
  induction ds as [|c ds IH]; simpl; [easy|]. intros H.
  apply andb_prop in H as [Hc H]. now rewrite Hc, IH.
Qed.

(** The digits [str] writes, read back. *)
Lemma pos_digits_ok fuel n acc :
  (0 < fuel)%nat -> 0 <= n < 2 ^ Z.of_nat fuel ->
  exists ds, pos_digits fuel n acc = (ds ++ acc)%list /\ ds <> [] /\
             forallb PyStr.isdigit ds = true /\
             forall v, digits_val v ds = v * 10 ^ Z.of_nat (List.length ds) + n.
Proof.
  revert n acc. induction fuel as [|fuel IH]; intros n acc Hf Hn; [lia|].
  simpl pos_digits.
  assert (Hd : 0 <= n mod 10 <= 9) by (pose proof (Z.mod_pos_bound n 10); lia).
  destruct (digit_char_facts _ Hd) as [Hdig Hval].
  destruct (n <? 10) eqn:E.
  - apply Z.ltb_lt in E. exists [digit_char (n mod 10)].
    split; [easy|]. split; [easy|]. split; [simpl; now rewrite Hdig|].
    intros v. simpl. rewrite Hval, Z.mod_small by lia. lia.
  - apply Z.ltb_ge in E.
    assert (Hpow : 2 ^ Z.of_nat (S fuel) = 2 * 2 ^ Z.of_nat fuel).
    { rewrite Nat2Z.inj_succ, Z.pow_succ_r; lia. }
    assert (Hfuel : (0 < fuel)%nat).
    { destruct fuel; [simpl in Hn; lia | lia]. }
    assert (Hq : 0 <= n / 10 < 2 ^ Z.of_nat fuel).
    { split; [apply Z.div_pos; lia|].
      apply Z.div_lt_upper_bound; [lia|].
      assert (0 < 2 ^ Z.of_nat fuel) by (apply pow2_gt0; lia). lia. }
    destruct (IH (n / 10) (digit_char (n mod 10) :: acc) Hfuel Hq)
      as (ds & Hds & Hne & Hall & Hv).
    exists (ds ++ [digit_char (n mod 10)])%list.
    split; [rewrite Hds, <- app_assoc; reflexivity|].
    split; [now destruct ds|].
    split; [rewrite forallb_app; simpl; now rewrite Hall, Hdig|].
    intros v. rewrite digits_val_app, Hv. simpl. rewrite Hval.
    rewrite List.length_app. simpl List.length.
    rewrite Nat2Z.inj_add, Z.pow_add_r by lia.
    change (Z.of_nat 1) with 1. rewrite Z.pow_1_r.
    pose proof (Z.div_mod n 10 ltac:(lia)). lia.
Qed.

Lemma nat_digits_ok n :
  0 <= n ->
  nat_digits n <> [] /\ forallb PyStr.isdigit (nat_digits n) = true /\
  digits_val 0 (nat_digits n) = n.
Proof.
  intros Hn. unfold nat_digits.
  destruct (pos_digits_ok (S (Z.to_nat (Z.log2 n))) n []) as (ds & Hds & Hne & Hall & Hv).
  - lia.
  - split; [lia|]. rewrite Nat2Z.inj_succ, Z2Nat.id by apply Z.log2_nonneg.
    destruct (Z.eq_dec n 0) as [->|]; [vm_compute; reflexivity|].
    apply Z.log2_spec. lia.
  - rewrite Hds, app_nil_r. split; [easy|]. split; [easy|]. rewrite Hv. lia.
Qed.

(** *** Reading a number that [str] wrote *)

Lemma lstrip_no_space sp s :
  forallb (fun c => negb (sp c)) (list_ascii_of_string s) = true ->
  PyStr.lstrip_with sp s = s.
Proof.
  destruct s as [|c s]; simpl; [easy|]. intros H.
  apply andb_prop in H as [Hc _]. now destruct (sp c).
Qed.

Lemma rstrip_no_space sp s :
  forallb (fun c => negb (sp c)) (list_ascii_of_string s) = true ->
  PyStr.rstrip_with sp s = s.
Proof.
  induction s as [|c s IH]; simpl; [easy|]. intros H.
  apply andb_prop in H as [Hc H]. rewrite (IH H).
  destruct s; [now destruct (sp c) | reflexivity].
Qed.

Lemma strip_no_space sp s :
  forallb (fun c => negb (sp c)) (list_ascii_of_string s) = true ->
  PyStr.strip_with sp s = s.
Proof.
  intros H. unfold PyStr.strip_with.
  rewrite (lstrip_no_space _ _ H). now apply rstrip_no_space.
Qed.

Lemma drop_underscores_none prev l :
  Ascii.eqb prev "_" = false ->
  forallb (fun c => negb (Ascii.eqb c "_")) l = true ->
  drop_underscores prev l = Some l.
Proof.
  revert prev. induction l as [|c l IH]; simpl; intros prev Hp H.
  - now rewrite Hp.
  - apply andb_prop in H as [Hc H]. apply negb_true_iff in Hc.
    rewrite Hc, Hp. simpl. now rewrite (IH c Hc H).
Qed.

Lemma forallb_digits (Q : ascii -> bool) ds :
  (forall c, PyStr.isdigit c = true -> Q c = true) ->
  forallb PyStr.isdigit ds = true -> forallb Q ds = true.
Proof.
  intros HQ. induction ds as [|c ds IH]; simpl; [easy|]. intros H.
  apply andb_prop in H as [Hc H]. now rewrite (HQ c Hc), IH.
Qed.

Lemma parse_decimal_digits ds :
  ds <> [] -> forallb PyStr.isdigit ds = true ->
  parse_decimal ds = Some (digits_val 0 ds, 1).
Proof.
  intros Hne H. unfold parse_decimal. rewrite (span_digits_all _ H).
  rewrite app_nil_r. destruct ds as [|c ds]; [easy|].
  simpl parse_exponent. cbv iota beta. simpl List.length.
  change (0 - Z.of_nat 0) with 0. simpl (0 <=? 0).
  cbv iota. now rewrite Z.pow_0_r, Z.mul_1_r.
Qed.

Lemma not_inf_nan ds :
  ds <> [] -> forallb PyStr.isdigit ds = true ->
  list_eqb (lower_list ds) (list_ascii_of_string "inf") = false /\
  list_eqb (lower_list ds) (list_ascii_of_string "infinity") = false /\
  list_eqb (lower_list ds) (list_ascii_of_string "nan") = false.
Proof.
  destruct ds as [|c ds]; [easy|]. intros _ H. simpl in H.
  apply andb_prop in H as [Hc _].
  destruct (digit_facts c Hc) as (_ & Hl & _ & _ & _ & _ & Hi & Hn).
  unfold list_eqb, lower_list. simpl. rewrite Hl.
  unfold String.eqb; fold String.eqb. rewrite Hi, Hn. auto.
Qed.

Lemma transform_ascii s : Utf8.is_ascii s = true -> transform s = s.
Proof. unfold transform. now intros ->. Qed.

Lemma digit_is_ascii c : PyStr.isdigit c = true -> (Utf8.byte c <? 128)%N = true.
Proof.
  unfold PyStr.isdigit, Utf8.byte. intros H. apply andb_prop in H as [_ H].
  apply N.leb_le in H. apply N.ltb_lt. lia.
Qed.

Lemma digits_are_ascii ds :
  forallb PyStr.isdigit ds = true ->
  Utf8.is_ascii (string_of_list_ascii ds) = true.
Proof.
  intros H. unfold Utf8.is_ascii. rewrite list_ascii_of_string_of_list_ascii.
  apply forallb_digits; [apply digit_is_ascii | exact H].
Qed.

Lemma signed_digits_are_ascii ds :
  forallb PyStr.isdigit ds = true ->
  Utf8.is_ascii (String "-" (string_of_list_ascii ds)) = true.
Proof.
  intros H. pose proof (digits_are_ascii ds H) as Hd.
  unfold Utf8.is_ascii in *. simpl. exact Hd.
Qed.

(** [float(str(n))] is the binary64 nearest to [n]. *)
Lemma float_of_str n :
  float_of_string (str n) = Ok (to_double (n <? 0) (Z.abs n) 1).
Proof.
  unfold str.
  destruct (n <? 0) eqn:E.
  - apply Z.ltb_lt in E.
    destruct (nat_digits_ok (- n) ltac:(lia)) as (Hne & Hall & Hval).
    set (ds := nat_digits (- n)) in *.
    unfold float_of_string.
    rewrite transform_ascii by (apply signed_digits_are_ascii; exact Hall).
    rewrite strip_no_space; cycle 1.
    { simpl. rewrite list_ascii_of_string_of_list_ascii.
      apply forallb_digits; [|exact Hall].
      intros c Hc. destruct (digit_facts c Hc) as (_ & _ & -> & _). easy. }
    simpl list_ascii_of_string. rewrite list_ascii_of_string_of_list_ascii.
    rewrite drop_underscores_none; [|reflexivity|]; cycle 1.
    { simpl. apply forallb_digits; [|exact Hall].
      intros c Hc. destruct (digit_facts c Hc) as (_ & _ & _ & -> & _). easy. }
    simpl take_sign. cbv iota beta.
    destruct (not_inf_nan ds Hne Hall) as (H1 & H2 & H3).
    simpl list_ascii_of_string in H1, H2, H3 |- *.
    rewrite H1, H2, H3. simpl orb. cbv iota.
    rewrite (parse_decimal_digits ds Hne Hall), Hval.
    replace (Z.abs n) with (- n) by lia. reflexivity.
  - apply Z.ltb_ge in E.
    destruct (nat_digits_ok n E) as (Hne & Hall & Hval).
    set (ds := nat_digits n) in *.
    unfold float_of_string.
    rewrite transform_ascii by (apply digits_are_ascii; exact Hall).
    rewrite strip_no_space; cycle 1.
    { rewrite list_ascii_of_string_of_list_ascii.
      apply forallb_digits; [|exact Hall].
      intros c Hc. destruct (digit_facts c Hc) as (_ & _ & -> & _). easy. }
    rewrite list_ascii_of_string_of_list_ascii.
    rewrite drop_underscores_none; [|reflexivity|]; cycle 1.
    { apply forallb_digits; [|exact Hall].
      intros c Hc. destruct (digit_facts c Hc) as (_ & _ & _ & -> & _). easy. }
    assert (Hs : take_sign ds = (false, ds)).
    { destruct ds as [|c ds']; [easy|]. simpl in Hall.
      apply andb_prop in Hall as [Hc _].
      destruct (digit_facts c Hc) as (_ & _ & _ & _ & Hm & Hp & _).
      simpl. now rewrite Hm, Hp. }
    rewrite Hs.
    destruct (not_inf_nan ds Hne Hall) as (H1 & H2 & H3).
    simpl list_ascii_of_string in H1, H2, H3 |- *.
    rewrite H1, H2, H3. simpl orb. cbv iota.
    rewrite (parse_decimal_digits ds Hne Hall), Hval.
    replace (Z.abs n) with n by lia. reflexivity.
Qed.

Lemma parse_decimal_pos l n d :
  parse_decimal l = Some (n, d) -> 0 <= n /\ 0 < d.
Proof.
  unfold parse_decimal.
  destruct (span_digits l) as [ip rest] eqn:E1.
  pose proof (span_digits_digits _ _ _ E1) as Hip.
  assert (Hfp : forall fp rest',
             (match rest with
              | c :: r => if Ascii.eqb c "." then span_digits r else ([], rest)
              | [] => ([], [])
              end) = (fp, rest') -> forallb PyStr.isdigit fp = true).
  { intros fp rest'. destruct rest as [|c r]; [now intros [= <- <-]|].
    destruct (Ascii.eqb c "."); [apply span_digits_digits | now intros [= <- <-]]. }
  destruct (match rest with
            | c :: r => if Ascii.eqb c "." then span_digits r else ([], rest)
            | [] => ([], [])
            end) as [fp rest'] eqn:E2.
  specialize (Hfp _ _ eq_refl).
  assert (Hds : 0 <= digits_val 0 (ip ++ fp)%list).
  { apply digits_val_nonneg; [lia|]. rewrite forallb_app. now rewrite Hip, Hfp. }
  destruct (ip ++ fp)%list as [|c ds] eqn:E3; [discriminate|].
  destruct (parse_exponent rest') as [ex|]; [|discriminate].
  destruct (0 <=? ex - Z.of_nat (List.length fp)) eqn:E4; intros [= <- <-].
  - apply Z.leb_le in E4. split; [|lia].
    apply Z.mul_nonneg_nonneg; [easy|]. apply Z.pow_nonneg. lia.
  - apply Z.leb_gt in E4. split; [easy|]. apply Z.pow_pos_nonneg; lia.
Qed.

Lemma float_finite x neg m e :
  float x = Ok (Finite neg m e) ->
  0 <= m <= 2 ^ 53 /\ e <= 971 /\ (e = 971 -> m < 2 ^ 53).
Proof.
  destruct x as [s|]; [|discriminate]. unfold float, float_of_string.
  destruct (drop_underscores _ _) as [l|]; [|discriminate].
  destruct (take_sign l) as [sg body].
  destruct (_ || _); [discriminate|].
  destruct (list_eqb _ _); [discriminate|].
  destruct (parse_decimal body) as [[n d]|] eqn:E; [|discriminate].
  intros [= H]. destruct (parse_decimal_pos _ _ _ E).
  eapply to_double_finite; eauto.
Qed.

(** The text [round_text] gives is a text it gives back. *)
Lemma round_text_idempotent x s :
  round_text x = Ok s -> round_text (Some s) = Ok s.
Proof.
  unfold round_text. intros H. bind_inv H. bind_inv H. inversion H; subst.
  rename a into f, a0 into n. simpl float. rewrite float_of_str. simpl bind.
  destruct f as [neg m e| |]; [|discriminate|discriminate].
  destruct (float_finite _ _ _ _ Ha) as (Hm & He & He').
  pose proof (round_representable m e Hm He He') as Hr. cbv zeta in Hr.
  simpl in Ha0. set (a := if 0 <=? e then m * 2 ^ e else div_rne m (2 ^ (- e))) in *.
  destruct Hr as [Hbound Hdiv]. injection Ha0 as Hn.
  destruct (Z.eq_dec a 0) as [Hz|Hz].
  { assert (E0 : n = 0) by (destruct neg; lia). rewrite E0. vm_compute. reflexivity. }
  assert (Habs : Z.abs n = a) by (destruct neg; lia).
  rewrite Habs.
  destruct (to_double_representable (n <? 0) a ltac:(lia) ltac:(lia) Hdiv)
    as (m' & e' & -> & Hval).
  simpl. rewrite Hval. do 2 f_equal.
  destruct (n <? 0) eqn:E; [apply Z.ltb_lt in E | apply Z.ltb_ge in E];
    destruct neg; lia.
Qed.

End PyNumFacts.

(* ===================================================================== *)
(** ** The frame: what an edit may touch *)

Lemma edited_refl e : forall ctx, edited ctx e e.
Proof.
  induction e as [t a x kids tl IH] using Element_rect'. intros ctx.
  constructor; [now left | now left |].
  induction IH as [|c l Hc _ IHl]; constructor; auto.
Qed.

Lemma edited_list_refl ctx l : edited_list ctx l l.
Proof. induction l; constructor; auto using edited_refl. Qed.

Lemma orb_mono (a a' b b' : bool) :
  (a = true -> a' = true) -> (b = true -> b' = true) ->
  a || b = true -> a' || b' = true.
Proof. destruct a, b, a', b'; simpl; intuition congruence. Qed.

Lemma andb_mono (a a' b b' : bool) :
  (a = true -> a' = true) -> (b = true -> b' = true) ->
  a && b = true -> a' && b' = true.
Proof. destruct a, b, a', b'; simpl; intuition congruence. Qed.

(** A place that matches a pattern of tags that no rename gives matched it
    before the renames. *)
Lemma starts_with_renamed pat ctx ctx' :
  renamed_ctx ctx ctx' ->
  forallb (fun t => negb (fresh_tag t)) pat = true ->
  starts_with pat ctx' = true -> starts_with pat ctx = true.
Proof.
  intros H. revert pat. induction H as [|t t' ctx ctx' Ht _ IH]; intros [|p pat] Hp Hs;
    simpl in *; try easy.
  apply andb_prop in Hp as [Hp1 Hp2]. apply andb_prop in Hs as [Hs1 Hs2].
  apply String.eqb_eq in Hs1. subst t'.
  destruct Ht as [-> | Hf]; [|rewrite Hf in Hp1; discriminate].
  rewrite String.eqb_refl. simpl. auto.
Qed.

Ltac ctx_mono H :=
  unfold may_remove, may_round, may_retag, in_lap_block, in_trackpoint_block;
  repeat first [apply orb_mono | apply andb_mono];
  try (intros; assumption);
  apply (starts_with_renamed _ _ _ H); vm_compute; reflexivity.

Lemma may_remove_renamed ctx ctx' t :
  renamed_ctx ctx ctx' -> may_remove ctx' t = true -> may_remove ctx t = true.
Proof. intros H. ctx_mono H. Qed.

Lemma may_round_renamed ctx ctx' t :
  renamed_ctx ctx ctx' -> may_round ctx' t = true -> may_round ctx t = true.
Proof. intros H. ctx_mono H. Qed.

Lemma may_retag_renamed ctx ctx' t t' :
  renamed_ctx ctx ctx' -> may_retag ctx' t t' = true -> may_retag ctx t t' = true.
Proof. intros H. ctx_mono H. Qed.

Lemma in_lap_block_renamed ctx ctx' :
  renamed_ctx ctx ctx' -> in_lap_block ctx' = true -> in_lap_block ctx = true.
Proof.
  intros H. unfold in_lap_block.
  apply (starts_with_renamed _ _ _ H). vm_compute. reflexivity.
Qed.

Lemma fresh_tag_cases t :
  fresh_tag t = true ->
  t = ae "LX" \/ t = ae "AvgCadence" \/ t = ae "MaxCadence" \/
  t = ae "AvgWatts" \/ t = ae "MaxWatts".
Proof.
  unfold fresh_tag, in_names. simpl. intros H.
  repeat (apply orb_prop in H as [H|H]; [apply String.eqb_eq in H; auto 6|]).
  discriminate.
Qed.

Lemma may_retag_fresh ctx t t' : may_retag ctx t t' = true -> fresh_tag t' = true.
Proof.
  unfold may_retag. intros H. apply orb_prop in H as [H|H].
  - apply andb_prop in H as [_ H]. apply String.eqb_eq in H. now subst.
  - apply andb_prop in H as [_ H].
    destruct (lookup_name _ _) as [new|] eqn:E; [|discriminate].
    apply String.eqb_eq in H. subst t'.
    revert E. unfold rename_map, lookup_name.
    repeat (destruct (String.eqb _ _); [intros [= <-]; vm_compute; reflexivity|]).
    discriminate.
Qed.

Ltac by_fresh_cases H :=
  apply fresh_tag_cases in H;
  repeat (destruct H as [-> | H]); try subst;
  repeat match goal with
         | |- context [starts_with ?p ?c] => destruct (starts_with p c)
         end;
  vm_compute; reflexivity.

Lemma fresh_not_removed ctx t : fresh_tag t = true -> may_remove ctx t = false.
Proof.
  intros H. unfold may_remove, in_lap_block, in_trackpoint_block. by_fresh_cases H.
Qed.

Lemma fresh_not_retagged ctx t t' : fresh_tag t = true -> may_retag ctx t t' = false.
Proof.
  intros H. unfold may_retag, in_lap_block.
  apply fresh_tag_cases in H.
  repeat (destruct H as [-> | H]); try subst;
    repeat match goal with
           | |- context [starts_with ?p ?c] => destruct (starts_with p c)
           end; reflexivity.
Qed.

Lemma fresh_round_in_block ctx t :
  fresh_tag t = true -> may_round ctx t = true -> in_lap_block ctx = true.
Proof.
  intros H. unfold may_round, in_trackpoint_block.
  destruct (in_lap_block ctx); [easy|].
  apply fresh_tag_cases in H.
  repeat (destruct H as [-> | H]); try subst;
    repeat match goal with
           | |- context [starts_with ?p ?c] => destruct (starts_with p c)
           end; vm_compute; easy.
Qed.

Lemma in_block_may_round ctx t : in_lap_block ctx = true -> may_round ctx t = true.
Proof. unfold may_round. intros ->. apply orb_true_r. Qed.

Lemma edited_tag ctx e e' :
  edited ctx e e' -> tag e' = tag e \/ may_retag ctx (tag e) (tag e') = true.
Proof. now destruct 1. Qed.

(** Edits after edits are edits. *)
Lemma edited_trans_mut :
  (forall ctx e1 e2, edited ctx e1 e2 ->
     forall ctx2 e3, renamed_ctx ctx ctx2 -> edited ctx2 e2 e3 -> edited ctx e1 e3) /\
  (forall ctx l1 l2, edited_list ctx l1 l2 ->
     forall ctx2 l3, renamed_ctx ctx ctx2 -> edited_list ctx2 l2 l3 ->
                     edited_list ctx l1 l3).
Proof.
  apply edited_mutind.
  - intros ctx t t' a x x' kids kids' tl Htag Htext _ IH ctx2 e3 Hctx H2.
    inversion H2 as [? ? t'' ? ? x'' ? kids'' ? Htag2 Htext2 Hkids2]; subst.
    assert (Hfresh : t' = t \/ fresh_tag t' = true).
    { destruct Htag as [->|H]; [now left | right; eapply may_retag_fresh; eauto]. }
    constructor.
    + destruct Htag as [->|Hr].
      * destruct Htag2 as [->|Hr2]; [now left|].
        right. eapply may_retag_renamed; eauto.
      * destruct Htag2 as [->|Hr2]; [now right|].
        rewrite fresh_not_retagged in Hr2 by (eapply may_retag_fresh; eauto).
        discriminate.
    + destruct Htext2 as [->|(Hr2 & s2 & Hs2 & ->)]; [exact Htext|].
      assert (Hround : may_round ctx t = true).
      { destruct Hfresh as [->|Hf].
        - eapply may_round_renamed; eauto.
        - apply in_block_may_round. eapply in_lap_block_renamed; eauto.
          eapply fresh_round_in_block; eauto. }
      destruct Htext as [->|(_ & s & Hs & ->)].
      * right. eauto.
      * right. split; [easy|]. exists s. split; [easy|].
        rewrite (PyNumFacts.round_text_idempotent _ _ Hs) in Hs2. congruence.
    + apply (IH (t' :: ctx2)); [|exact Hkids2].
      constructor; [|exact Hctx]. destruct Hfresh; auto.
  - intros ctx ctx2 l3 _ H2. inversion H2; subst. constructor.
  - intros ctx c c' l l' Hc IHc _ IHl ctx2 l3 Hctx H2.
    inversion H2; subst.
    + constructor; eauto.
    + apply edited_drop; [|eauto].
      destruct (edited_tag _ _ _ Hc) as [E|E].
      * rewrite <- E. eapply may_remove_renamed; eauto.
      * rewrite fresh_not_removed in H3 by (eapply may_retag_fresh; eauto).
        discriminate.
  - intros ctx c l l' Hrm _ IHl ctx2 l3 Hctx H2.
    apply edited_drop; eauto.
Qed.

Lemma renamed_ctx_refl ctx : renamed_ctx ctx ctx.
Proof. induction ctx; constructor; auto. Qed.

Lemma edited_trans ctx e1 e2 e3 :
  edited ctx e1 e2 -> edited ctx e2 e3 -> edited ctx e1 e3.
Proof.
  intros H1 H2.
  exact (proj1 edited_trans_mut _ _ _ H1 _ _ (renamed_ctx_refl ctx) H2).
Qed.

(** *** Each step of the cleaner is an edit *)

Lemma round_field_cases x x' :
  round_field x = Ok x' ->
  x' = x \/ exists s, PyNum.round_text (text x) = Ok s /\ x' = set_text (Some s) x.
Proof.
  unfold round_field. destruct (PyNum.round_text (text x)) as [s|[]];
    intros [= <-]; eauto.
Qed.

Lemma round_field_edited ctx x x' :
  round_field x = Ok x' -> may_round ctx (tag x) = true -> edited ctx x x'.
Proof.
  intros H Hr. destruct (round_field_cases _ _ H) as [->|(s & Hs & ->)].
  - apply edited_refl.
  - destruct x as [t a x kids tl]. simpl in *.
    constructor; [now left | right; eauto | apply edited_list_refl].
Qed.

Lemma modify_first_edited ctx P f l l' :
  ET.modify_first P f l = Ok l' ->
  (forall c c', P c = true -> f c = Ok c' -> edited ctx c c') ->
  edited_list ctx l l'.
Proof.
  intros H Hf.
  destruct (modify_first_ok _ _ _ _ H)
    as [[_ ->] | (l1 & c & c' & l2 & -> & -> & _ & Hc & Hfc)].
  - apply edited_list_refl.
  - clear H. induction l1; simpl; constructor;
      auto using edited_refl, edited_list_refl.
Qed.

Lemma remove_first_edited ctx P l :
  (forall c, P c = true -> may_remove ctx (tag c) = true) ->
  edited_list ctx l (ET.remove_first P l).
Proof.
  intros HP. induction l as [|c l IH]; simpl; [constructor|].
  destruct (P c) eqn:E.
  - apply edited_drop; [auto | apply edited_list_refl].
  - constructor; auto using edited_refl.
Qed.

Lemma set_children_edited ctx e kids' :
  edited_list (tag e :: ctx) (children e) kids' ->
  edited ctx e (set_children kids' e).
Proof. destruct e. simpl. intros H. constructor; auto. Qed.

Lemma with_child_edited ctx t f e e' :
  ET.with_child t f e = Ok e' ->
  (forall c c', tag c = t -> f c = Ok c' -> edited (tag e :: ctx) c c') ->
  edited ctx e e'.
Proof.
  unfold ET.with_child. intros H Hf. bind_inv H. inversion H; subst.
  apply set_children_edited. eapply modify_first_edited; eauto.
  intros c c' Hc. apply Hf. now apply has_tag_true.
Qed.

Lemma with_grandchild_edited ctx t1 t2 f e e' :
  ET.with_grandchild t1 t2 f e = Ok e' ->
  (forall c c', tag c = t2 -> f c = Ok c' -> edited (t1 :: tag e :: ctx) c c') ->
  edited ctx e e'.
Proof.
  unfold ET.with_grandchild. intros H Hf. bind_inv H. inversion H; subst.
  apply set_children_edited. eapply modify_first_edited; eauto.
  intros c c' Hc Hw. apply andb_prop in Hc as [Hc _]. apply has_tag_true in Hc.
  eapply with_child_edited; eauto. now rewrite Hc.
Qed.

Lemma remove_child_edited ctx t e :
  may_remove (tag e :: ctx) t = true -> edited ctx e (ET.remove_child t e).
Proof.
  intros H. apply set_children_edited. apply remove_first_edited.
  intros c Hc. apply has_tag_true in Hc. now rewrite Hc.
Qed.

Lemma lap_tpx_child_edited bctx c c' rm :
  lap_tpx_child c = Ok (c', rm) -> in_lap_block bctx = true ->
  (rm = true /\ may_remove bctx (tag c) = true) \/
  (rm = false /\ edited bctx c c').
Proof.
  intros H Hb. unfold lap_tpx_child in H.
  destruct (in_names (child_tag c) to_remove_names) eqn:Hrm.
  - bind_inv H. inversion H; subst. left. split; [easy|].
    unfold may_remove. rewrite Hb. unfold child_tag in Hrm. rewrite Hrm.
    simpl. apply orb_true_iff. left. apply orb_true_r.
  - right.
    assert (Hround : forall y y', (if truthy (text y) then round_field y else Ok y) = Ok y' ->
                       tag y' = tag y /\ attrib y' = attrib y /\ tail y' = tail y /\
                       children y' = children y /\
                       (text y' = text y \/
                        exists s, PyNum.round_text (text y) = Ok s /\ text y' = Some s)).
    { intros y y' Hy. destruct (truthy (text y)); [|inversion Hy; subst; auto 6].
      destruct (round_field_cases _ _ Hy) as [->|(s & Hs & ->)]; [auto 6|].
      destruct y; simpl; repeat split; eauto. }
    destruct (lookup_name (child_tag c) rename_map) as [new|] eqn:Hnew;
      bind_inv H; inversion H; subst; split; try easy;
      destruct (Hround _ _ Ha) as (Ht & Hat & Htl & Hk & Hx);
      destruct c as [t a0 x kids tl], c' as [t' a' x' kids' tl'];
      unfold child_tag in *;
      cbn [tag attrib tail children text set_tag] in *; subst.
    + constructor.
      * right. unfold may_retag. rewrite Hb.
        rewrite Hnew, String.eqb_refl. apply orb_true_r.
      * destruct Hx as [->|(s & Hs & ->)]; [now left|].
        right. split; [now apply in_block_may_round | eauto].
      * apply edited_list_refl.
    + constructor.
      * now left.
      * destruct Hx as [->|(s & Hs & ->)]; [now left|].
        right. split; [now apply in_block_may_round | eauto].
      * apply edited_list_refl.
Qed.

Lemma lap_tpx_children_edited bctx kids marked :
  mapM lap_tpx_child kids = Ok marked -> in_lap_block bctx = true ->
  edited_list bctx kids (List.map fst (List.filter (fun p => negb (snd p)) marked)).
Proof.
  revert marked. induction kids as [|c kids IH]; simpl; intros marked H Hb.
  - inversion H; subst. constructor.
  - bind_inv H. bind_inv H. inversion H; subst. destruct a as [c' rm].
    destruct (lap_tpx_child_edited bctx _ _ _ Ha Hb) as [[-> Hrm] | [-> He]]; simpl.
    + apply edited_drop; auto.
    + constructor; auto.
Qed.

Lemma lap_tpx_edited ctx tpx lx :
  lap_tpx tpx = Ok lx -> tag tpx = ae "TPX" ->
  starts_with [tcx "Extensions"; tcx "Lap"] ctx = true ->
  edited ctx tpx lx.
Proof.
  intros H Ht Hctx. unfold lap_tpx in H. bind_inv H. inversion H; subst.
  destruct tpx as [t a0 x kids tl].
  cbn [tag children set_tag set_children] in *. subst t.
  constructor.
  - right. unfold may_retag. rewrite Hctx. reflexivity.
  - now left.
  - apply lap_tpx_children_edited; [easy|].
    unfold in_lap_block. cbn [starts_with]. rewrite String.eqb_refl. exact Hctx.
Qed.

Ltac tag_is H :=
  match type of H with
  | tag ?e = _ => destruct e; simpl in H; subst
  end.

(** The body of the lap loop edits the lap as documented. *)
Lemma process_lap_edited ctx lap lap' :
  process_lap lap = Ok lap' -> tag lap = tcx "Lap" -> edited ctx lap lap'.
Proof.
  intros H Ht. unfold process_lap in H.
  bind_inv H. rename a into lap2, Ha into H2.
  bind_inv H. rename a into lap3, Ha into H3.
  bind_inv H. rename a into lap4, Ha into H4.
  assert (T1 : tag (ET.remove_child (tcx "Cadence") lap) = tcx "Lap")
    by (unfold ET.remove_child; now rewrite tag_set_children).
  assert (T2 : tag lap2 = tcx "Lap") by (now rewrite (with_child_tag _ _ _ _ H2)).
  assert (T3 : tag lap3 = tcx "Lap") by (now rewrite (with_grandchild_tag _ _ _ _ _ H3)).
  assert (T4 : tag lap4 = tcx "Lap") by (now rewrite (with_grandchild_tag _ _ _ _ _ H4)).
  eapply edited_trans;
    [apply (remove_child_edited ctx (tcx "Cadence")); rewrite Ht; vm_compute; reflexivity|].
  eapply edited_trans.
  { eapply with_child_edited; [exact H2|]. intros c c' Hc Hr. rewrite T1.
    apply round_field_edited; [easy|]. rewrite Hc. (vm_compute; reflexivity). }
  eapply edited_trans.
  { eapply with_grandchild_edited; [exact H3|]. intros c c' Hc Hr. rewrite T2.
    apply round_field_edited; [easy|]. rewrite Hc. (vm_compute; reflexivity). }
  eapply edited_trans.
  { eapply with_grandchild_edited; [exact H4|]. intros c c' Hc Hr. rewrite T3.
    apply round_field_edited; [easy|]. rewrite Hc. (vm_compute; reflexivity). }
  eapply with_child_edited; [exact H|]. intros ext ext' Hext Hw. rewrite T4.
  eapply with_child_edited; [exact Hw|]. intros tpx lx Htpx Hl. rewrite Hext.
  apply lap_tpx_edited; auto.
Qed.

(** The body of the trackpoint loop edits the trackpoint as documented. *)
Lemma process_trackpoint_edited ctx tp tp' :
  process_trackpoint tp = Ok tp' -> tag tp = tcx "Trackpoint" -> edited ctx tp tp'.
Proof.
  intros H Ht. unfold process_trackpoint in H.
  bind_inv H. rename a into tp2, Ha into H2.
  bind_inv H. rename a into tp3, Ha into H3.
  assert (T2 : tag tp2 = tcx "Trackpoint")
    by (now rewrite (with_grandchild_tag _ _ _ _ _ H2)).
  assert (T3 : tag tp3 = tcx "Trackpoint") by (now rewrite (with_child_tag _ _ _ _ H3)).
  eapply edited_trans.
  { eapply with_grandchild_edited; [exact H2|]. intros c c' Hc Hr. rewrite Ht.
    apply round_field_edited; [easy|]. rewrite Hc. (vm_compute; reflexivity). }
  eapply edited_trans.
  { eapply with_child_edited; [exact H3|]. intros c c' Hc Hr. rewrite T2.
    apply round_field_edited; [easy|]. rewrite Hc. (vm_compute; reflexivity). }
  eapply with_child_edited; [exact H|]. intros ext ext' Hext Hw. rewrite T3.
  eapply with_child_edited; [exact Hw|]. intros tpx tpx' Htpx Hl. rewrite Hext.
  unfold trackpoint_tpx in Hl.
  eapply edited_trans.
  { apply (remove_child_edited _ (ae "Resistance")). rewrite Htpx.
    vm_compute; reflexivity. }
  eapply with_child_edited; [exact Hl|]. intros c c' Hc Hr.
  unfold ET.remove_child. rewrite tag_set_children, Htpx.
  apply round_field_edited; [easy|]. rewrite Hc. (vm_compute; reflexivity).
Qed.

(** *** The loops *)

Lemma visit_eq t f tg a x kids tl :
  ET.visit t f (Elem tg a x kids tl)
  = let* kids' := mapM (ET.visit t f) kids in
    if String.eqb tg t then f (Elem tg a x kids' tl) else Ok (Elem tg a x kids' tl).
Proof.
  simpl. f_equal. induction kids as [|c kids IH]; simpl; [easy|]. now rewrite IH.
Qed.

Lemma modify_first_desc_eq t f tg a x kids tl :
  ET.modify_first_desc t f (Elem tg a x kids tl)
  = option_map (fun k => Elem tg a x k tl) (modify_first_desc_list t f kids).
Proof. reflexivity. Qed.

Lemma mapM_edited ctx (g : Element -> result Element) l l' :
  Forall (fun c => forall c', g c = Ok c' -> edited ctx c c') l ->
  mapM g l = Ok l' -> edited_list ctx l l'.
Proof.
  intros HF. revert l'. induction HF as [|c l Hc _ IH]; simpl; intros l' H.
  - inversion H; subst. constructor.
  - bind_inv H. bind_inv H. inversion H; subst. constructor; auto.
Qed.

Lemma visit_edited t f :
  (forall ctx e e', tag e = t -> f e = Ok e' -> edited ctx e e') ->
  forall e ctx e', ET.visit t f e = Ok e' -> edited ctx e e'.
Proof.
  intros Hf e. induction e as [tg a x kids tl IH] using Element_rect'.
  intros ctx e' H. rewrite visit_eq in H. bind_inv H. rename a0 into kids'.
  assert (Hk : edited ctx (Elem tg a x kids tl) (Elem tg a x kids' tl)).
  { constructor; [now left | now left |].
    eapply mapM_edited; [|exact Ha]. eapply List.Forall_impl; [|exact IH].
    intros c Hc c'. apply Hc. }
  destruct (String.eqb tg t) eqn:E.
  - apply String.eqb_eq in E. eapply edited_trans; [exact Hk|].
    apply Hf; auto.
  - now inversion H; subst.
Qed.

(** A loop that ends without an exception leaves the tree [visit] builds. *)
Lemma for_each_desc_ok t f root out :
  ET.for_each_desc t f root = Ok out ->
  exists kids, mapM (ET.visit t f) (children root) = Ok kids /\
               out = set_children kids root.
Proof.
  unfold ET.for_each_desc. intros H. bind_inv H. bind_inv H.
  injection H as <-. eauto.
Qed.

Lemma for_each_desc_edited t f root out :
  (forall ctx e e', tag e = t -> f e = Ok e' -> edited ctx e e') ->
  ET.for_each_desc t f root = Ok out -> edited [] root out.
Proof.
  intros Hf H. apply for_each_desc_ok in H as (kids & Ha & ->).
  apply set_children_edited. eapply mapM_edited; [|exact Ha].
  apply Forall_forall. intros c _ c'. now apply visit_edited.
Qed.

Lemma modify_first_desc_edited t f :
  (forall ctx c, tag c = t -> edited ctx c (f c)) ->
  forall e ctx e', ET.modify_first_desc t f e = Some e' -> edited ctx e e'.
Proof.
  intros Hf e. induction e as [tg a x kids tl IH] using Element_rect'.
  intros ctx e'. rewrite modify_first_desc_eq.
  destruct (modify_first_desc_list t f kids) as [kids'|] eqn:E; [|discriminate].
  intros [= <-]. constructor; [now left | now left |].
  revert kids' E. induction IH as [|c l Hc _ IHl]; simpl; intros kids' E; [discriminate|].
  destruct (has_tag t c) eqn:Et.
  - inversion E; subst. apply has_tag_true in Et.
    constructor; [now apply Hf | apply edited_list_refl].
  - destruct (ET.modify_first_desc t f c) as [c'|] eqn:Ec.
    + inversion E; subst. constructor; [now apply Hc | apply edited_list_refl].
    + fold (modify_first_desc_list t f l) in E.
      destruct (modify_first_desc_list t f l) as [l'|]; [|discriminate].
      inversion E; subst. constructor; [apply edited_refl | now apply IHl].
Qed.

Lemma remove_creator_edited root : edited [] root (remove_creator root).
Proof.
  unfold remove_creator, ET.with_first_desc.
  destruct (ET.modify_first_desc _ _ root) as [r|] eqn:E; [|apply edited_refl].
  eapply modify_first_desc_edited; [|exact E].
  intros ctx c Hc. apply remove_child_edited. rewrite Hc. (vm_compute; reflexivity).
Qed.

(** The whole pass over the tree is made of documented edits. *)
Lemma clean_tree_edited root out : clean_tree root = Ok out -> edited [] root out.
Proof.
  unfold clean_tree. intros H. bind_inv H.
  eapply edited_trans; [apply remove_creator_edited|].
  eapply edited_trans.
  - eapply for_each_desc_edited; [|exact Ha].
    intros. now apply process_lap_edited.
  - eapply for_each_desc_edited; [|exact H].
    intros. now apply process_trackpoint_edited.
Qed.

(* ===================================================================== *)
(** * Further properties of the cleaner *)

(** ** The frame of the whole pass *)

Lemma edited_root root out :
  edited [] root out ->
  tag out = tag root /\ attrib out = attrib root /\
  text out = text root /\ tail out = tail root.
Proof.
  intros H. inversion H as [? t t' a x x' kids kids' tl Htag Htext _]; subst.
  simpl. repeat split.
  - destruct Htag as [->|Hr]; [easy | discriminate].
  - destruct Htext as [->|[Hr _]]; [easy | discriminate].
Qed.

(** X1: what the edits of lines 58-158 give is the input tree after documented
    edits only: attributes and tails are kept everywhere, a tag or a text
    changes only at a documented place, children disappear only at a
    documented place and the others keep their order; the root element keeps
    its tag, attributes, text and tail. *)
Theorem cleaning_edits_documented_places_only (root out : Element) :
  clean_tree root = Ok out ->
  edited [] root out /\
  tag out = tag root /\ attrib out = attrib root /\
  text out = text root /\ tail out = tail root.
Proof.
  intros H. pose proof (clean_tree_edited _ _ H) as He.
  split; [exact He | now apply edited_root].
Qed.

Lemma cleaning_edits_documented_places_only_witness :
  edited [] sample_ride sample_ride_cleaned /\
  tag sample_ride_cleaned = tag sample_ride /\
  attrib sample_ride_cleaned = attrib sample_ride /\
  text sample_ride_cleaned = text sample_ride /\
  tail sample_ride_cleaned = tail sample_ride.
Proof.
  apply (cleaning_edits_documented_places_only sample_ride sample_ride_cleaned).
  vm_compute. reflexivity.
Defined.

(** ** Rounding twice *)

Lemma round_field_idem x x' : round_field x = Ok x' -> round_field x' = Ok x'.
Proof.
  intros H. destruct (round_field_cases _ _ H) as [->|(s & Hs & ->)]; [easy|].
  unfold round_field. destruct x as [t a x kids tl]. simpl.
  now rewrite (PyNumFacts.round_text_idempotent _ _ Hs).
Qed.

(** X2: a field that [round_field] has handled is left as it is by a second
    [round_field]: the integer text that [str(int(round(float(t))))] writes
    is read back by [float] as the same integer. *)
Theorem rounded_field_is_stable (x x' : Element) :
  round_field x = Ok x' -> round_field x' = Ok x'.
Proof. apply round_field_idem. Qed.

Lemma rounded_field_is_stable_witness :
  round_field (el (tcx "Calories") (Some "186") [])
  = Ok (el (tcx "Calories") (Some "186") []).
Proof.
  apply (rounded_field_is_stable (el (tcx "Calories") (Some "185.6") [])
           (el (tcx "Calories") (Some "186") [])).
  vm_compute. reflexivity.
Defined.

(** ** The exceptions of the edits *)

Lemma bind_uncaught {A B : Type} (r : result A) (k : A -> result B) :
  raises_uncaught_only r -> (forall a, raises_uncaught_only (k a)) ->
  raises_uncaught_only (bind r k).
Proof.
  intros Hr Hk e. destruct r as [a|e']; simpl.
  - apply Hk.
  - intros [= ->]. now apply Hr.
Qed.

Lemma ok_uncaught {A : Type} (a : A) : raises_uncaught_only (Ok a).
Proof. intros e. discriminate. Qed.

Lemma float_raises x e :
  PyNum.float x = Raise e -> e = TypeError \/ exists msg, e = ValueError msg.
Proof.
  destruct x as [s|]; simpl; [|intros [= <-]; now left].
  unfold PyNum.float_of_string.
  destruct (PyNum.drop_underscores _ _); [|intros [= <-]; eauto].
  destruct (PyNum.take_sign _). destruct (_ || _); [discriminate|].
  destruct (PyNum.list_eqb _ _); [discriminate|].
  destruct (PyNum.parse_decimal _) as [[]|]; [discriminate | intros [= <-]; eauto].
Qed.

Lemma round_field_uncaught x : raises_uncaught_only (round_field x).
Proof.
  intros e. unfold round_field, PyNum.round_text.
  destruct (PyNum.float (text x)) as [f|e1] eqn:Ef; simpl.
  - destruct f as [neg m ex|neg|]; simpl; try discriminate.
    intros [= <-]. now right.
  - destruct (float_raises _ _ Ef) as [->|[msg ->]]; [|discriminate].
    intros [= <-]. now left.
Qed.

Lemma modify_first_uncaught P f l :
  (forall c, raises_uncaught_only (f c)) ->
  raises_uncaught_only (ET.modify_first P f l).
Proof.
  intros Hf. induction l as [|c l IH]; simpl; [apply ok_uncaught|].
  destruct (P c); apply bind_uncaught; auto; intros; apply ok_uncaught.
Qed.

Lemma with_child_uncaught t f e :
  (forall c, raises_uncaught_only (f c)) ->
  raises_uncaught_only (ET.with_child t f e).
Proof.
  intros Hf. unfold ET.with_child. apply bind_uncaught.
  - now apply modify_first_uncaught.
  - intros; apply ok_uncaught.
Qed.

Lemma with_grandchild_uncaught t1 t2 f e :
  (forall c, raises_uncaught_only (f c)) ->
  raises_uncaught_only (ET.with_grandchild t1 t2 f e).
Proof.
  intros Hf. unfold ET.with_grandchild. apply bind_uncaught.
  - apply modify_first_uncaught. intros c. now apply with_child_uncaught.
  - intros; apply ok_uncaught.
Qed.

Lemma mapM_uncaught {A B : Type} (g : A -> result B) l :
  (forall c, In c l -> raises_uncaught_only (g c)) ->
  raises_uncaught_only (mapM g l).
Proof.
  induction l as [|c l IH]; simpl; intros Hg; [apply ok_uncaught|].
  apply bind_uncaught; [apply Hg; now left|]. intros b.
  apply bind_uncaught; [apply IH; intros; apply Hg; now right|].
  intros; apply ok_uncaught.
Qed.

Lemma lap_tpx_uncaught tpx : raises_uncaught_only (lap_tpx tpx).
Proof.
  unfold lap_tpx. apply bind_uncaught; [|intros; apply ok_uncaught].
  apply mapM_uncaught. intros c _. unfold lap_tpx_child.
  destruct (if in_names _ _ then _ else _) as [c1 rm].
  apply bind_uncaught; [|intros; apply ok_uncaught].
  destruct (truthy _); [apply round_field_uncaught | apply ok_uncaught].
Qed.

Lemma process_lap_uncaught lap : raises_uncaught_only (process_lap lap).
Proof.
  unfold process_lap.
  apply bind_uncaught; [apply with_child_uncaught, round_field_uncaught|intros l1].
  apply bind_uncaught; [apply with_grandchild_uncaught, round_field_uncaught|intros l2].
  apply bind_uncaught; [apply with_grandchild_uncaught, round_field_uncaught|intros l3].
  apply with_child_uncaught. intros ext.
  apply with_child_uncaught, lap_tpx_uncaught.
Qed.

Lemma process_trackpoint_uncaught tp : raises_uncaught_only (process_trackpoint tp).
Proof.
  unfold process_trackpoint, trackpoint_tpx.
  apply bind_uncaught; [apply with_grandchild_uncaught, round_field_uncaught|intros t1].
  apply bind_uncaught; [apply with_child_uncaught, round_field_uncaught|intros t2].
  apply with_child_uncaught. intros ext. apply with_child_uncaught. intros tpx.
  apply with_child_uncaught, round_field_uncaught.
Qed.

Lemma visit_uncaught t f :
  (forall e, raises_uncaught_only (f e)) ->
  forall e, raises_uncaught_only (ET.visit t f e).
Proof.
  intros Hf e. induction e as [tg a x kids tl IH] using Element_rect'.
  rewrite visit_eq. apply bind_uncaught.
  - apply mapM_uncaught. intros c Hc.
    rewrite List.Forall_forall in IH. now apply IH.
  - intros kids'. destruct (String.eqb tg t); [apply Hf | apply ok_uncaught].
Qed.

Lemma for_each_desc_uncaught t f root :
  (forall e, raises_uncaught_only (f e)) ->
  raises_uncaught_only (ET.for_each_desc t f root).
Proof.
  intros Hf. unfold ET.for_each_desc. apply bind_uncaught.
  - apply mapM_uncaught. intros c _. apply Hf.
  - intros _. apply bind_uncaught.
    + apply mapM_uncaught. intros c _. now apply visit_uncaught.
    + intros; apply ok_uncaught.
Qed.

Lemma clean_tree_uncaught root : raises_uncaught_only (clean_tree root).
Proof.
  unfold clean_tree. apply bind_uncaught.
  - apply for_each_desc_uncaught, process_lap_uncaught.
  - intros r. apply for_each_desc_uncaught, process_trackpoint_uncaught.
Qed.

(** X3: the edits of the tree raise nothing but TypeError (a field without
    text) and OverflowError (a field that reads as an infinity): every
    ValueError of a conversion is caught where it is raised. *)
Theorem cleaning_raises_type_or_overflow_error_only (root : Element) (e : exn) :
  clean_tree root = Raise e -> e = TypeError \/ e = OverflowError.
Proof. apply clean_tree_uncaught. Qed.

Lemma cleaning_raises_type_or_overflow_error_only_witness :
  TypeError = TypeError \/ TypeError = OverflowError.
Proof.
  apply (cleaning_raises_type_or_overflow_error_only doc_empty_calories TypeError).
  vm_compute. reflexivity.
Defined.

(** ** The lap's own fields *)

Lemma filter_remove_first t l :
  List.filter (has_tag t) (ET.remove_first (has_tag t) l)
  = List.tl (List.filter (has_tag t) l).
Proof.
  induction l as [|c l IH]; simpl; [easy|].
  destruct (has_tag t c) eqn:E; simpl; [easy|]. now rewrite E.
Qed.

Lemma filter_modify_first_other P f Q l l' :
  ET.modify_first P f l = Ok l' ->
  (forall c c', P c = true -> f c = Ok c' -> Q c = false /\ Q c' = false) ->
  List.filter Q l' = List.filter Q l.
Proof.
  intros H Hf.
  destruct (modify_first_ok _ _ _ _ H)
    as [[_ ->] | (l1 & c & c' & l2 & -> & -> & _ & Hc & Hfc)]; [easy|].
  rewrite !List.filter_app. simpl.
  destruct (Hf _ _ Hc Hfc) as [-> ->]. reflexivity.
Qed.

Lemma has_tag_neq t t' c : has_tag t c = true -> t <> t' -> has_tag t' c = false.
Proof.
  intros H Hne. apply has_tag_true in H. apply has_tag_false. congruence.
Qed.

Lemma filter_with_child_other t t' f e e' :
  ET.with_child t f e = Ok e' -> t <> t' ->
  (forall c c', f c = Ok c' -> tag c' = tag c) ->
  List.filter (has_tag t') (children e') = List.filter (has_tag t') (children e).
Proof.
  unfold ET.with_child. intros H Hne Hf. bind_inv H. inversion H.
  rewrite children_set_children. eapply filter_modify_first_other; eauto.
  intros c c' Hc Hfc. split; [now apply (has_tag_neq t)|].
  apply has_tag_false. rewrite (Hf _ _ Hfc). apply has_tag_true in Hc. congruence.
Qed.

Lemma filter_with_grandchild_other t1 t2 t' f e e' :
  ET.with_grandchild t1 t2 f e = Ok e' -> t1 <> t' ->
  List.filter (has_tag t') (children e') = List.filter (has_tag t') (children e).
Proof.
  unfold ET.with_grandchild. intros H Hne. bind_inv H. inversion H.
  rewrite children_set_children. eapply filter_modify_first_other; eauto.
  intros c c' Hc Hfc. apply andb_prop in Hc as [Hc _].
  split; [now apply (has_tag_neq t1)|].
  apply has_tag_false. rewrite (with_child_tag _ _ _ _ Hfc).
  apply has_tag_true in Hc. congruence.
Qed.

Lemma process_lap_cadence lap lap' :
  process_lap lap = Ok lap' ->
  List.filter (has_tag (tcx "Cadence")) (children lap')
  = List.tl (List.filter (has_tag (tcx "Cadence")) (children lap)).
Proof.
  intros H. unfold process_lap in H.
  bind_inv H. rename a into lap2, Ha into H2.
  bind_inv H. rename a into lap3, Ha into H3.
  bind_inv H. rename a into lap4, Ha into H4.
  rewrite (filter_with_child_other _ _ _ _ _ H);
    [|apply tcx_neq; discriminate | intros c c'; apply with_child_tag].
  rewrite (filter_with_grandchild_other _ _ _ _ _ _ H4) by (apply tcx_neq; discriminate).
  rewrite (filter_with_grandchild_other _ _ _ _ _ _ H3) by (apply tcx_neq; discriminate).
  rewrite (filter_with_child_other _ _ _ _ _ H2);
    [|apply tcx_neq; discriminate | intros c c'; apply round_field_tag].
  unfold ET.remove_child. rewrite children_set_children.
  apply filter_remove_first.
Qed.

(** X6: a lap loses its first Cadence child and no other: the Cadence
    children of the processed lap are those of the lap after the first, in
    their order and as they were. *)
Theorem lap_loses_its_first_cadence_only (lap lap' : Element) :
  process_lap lap = Ok lap' ->
  List.filter (has_tag (tcx "Cadence")) (children lap')
  = List.tl (List.filter (has_tag (tcx "Cadence")) (children lap)).
Proof. apply process_lap_cadence. Qed.

Lemma lap_loses_its_first_cadence_only_witness :
  List.filter (has_tag (tcx "Cadence"))
    (children
       (el (tcx "Lap") None
          [el (tcx "AverageHeartRateBpm") None [];
           el (tcx "AverageHeartRateBpm") None [el (tcx "Value") (Some "132") []];
           el (tcx "MaximumHeartRateBpm") None [el (tcx "Value") (Some "162") []];
           el (tcx "Cadence") (Some "81") []]))
  = List.tl (List.filter (has_tag (tcx "Cadence")) (children lap_with_summary)).
Proof.
  apply (lap_loses_its_first_cadence_only lap_with_summary).
  vm_compute. reflexivity.
Defined.

(** ** Fields found by a path *)

Lemma findP_modify_first_same (P : Element -> bool) f l l' c :
  ET.modify_first P f l = Ok l' ->
  List.find P l = Some c ->
  (forall c', f c = Ok c' -> P c' = true) ->
  exists c', f c = Ok c' /\ List.find P l' = Some c'.
Proof.
  revert l'. induction l as [|c0 l IH]; simpl; intros l' H Hfind Hf; [discriminate|].
  destruct (P c0) eqn:E.
  - injection Hfind as ->. bind_inv H. inversion H; subst.
    exists a. split; [easy|]. simpl. now rewrite (Hf _ Ha).
  - bind_inv H. inversion H; subst.
    destruct (IH _ Ha Hfind Hf) as (c' & Hc' & Hfind').
    exists c'. split; [easy|]. simpl. now rewrite E.
Qed.

Lemma findQ_modify_first_other (P Q : Element -> bool) f l l' :
  ET.modify_first P f l = Ok l' ->
  (forall c c', P c = true -> f c = Ok c' -> Q c = false /\ Q c' = false) ->
  List.find Q l' = List.find Q l.
Proof.
  intros H Hf.
  destruct (modify_first_ok _ _ _ _ H)
    as [[_ ->] | (l1 & c & c' & l2 & -> & -> & _ & Hc & Hfc)]; [easy|].
  destruct (Hf _ _ Hc Hfc) as [E E']. clear H.
  induction l1 as [|d l1 IH]; simpl.
  - now rewrite E, E'.
  - destruct (Q d); [easy | apply IH].
Qed.

Lemma findQ_remove_first_other (P Q : Element -> bool) l :
  (forall c, P c = true -> Q c = false) ->
  List.find Q (ET.remove_first P l) = List.find Q l.
Proof.
  intros HP. induction l as [|c l IH]; simpl; [easy|].
  destruct (P c) eqn:E.
  - now rewrite (HP _ E).
  - simpl. now rewrite IH.
Qed.

Lemma find_existsb t l c : List.find (has_tag t) l = Some c -> existsb (has_tag t) l = true.
Proof.
  intros H. apply List.find_some in H as [Hin Hc].
  apply List.existsb_exists. eauto.
Qed.

Lemma find_path_with_grandchild_same t1 t2 f e e' v :
  ET.with_grandchild t1 t2 f e = Ok e' ->
  ET.find_path t1 t2 e = Some v ->
  (forall v', f v = Ok v' -> tag v' = tag v) ->
  exists v', f v = Ok v' /\ ET.find_path t1 t2 e' = Some v'.
Proof.
  unfold ET.with_grandchild, ET.find_path. intros H Hv Hf.
  bind_inv H. inversion H. rewrite children_set_children.
  destruct (List.find _ (children e)) as [c|] eqn:Hc; [|discriminate].
  assert (Htv : tag v = t2).
  { apply List.find_some in Hv as [_ Hv]. now apply has_tag_true. }
  assert (Hstep : forall c', ET.with_child t2 f c = Ok c' ->
            exists v', f v = Ok v' /\ ET.find t2 c' = Some v').
  { intros c' Hc'. eapply find_with_child_same; eauto.
    intros v' Hv'. now rewrite (Hf _ Hv'). }
  destruct (findP_modify_first_same _ _ _ _ _ Ha Hc) as (c' & Hc' & Hfind).
  - intros c' Hc'. apply andb_true_intro. split.
    + apply has_tag_true. rewrite (with_child_tag _ _ _ _ Hc').
      apply List.find_some in Hc as [_ Hc]. apply andb_prop in Hc as [Hc _].
      now apply has_tag_true.
    + destruct (Hstep _ Hc') as (v' & _ & Hv'). eapply find_existsb; eauto.
  - rewrite Hfind. now apply Hstep.
Qed.

Lemma find_path_modify_other (P : Element -> bool) f t1 t2 e l' :
  ET.modify_first P f (children e) = Ok l' ->
  (forall c, P c = true -> tag c <> t1) ->
  (forall c c', P c = true -> f c = Ok c' -> tag c' = tag c) ->
  ET.find_path t1 t2 (set_children l' e) = ET.find_path t1 t2 e.
Proof.
  intros H HP Hf. unfold ET.find_path. rewrite children_set_children.
  erewrite findQ_modify_first_other; eauto.
  intros c c' Hc Hfc. split; apply andb_false_intro1, has_tag_false.
  - now apply HP.
  - rewrite (Hf _ _ Hc Hfc). now apply HP.
Qed.

Lemma find_path_with_child_other t t1 t2 f e e' :
  ET.with_child t f e = Ok e' -> t <> t1 ->
  (forall c c', f c = Ok c' -> tag c' = tag c) ->
  ET.find_path t1 t2 e' = ET.find_path t1 t2 e.
Proof.
  unfold ET.with_child. intros H Hne Hf. bind_inv H. inversion H.
  eapply find_path_modify_other; eauto.
  intros c Hc. apply has_tag_true in Hc. congruence.
Qed.

Lemma find_path_with_grandchild_other t t' t1 t2 f e e' :
  ET.with_grandchild t t' f e = Ok e' -> t <> t1 ->
  ET.find_path t1 t2 e' = ET.find_path t1 t2 e.
Proof.
  unfold ET.with_grandchild. intros H Hne. bind_inv H. inversion H.
  eapply find_path_modify_other; eauto.
  - intros c Hc. apply andb_prop in Hc as [Hc _]. apply has_tag_true in Hc. congruence.
  - intros c c' _. apply with_child_tag.
Qed.

Lemma find_path_remove_child_other t t1 t2 e :
  t <> t1 -> ET.find_path t1 t2 (ET.remove_child t e) = ET.find_path t1 t2 e.
Proof.
  intros Hne. unfold ET.find_path, ET.remove_child. rewrite children_set_children.
  rewrite findQ_remove_first_other; [easy|].
  intros c Hc. apply andb_false_intro1. now apply (has_tag_neq t).
Qed.

(** The heart rate values of a lap go through the rounding step where
    [find] finds them. *)
Lemma process_lap_heart_rate (lap lap' : Element) (name : string)
    (v : Element) :
  process_lap lap = Ok lap' ->
  name = "AverageHeartRateBpm" \/ name = "MaximumHeartRateBpm" ->
  ET.find_path (tcx name) (tcx "Value") lap = Some v ->
  exists v', round_field v = Ok v' /\
             ET.find_path (tcx name) (tcx "Value") lap' = Some v'.
Proof.
  intros H Hname Hv. unfold process_lap in H.
  bind_inv H. rename a into lap2, Ha into H2.
  bind_inv H. rename a into lap3, Ha into H3.
  bind_inv H. rename a into lap4, Ha into H4.
  assert (Hext : ET.find_path (tcx name) (tcx "Value") lap'
                 = ET.find_path (tcx name) (tcx "Value") lap4).
  { eapply find_path_with_child_other; eauto.
    - destruct Hname as [-> | ->]; apply tcx_neq; discriminate.
    - intros c c'. apply with_child_tag. }
  assert (H0 : ET.find_path (tcx name) (tcx "Value") lap2 = Some v).
  { rewrite (find_path_with_child_other _ _ _ _ _ _ H2).
    - rewrite find_path_remove_child_other; [easy|].
      destruct Hname as [-> | ->]; apply tcx_neq; discriminate.
    - destruct Hname as [-> | ->]; apply tcx_neq; discriminate.
    - intros c c'. apply round_field_tag. }
  rewrite Hext. destruct Hname as [-> | ->].
  - destruct (find_path_with_grandchild_same _ _ _ _ _ _ H3 H0)
      as (v' & Hv' & Hfind); [intros ?; apply round_field_tag|].
    exists v'. split; [easy|].
    rewrite (find_path_with_grandchild_other _ _ _ _ _ _ _ H4); [easy|].
    apply tcx_neq; discriminate.
  - rewrite <- (find_path_with_grandchild_other _ _ _ _ _ _ _ H3) in H0
      by (apply tcx_neq; discriminate).
    apply (find_path_with_grandchild_same _ _ _ _ _ _ H4 H0).
    intros ?; apply round_field_tag.
Qed.

(** X7: the lap's heart rate values are rounded where [find] finds them: the
    element that the path AverageHeartRateBpm/Value (likewise
    MaximumHeartRateBpm/Value) reaches in the lap goes through the rounding
    step, and is what the same path reaches in the processed lap. *)
Theorem lap_heart_rate_values_are_rounded (lap lap' : Element) (name : string)
    (v : Element) :
  process_lap lap = Ok lap' ->
  name = "AverageHeartRateBpm" \/ name = "MaximumHeartRateBpm" ->
  ET.find_path (tcx name) (tcx "Value") lap = Some v ->
  exists v', round_field v = Ok v' /\
             ET.find_path (tcx name) (tcx "Value") lap' = Some v'.
Proof. exact (process_lap_heart_rate lap lap' name v). Qed.

Lemma lap_heart_rate_values_are_rounded_witness :
  exists v', round_field (el (tcx "Value") (Some "131.5") []) = Ok v' /\
             ET.find_path (tcx "AverageHeartRateBpm") (tcx "Value")
               lap_with_summary_processed = Some v'.
Proof.
  apply (lap_heart_rate_values_are_rounded lap_with_summary
           lap_with_summary_processed "AverageHeartRateBpm").
  - vm_compute. reflexivity.
  - left. reflexivity.
  - vm_compute. reflexivity.
Defined.

(** ** The trackpoint's fields *)

(** The three fields of a trackpoint go through the rounding step where
    they are found. *)
Lemma process_trackpoint_fields (tp tp' : Element) :
  process_trackpoint tp = Ok tp' ->
  (forall v, ET.find_path (tcx "HeartRateBpm") (tcx "Value") tp = Some v ->
     exists v', round_field v = Ok v' /\
                ET.find_path (tcx "HeartRateBpm") (tcx "Value") tp' = Some v') /\
  (forall c, ET.find (tcx "Cadence") tp = Some c ->
     exists c', round_field c = Ok c' /\ ET.find (tcx "Cadence") tp' = Some c') /\
  (forall ext tpx w,
     ET.find (tcx "Extensions") tp = Some ext ->
     ET.find (ae "TPX") ext = Some tpx ->
     ET.find (ae "Watts") tpx = Some w ->
     exists ext' tpx' w',
       ET.find (tcx "Extensions") tp' = Some ext' /\
       ET.find (ae "TPX") ext' = Some tpx' /\
       round_field w = Ok w' /\ ET.find (ae "Watts") tpx' = Some w').
Proof.
  intros H. split; [|split].
  - intros v Hv. unfold process_trackpoint in H.
    bind_inv H. rename a into tp2, Ha into H2.
    bind_inv H. rename a into tp3, Ha into H3.
    destruct (find_path_with_grandchild_same _ _ _ _ _ _ H2 Hv)
      as (v' & Hv' & Hfind); [intros ?; apply round_field_tag|].
    exists v'. split; [easy|].
    rewrite (find_path_with_child_other _ _ _ _ _ _ H);
      [|apply tcx_neq; discriminate | intros c c'; apply with_child_tag].
    rewrite (find_path_with_child_other _ _ _ _ _ _ H3);
      [easy | apply tcx_neq; discriminate | intros c c'; apply round_field_tag].
  - intros c Hc. unfold process_trackpoint in H.
    bind_inv H. rename a into tp2, Ha into H2.
    bind_inv H. rename a into tp3, Ha into H3.
    rewrite <- (find_with_grandchild_other _ _ _ _ _ _ H2) in Hc
      by (apply tcx_neq; discriminate).
    destruct (find_with_child_same _ _ _ _ _ H3 Hc) as (c' & Hc' & Hfind).
    { intros c' Hc'. rewrite (round_field_tag _ _ Hc'). eapply find_tag; eauto. }
    exists c'. split; [easy|].
    rewrite (find_with_child_other _ _ _ _ _ H);
      [easy | apply tcx_neq; discriminate | intros ? ?; apply with_child_tag].
  - intros ext tpx w He Ht Hw.
    destruct (process_trackpoint_extensions _ _ _ _ He Ht H)
      as (ext' & tpx' & He' & Ht' & Htpx).
    destruct (trackpoint_tpx_ok _ _ Htpx) as [_ Hwatts].
    destruct (Hwatts _ Hw) as (w' & Hr & Hw').
    exists ext', tpx', w'. auto.
Qed.

(** X8: in a trackpoint, the element that the path HeartRateBpm/Value
    reaches, the first Cadence child, and the first Watts child of the first
    TPX child of the first Extensions child each go through the rounding
    step and stay where they are; unlike a lap, a trackpoint keeps its
    Cadence. *)
Theorem trackpoint_fields_are_rounded (tp tp' : Element) :
  process_trackpoint tp = Ok tp' ->
  (forall v, ET.find_path (tcx "HeartRateBpm") (tcx "Value") tp = Some v ->
     exists v', round_field v = Ok v' /\
                ET.find_path (tcx "HeartRateBpm") (tcx "Value") tp' = Some v') /\
  (forall c, ET.find (tcx "Cadence") tp = Some c ->
     exists c', round_field c = Ok c' /\ ET.find (tcx "Cadence") tp' = Some c') /\
  (forall ext tpx w,
     ET.find (tcx "Extensions") tp = Some ext ->
     ET.find (ae "TPX") ext = Some tpx ->
     ET.find (ae "Watts") tpx = Some w ->
     exists ext' tpx' w',
       ET.find (tcx "Extensions") tp' = Some ext' /\
       ET.find (ae "TPX") ext' = Some tpx' /\
       round_field w = Ok w' /\ ET.find (ae "Watts") tpx' = Some w').
Proof. exact (process_trackpoint_fields tp tp'). Qed.

Lemma trackpoint_fields_are_rounded_witness :
  exists c', round_field (el (tcx "Cadence") (Some "79.5") []) = Ok c' /\
             ET.find (tcx "Cadence") trackpoint_with_cadence_processed = Some c'.
Proof.
  refine (proj1 (proj2 (trackpoint_fields_are_rounded trackpoint_with_cadence
                          trackpoint_with_cadence_processed _)) _ _).
  - vm_compute. reflexivity.
  - vm_compute. reflexivity.
Defined.

(** ** The text that rounding writes *)

Lemma digit_is_not_minus c : PyStr.isdigit c = true -> Ascii.eqb c "-" = false.
Proof.
  intros H. destruct (Ascii.eqb c "-") eqn:E; [|easy].
  apply Ascii.eqb_eq in E. subst c. vm_compute in H. discriminate.
Qed.

Lemma str_is_integer_numeral n : is_integer_numeral (PyNum.str n) = true.
Proof.
  unfold is_integer_numeral, PyNum.str. destruct (n <? 0) eqn:E.
  - apply Z.ltb_lt in E.
    destruct (PyNumFacts.nat_digits_ok (- n) ltac:(lia)) as (Hne & Hall & _).
    cbn [list_ascii_of_string]. rewrite Ascii.eqb_refl.
    rewrite list_ascii_of_string_of_list_ascii, Hall, andb_true_r.
    destruct (PyNum.nat_digits (- n)); [easy | reflexivity].
  - apply Z.ltb_ge in E.
    destruct (PyNumFacts.nat_digits_ok n E) as (Hne & Hall & _).
    rewrite list_ascii_of_string_of_list_ascii.
    destruct (PyNum.nat_digits n) as [|c ds] eqn:Hd; [easy|].
    simpl in Hall. apply andb_prop in Hall as [Hc Hds].
    rewrite (digit_is_not_minus _ Hc). simpl. now rewrite Hc, Hds.
Qed.

(** X9: what the rounding step leaves in a field: either the element as it
    was, when the conversion raised ValueError, or the same element with a
    text that is a plain decimal integer, an optional minus sign and digits
    (no fraction, no exponent, no blank). *)
Theorem rounded_field_holds_an_integer_numeral (x x' : Element) :
  round_field x = Ok x' ->
  (x' = x /\ exists msg, PyNum.round_text (text x) = Raise (ValueError msg)) \/
  (exists s, x' = set_text (Some s) x /\ is_integer_numeral s = true).
Proof.
  unfold round_field. destruct (PyNum.round_text (text x)) as [s|[]] eqn:E;
    intros [= <-].
  - right. exists s. split; [easy|].
    unfold PyNum.round_text in E. bind_inv E. bind_inv E. injection E as <-.
    apply str_is_integer_numeral.
  - left. eauto.
Qed.

Lemma rounded_field_holds_an_integer_numeral_witness :
  (el (ae "Watts") (Some "-12") [] = el (ae "Watts") (Some " -12.3e0 ") [] /\
   exists msg, PyNum.round_text (text (el (ae "Watts") (Some " -12.3e0 ") []))
               = Raise (ValueError msg)) \/
  (exists s, el (ae "Watts") (Some "-12") []
             = set_text (Some s) (el (ae "Watts") (Some " -12.3e0 ") []) /\
             is_integer_numeral s = true).
Proof.
  apply (rounded_field_holds_an_integer_numeral
           (el (ae "Watts") (Some " -12.3e0 ") [])).
  vm_compute. reflexivity.
Defined.

(** X10: a field whose text is a decimal integer of magnitude up to 2^53, as
    [str] writes it, keeps its text under the rounding step: the detour
    through a double loses nothing in that range. *)
Theorem integer_text_is_kept (n : Z) :
  - 2 ^ 53 <= n <= 2 ^ 53 ->
  PyNum.round_text (Some (PyNum.str n)) = Ok (PyNum.str n).
Proof.
  intros Hn. unfold PyNum.round_text. simpl PyNum.float.
  rewrite PyNumFacts.float_of_str. simpl bind.
  destruct (Z.eq_dec n 0) as [->|Hz]; [vm_compute; reflexivity|].
  assert (Ha : 0 < Z.abs n) by lia.
  assert (Hdiv : 2 ^ 52 <= Z.abs n -> Z.abs n mod 2 ^ (Z.log2 (Z.abs n) - 52) = 0).
  { intros H52. destruct (Z.eq_dec (Z.abs n) (2 ^ 53)) as [->|Hne].
    - reflexivity.
    - assert (Hl : Z.log2 (Z.abs n) = 52).
      { apply Z.log2_unique; [lia|]. change (52 + 1) with 53. lia. }
      rewrite Hl. change (2 ^ (52 - 52)) with 1. apply Z.mod_1_r. }
  destruct (PyNumFacts.to_double_representable (n <? 0) (Z.abs n) Ha
              ltac:(assert (2 ^ 53 < 2 ^ 1024) by (apply Z.pow_lt_mono_r; lia); lia)
              Hdiv)
    as (m' & e' & -> & Hval).
  simpl. rewrite Hval. do 2 f_equal.
  destruct (n <? 0) eqn:E; [apply Z.ltb_lt in E | apply Z.ltb_ge in E]; lia.
Qed.

Lemma integer_text_is_kept_witness :
  PyNum.round_text (Some (PyNum.str (-186))) = Ok (PyNum.str (-186)).
Proof.
  apply (integer_text_is_kept (-186)). lia.
Defined.

(** ** The lap's extension block and blank fields *)

Lemma mapM_raise {A B : Type} (g : A -> result B) l e :
  mapM g l = Raise e -> exists c, In c l /\ g c = Raise e.
Proof.
  induction l as [|c l IH]; simpl; [discriminate|].
  destruct (g c) as [b|e'] eqn:E; simpl.
  - destruct (mapM g l) as [bs|e'']; simpl; [discriminate|].
    intros [= ->]. destruct (IH eq_refl) as (d & Hd & Hg). eauto.
  - intros [= ->]. eauto.
Qed.

Lemma mapM_raises_one {A B : Type} (g : A -> result B) l e c :
  (forall d e', g d = Raise e' -> e' = e) ->
  In c l -> g c = Raise e -> mapM g l = Raise e.
Proof.
  intros Hall. induction l as [|d l IH]; simpl; [easy|].
  intros [-> | Hin] Hc.
  - now rewrite Hc.
  - destruct (g d) as [b|e'] eqn:E; simpl.
    + now rewrite (IH Hin Hc).
    + now rewrite (Hall _ _ E).
Qed.

Lemma round_field_raises x e :
  round_field x = Raise e ->
  (e = TypeError /\ text x = None) \/ (e = OverflowError /\ reads_infinite (text x)).
Proof.
  unfold round_field, PyNum.round_text, reads_infinite.
  destruct (text x) as [s|]; simpl.
  - destruct (PyNum.float_of_string s) as [[neg m ex|neg|]|e1] eqn:Ef; simpl;
      try discriminate.
    + intros [= <-]. right. eauto.
    + destruct (float_raises (Some s) _ Ef) as [->|[msg ->]]; [|discriminate].
      exfalso. revert Ef. unfold PyNum.float_of_string.
      destruct (PyNum.drop_underscores _ _); [|discriminate].
      destruct (PyNum.take_sign _). destruct (_ || _); [discriminate|].
      destruct (PyNum.list_eqb _ _); [discriminate|].
      destruct (PyNum.parse_decimal _) as [[]|]; discriminate.
  - intros [= <-]. now left.
Qed.

Lemma round_field_infinite x :
  reads_infinite (text x) -> round_field x = Raise OverflowError.
Proof.
  intros (s & neg & Hs & Hf). unfold round_field, PyNum.round_text.
  rewrite Hs. simpl. now rewrite Hf.
Qed.

Lemma reads_infinite_truthy x : reads_infinite x -> truthy x = true.
Proof.
  intros (s & neg & -> & Hf). destruct s; [|reflexivity].
  vm_compute in Hf. discriminate.
Qed.

Lemma lap_tpx_child_text child :
  text (fst (let ct := child_tag child in
             if in_names ct to_remove_names then (child, true)
             else match lookup_name ct rename_map with
                  | Some new => (set_tag (ae new) child, false)
                  | None => (child, false)
                  end)) = text child.
Proof.
  cbv zeta. destruct (in_names _ _); [easy|].
  destruct (lookup_name _ _); [apply text_set_tag | easy].
Qed.

Lemma lap_tpx_child_raises child e :
  lap_tpx_child child = Raise e ->
  e = OverflowError /\ reads_infinite (text child).
Proof.
  pose proof (lap_tpx_child_text child) as Ht. cbv zeta in Ht.
  unfold lap_tpx_child. cbv zeta.
  destruct (if in_names _ _ then _ else _) as [c1 rm]. simpl in Ht.
  destruct (truthy (text c1)) eqn:Etr; simpl; [|discriminate].
  destruct (round_field c1) as [c2|e'] eqn:Er; simpl; [discriminate|].
  intros [= ->]. destruct (round_field_raises _ _ Er) as [[_ Hn]|[-> Hi]].
  - rewrite Hn in Etr. discriminate.
  - now rewrite <- Ht.
Qed.

Lemma lap_tpx_child_infinite child :
  reads_infinite (text child) -> lap_tpx_child child = Raise OverflowError.
Proof.
  intros Hi. pose proof (lap_tpx_child_text child) as Ht. cbv zeta in Ht.
  unfold lap_tpx_child. cbv zeta.
  destruct (if in_names _ _ then _ else _) as [c1 rm]. simpl in Ht.
  rewrite <- Ht in Hi. rewrite (reads_infinite_truthy _ Hi).
  now rewrite (round_field_infinite _ Hi).
Qed.

(** X11: the loop over the lap's extension block skips a child without text
    or with an empty text (the test [if child.text]), so it never raises
    TypeError; it raises exactly when the text of some child of the block
    reads as an infinity, a child that is about to be removed included, and
    then the exception is OverflowError. *)
Theorem lap_block_fails_on_infinite_text_only (tpx : Element) :
  (forall e, lap_tpx tpx = Raise e -> e = OverflowError) /\
  (lap_tpx tpx = Raise OverflowError <->
   exists c, In c (children tpx) /\ reads_infinite (text c)).
Proof.
  assert (Hr : forall e, lap_tpx tpx = Raise e ->
            e = OverflowError /\
            exists c, In c (children tpx) /\ reads_infinite (text c)).
  { intros e. unfold lap_tpx. rewrite children_set_tag.
    destruct (mapM lap_tpx_child (children tpx)) as [m|e'] eqn:E; simpl;
      [discriminate|].
    intros [= ->]. destruct (mapM_raise _ _ _ E) as (c & Hc & Hraise).
    destruct (lap_tpx_child_raises _ _ Hraise) as [-> Hi]. eauto. }
  split; [intros e He; now apply Hr|]. split.
  - intros H. now apply Hr in H.
  - intros (c & Hc & Hi). unfold lap_tpx. rewrite children_set_tag.
    rewrite (mapM_raises_one lap_tpx_child _ OverflowError c); auto.
    + intros d e' Hd. now apply lap_tpx_child_raises in Hd.
    + now apply lap_tpx_child_infinite.
Qed.

Lemma lap_block_fails_on_infinite_text_only_witness :
  lap_tpx (el (ae "TPX") None
             [el (ae "AverageCadence") None [];
              el (ae "TotalPower") (Some "inf") []])
  = Raise OverflowError.
Proof.
  apply (proj2 (lap_block_fails_on_infinite_text_only _)).
  exists (el (ae "TotalPower") (Some "inf") []). split.
  - simpl. auto.
  - exists "inf", false. split; [reflexivity | vm_compute; reflexivity].
Defined.

(** ** Where the declaration is cut *)

Module PyStrFacts.
Import PyStr.









End PyStrFacts.


(** ** The creator of the activity *)

Lemma find_desc_eq t tg a x kids tl :
  ET.find_desc t (Elem tg a x kids tl) = find_desc_list t kids.
Proof. reflexivity. Qed.

Lemma modify_first_desc_tag t f e e' :
  ET.modify_first_desc t f e = Some e' -> tag e' = tag e.
Proof.
  destruct e as [tg a x kids tl]. rewrite modify_first_desc_eq.
  destruct (modify_first_desc_list t f kids); [|discriminate].
  now intros [= <-].
Qed.

(** [find] after an update of what [find] finds. *)
Lemma find_desc_modify_first_desc t f :
  (forall c, tag (f c) = tag c) ->
  forall e,
    match ET.find_desc t e with
    | None => ET.modify_first_desc t f e = None
    | Some d => exists e', ET.modify_first_desc t f e = Some e' /\
                           ET.find_desc t e' = Some (f d)
    end.
Proof.
  intros Hf e. induction e as [tg a x kids tl IH] using Element_rect'.
  rewrite find_desc_eq, modify_first_desc_eq.
  assert (Hl : match find_desc_list t kids with
               | None => modify_first_desc_list t f kids = None
               | Some d => exists kids', modify_first_desc_list t f kids = Some kids' /\
                                         find_desc_list t kids' = Some (f d)
               end).
  { induction IH as [|c l Hc _ IHl]; simpl; [easy|].
    destruct (has_tag t c) eqn:Et.
    - exists (f c :: l). split; [easy|]. simpl.
      replace (has_tag t (f c)) with true; [easy|].
      symmetry. apply has_tag_true. rewrite Hf. now apply has_tag_true.
    - destruct (ET.find_desc t c) as [d|] eqn:Ed.
      + destruct Hc as (c' & Hc' & Hfind). rewrite Hc'.
        exists (c' :: l). split; [easy|]. simpl.
        replace (has_tag t c') with false; [now rewrite Hfind|].
        symmetry. apply has_tag_false. rewrite (modify_first_desc_tag _ _ _ _ Hc').
        now apply has_tag_false.
      + rewrite Hc. destruct (find_desc_list t l) as [d|] eqn:El.
        * destruct IHl as (kids' & -> & Hfind). exists (c :: kids').
          split; [easy|]. simpl. now rewrite Et, Ed.
        * now rewrite IHl. }
  destruct (find_desc_list t kids) as [d|].
  - destruct Hl as (kids' & -> & Hfind). eexists. split; [reflexivity|].
    now rewrite find_desc_eq.
  - now rewrite Hl.
Qed.

Lemma filter_remove_first_other (P Q : Element -> bool) l :
  (forall c, P c = true -> Q c = false) ->
  List.filter Q (ET.remove_first P l) = List.filter Q l.
Proof.
  intros HP. induction l as [|c l IH]; simpl; [easy|].
  destruct (P c) eqn:E.
  - now rewrite (HP _ E).
  - simpl. now rewrite IH.
Qed.

(** X13: the creator removal works on the first Activity element below the
    root in document order and on no other.  Without one the tree is
    returned as it is; otherwise the first Activity of the result is that
    element without its first Creator child: its further Creator children
    and all its other children are kept, in order. *)
Theorem creator_removal_hits_first_activity (root : Element) :
  match ET.find_desc (tcx "Activity") root with
  | None => remove_creator root = root
  | Some a =>
      exists a',
        ET.find_desc (tcx "Activity") (remove_creator root) = Some a' /\
        tag a' = tag a /\ attrib a' = attrib a /\ text a' = text a /\
        tail a' = tail a /\
        List.filter (has_tag (tcx "Creator")) (children a')
        = List.tl (List.filter (has_tag (tcx "Creator")) (children a)) /\
        List.filter (fun c => negb (has_tag (tcx "Creator") c)) (children a')
        = List.filter (fun c => negb (has_tag (tcx "Creator") c)) (children a)
  end.
Proof.
  pose proof (find_desc_modify_first_desc (tcx "Activity")
                (ET.remove_child (tcx "Creator"))
                (fun c => tag_set_children _ c) root) as H.
  unfold remove_creator, ET.with_first_desc.
  destruct (ET.find_desc (tcx "Activity") root) as [a|].
  - destruct H as (e' & -> & Hfind).
    exists (ET.remove_child (tcx "Creator") a). split; [easy|].
    unfold ET.remove_child. destruct a as [tg att x kids tl]. simpl.
    repeat split.
    + apply filter_remove_first.
    + apply filter_remove_first_other. intros c ->. reflexivity.
  - now rewrite H.
Qed.

(** ** Documents the cleaner accepts *)

Lemma fields_ok_eq e :
  fields_ok e = (negb (needs_number (tag e)) || has_text (text e))
                && negb (reads_infinite_b (text e))
                && forallb fields_ok (children e).
Proof. now destruct e. Qed.

Lemma fields_ok_children e : fields_ok e = true -> forallb fields_ok (children e) = true.
Proof. rewrite fields_ok_eq. intros H. now apply andb_prop in H as [_ H]. Qed.

Lemma fields_ok_set_children l e :
  fields_ok e = true -> forallb fields_ok l = true -> fields_ok (set_children l e) = true.
Proof.
  rewrite !fields_ok_eq. destruct e as [t a x kids tl]. simpl.
  intros H Hl. apply andb_prop in H as [H _]. now rewrite H, Hl.
Qed.

Lemma fields_ok_set_tag t e :
  needs_number t = false -> fields_ok e = true -> fields_ok (set_tag t e) = true.
Proof.
  rewrite !fields_ok_eq. destruct e as [t0 a x kids tl]. simpl.
  intros Ht H. apply andb_prop in H as [H Hk]. apply andb_prop in H as [_ Hi].
  now rewrite Ht, Hi, Hk.
Qed.

Lemma reads_infinite_iff x : reads_infinite x <-> reads_infinite_b x = true.
Proof.
  unfold reads_infinite, reads_infinite_b. split.
  - intros (s & neg & -> & ->). reflexivity.
  - destruct x as [s|]; [|discriminate].
    destruct (PyNum.float_of_string s) as [[neg m e|neg|]|e] eqn:E; try discriminate.
    intros _. exists s, neg. split; [reflexivity | exact E].
Qed.

Lemma rounded_text_finite x s :
  PyNum.round_text x = Ok s -> reads_infinite_b (Some s) = false.
Proof.
  intros H. apply PyNumFacts.round_text_idempotent in H.
  unfold PyNum.round_text in H. simpl in H. unfold reads_infinite_b.
  destruct (PyNum.float_of_string s) as [[| neg |]|]; try reflexivity.
  simpl in H. discriminate.
Qed.

(** The rounding step succeeds on a field with a text that does not read as
    an infinity. *)
Lemma round_field_accepts x :
  has_text (text x) = true -> fields_ok x = true ->
  exists x', round_field x = Ok x' /\ fields_ok x' = true.
Proof.
  intros Ht Hok. destruct (round_field x) as [x'|e] eqn:E.
  - exists x'. split; [easy|].
    destruct (round_field_cases _ _ E) as [->|(s & Hs & ->)]; [easy|].
    pose proof (rounded_text_finite _ _ Hs) as Hfin.
    rewrite fields_ok_eq in *. destruct x as [t a x kids tl].
    cbn [tag text children set_text has_text] in *.
    rewrite Hfin. apply andb_prop in Hok as [_ ->]. now rewrite orb_true_r.
  - exfalso. destruct (round_field_raises _ _ E) as [[_ Hn]|[_ Hi]].
    + rewrite Hn in Ht. discriminate.
    + apply reads_infinite_iff in Hi. rewrite fields_ok_eq in Hok.
      rewrite Hi in Hok. rewrite andb_false_r in Hok. discriminate.
Qed.

Lemma round_field_accepts_tag t :
  needs_number t = true -> accepts (has_tag t) round_field.
Proof.
  intros Hn c Hc Hok. apply round_field_accepts; [|easy].
  apply has_tag_true in Hc. rewrite fields_ok_eq, Hc, Hn in Hok. simpl in Hok.
  apply andb_prop in Hok as [Hok _]. now apply andb_prop in Hok as [Hok _].
Qed.

Lemma modify_first_accepts P f l :
  accepts P f -> forallb fields_ok l = true ->
  exists l', ET.modify_first P f l = Ok l' /\ forallb fields_ok l' = true.
Proof.
  intros Hf. induction l as [|c l IH]; simpl; intros Hl; [eauto|].
  apply andb_prop in Hl as [Hc Hl]. destruct (P c) eqn:E.
  - destruct (Hf _ E Hc) as (c' & -> & Hc'). simpl.
    eexists. split; [reflexivity|]. simpl. now rewrite Hc', Hl.
  - destruct (IH Hl) as (l' & -> & Hl'). simpl.
    eexists. split; [reflexivity|]. simpl. now rewrite Hc, Hl'.
Qed.

Lemma with_child_accepts P t f :
  accepts (has_tag t) f -> accepts P (ET.with_child t f).
Proof.
  intros Hf e _ Hok. unfold ET.with_child.
  destruct (modify_first_accepts _ _ _ Hf (fields_ok_children _ Hok))
    as (l' & -> & Hl'). simpl.
  eexists. split; [reflexivity|]. now apply fields_ok_set_children.
Qed.

Lemma with_grandchild_accepts P t1 t2 f :
  accepts (has_tag t2) f -> accepts P (ET.with_grandchild t1 t2 f).
Proof.
  intros Hf e _ Hok. unfold ET.with_grandchild.
  destruct (modify_first_accepts
              (fun c => has_tag t1 c && existsb (has_tag t2) (children c))
              (ET.with_child t2 f) (children e))
    as (l' & -> & Hl').
  - now apply with_child_accepts.
  - now apply fields_ok_children.
  - simpl. eexists. split; [reflexivity|]. now apply fields_ok_set_children.
Qed.

Lemma remove_first_fields_ok P l :
  forallb fields_ok l = true -> forallb fields_ok (ET.remove_first P l) = true.
Proof.
  induction l as [|c l IH]; simpl; [easy|]. intros H.
  apply andb_prop in H as [Hc Hl]. destruct (P c); [easy|].
  simpl. now rewrite Hc, IH.
Qed.

Lemma remove_child_fields_ok t e :
  fields_ok e = true -> fields_ok (ET.remove_child t e) = true.
Proof.
  intros H. unfold ET.remove_child. apply fields_ok_set_children; [easy|].
  now apply remove_first_fields_ok, fields_ok_children.
Qed.

Lemma truthy_has_text x : truthy x = true -> has_text x = true.
Proof. destruct x as [[|]|]; simpl; congruence. Qed.

Lemma lap_tpx_child_accepts c :
  fields_ok c = true ->
  exists c' rm, lap_tpx_child c = Ok (c', rm) /\ fields_ok c' = true.
Proof.
  intros Hok. unfold lap_tpx_child. cbv zeta.
  assert (H1 : fields_ok
                 (fst (if in_names (child_tag c) to_remove_names then (c, true)
                       else match lookup_name (child_tag c) rename_map with
                            | Some new => (set_tag (ae new) c, false)
                            | None => (c, false)
                            end)) = true).
  { destruct (in_names _ _); [easy|].
    destruct (lookup_name _ _) as [new|] eqn:El; [|easy]. simpl.
    apply fields_ok_set_tag; [|easy].
    unfold rename_map in El. simpl in El.
    repeat (destruct (String.eqb _ _) in El;
            [injection El as <-; vm_compute; reflexivity|]).
    discriminate. }
  destruct (if in_names _ _ then _ else _) as [c1 rm]. simpl in H1.
  destruct (truthy (text c1)) eqn:Et.
  - destruct (round_field_accepts c1 (truthy_has_text _ Et) H1) as (c2 & -> & H2).
    simpl. eauto.
  - simpl. eauto.
Qed.

Lemma lap_tpx_accepts P : accepts P lap_tpx.
Proof.
  intros tpx _ Hok. unfold lap_tpx. rewrite children_set_tag.
  assert (Hm : exists marked, mapM lap_tpx_child (children tpx) = Ok marked /\
                 forallb (fun p => fields_ok (fst p)) marked = true).
  { pose proof (fields_ok_children _ Hok) as Hk.
    induction (children tpx) as [|c l IH]; simpl; [eauto|].
    apply andb_prop in Hk as [Hc Hl].
    destruct (lap_tpx_child_accepts c Hc) as (c' & rm & -> & Hc').
    destruct (IH Hl) as (m & -> & Hm). simpl.
    eexists. split; [reflexivity|]. simpl. now rewrite Hc', Hm. }
  destruct Hm as (marked & -> & Hm). simpl.
  eexists. split; [reflexivity|].
  apply fields_ok_set_children.
  - apply fields_ok_set_tag; [vm_compute; reflexivity | easy].
  - clear -Hm. induction marked as [|[c rm] m IH]; simpl in *; [easy|].
    apply andb_prop in Hm as [Hc Hm]. destruct rm; simpl; auto.
    now rewrite Hc, IH.
Qed.

Lemma process_lap_accepts P : accepts P process_lap.
Proof.
  intros lap _ Hok. unfold process_lap.
  pose proof (remove_child_fields_ok (tcx "Cadence") _ Hok) as H1.
  destruct (with_child_accepts (fun _ => true) (tcx "Calories") round_field
              (round_field_accepts_tag (tcx "Calories") eq_refl) _ eq_refl H1) as (l2 & -> & H2).
  simpl bind.
  destruct (with_grandchild_accepts (fun _ => true) (tcx "AverageHeartRateBpm")
              (tcx "Value") round_field
              (round_field_accepts_tag (tcx "Value") eq_refl) _ eq_refl H2) as (l3 & -> & H3).
  simpl bind.
  destruct (with_grandchild_accepts (fun _ => true) (tcx "MaximumHeartRateBpm")
              (tcx "Value") round_field
              (round_field_accepts_tag (tcx "Value") eq_refl) _ eq_refl H3) as (l4 & -> & H4).
  simpl bind.
  apply (with_child_accepts (fun _ => true) (tcx "Extensions")); auto.
  apply with_child_accepts, lap_tpx_accepts.
Qed.

Lemma trackpoint_tpx_accepts P : accepts P trackpoint_tpx.
Proof.
  intros tpx _ Hok. unfold trackpoint_tpx.
  apply (with_child_accepts (fun _ => true) (ae "Watts")); auto.
  - apply round_field_accepts_tag. reflexivity.
  - now apply remove_child_fields_ok.
Qed.

Lemma process_trackpoint_accepts P : accepts P process_trackpoint.
Proof.
  intros tp _ Hok. unfold process_trackpoint.
  destruct (with_grandchild_accepts (fun _ => true) (tcx "HeartRateBpm")
              (tcx "Value") round_field
              (round_field_accepts_tag (tcx "Value") eq_refl) _ eq_refl Hok) as (t2 & -> & H2).
  simpl bind.
  destruct (with_child_accepts (fun _ => true) (tcx "Cadence") round_field
              (round_field_accepts_tag (tcx "Cadence") eq_refl) _ eq_refl H2) as (t3 & -> & H3).
  simpl bind.
  apply (with_child_accepts (fun _ => true) (tcx "Extensions")); auto.
  apply with_child_accepts, trackpoint_tpx_accepts.
Qed.

Lemma mapM_accepts (g : Element -> result Element) l :
  Forall (fun c => fields_ok c = true ->
                   exists c', g c = Ok c' /\ fields_ok c' = true) l ->
  forallb fields_ok l = true ->
  exists l', mapM g l = Ok l' /\ forallb fields_ok l' = true.
Proof.
  induction 1 as [|c l Hc _ IH]; simpl; intros Hl; [eauto|].
  apply andb_prop in Hl as [Hokc Hl].
  destruct (Hc Hokc) as (c' & -> & Hc'). destruct (IH Hl) as (l' & -> & Hl').
  simpl. eexists. split; [reflexivity|]. simpl. now rewrite Hc', Hl'.
Qed.

Lemma visit_accepts t f :
  accepts (fun _ => true) f -> accepts (fun _ => true) (ET.visit t f).
Proof.
  intros Hf e _. induction e as [tg a x kids tl IH] using Element_rect'.
  intros Hok. rewrite visit_eq.
  destruct (mapM_accepts (ET.visit t f) kids) as (kids' & -> & Hk').
  - eapply List.Forall_impl; [|exact IH]. simpl. auto.
  - now apply (fields_ok_children (Elem tg a x kids tl)).
  - simpl bind.
    assert (Hok' : fields_ok (Elem tg a x kids' tl) = true)
      by (apply (fields_ok_set_children kids' (Elem tg a x kids tl)); auto).
    destruct (String.eqb tg t); [now apply Hf | eauto].
Qed.

Lemma iter_fields_ok e :
  fields_ok e = true -> forall d, In d (ET.iter e) -> fields_ok d = true.
Proof.
  induction e as [tg a x kids tl IH] using Element_rect'.
  intros Hok d [<-|Hd]; [easy|].
  apply fields_ok_children in Hok. simpl in Hok.
  apply in_flat_map in Hd as (c & Hc & Hd).
  rewrite List.Forall_forall in IH. apply (IH c Hc); [|easy].
  rewrite List.forallb_forall in Hok. now apply Hok.
Qed.

Lemma findall_fields_ok t root :
  fields_ok root = true -> forallb fields_ok (ET.findall t root) = true.
Proof.
  intros Hok. apply List.forallb_forall. intros d Hd.
  unfold ET.findall in Hd. apply List.filter_In in Hd as [Hd _].
  apply in_flat_map in Hd as (c & Hc & Hd).
  apply (iter_fields_ok c); [|easy].
  apply fields_ok_children in Hok. rewrite List.forallb_forall in Hok. auto.
Qed.

Lemma for_each_desc_accepts t f :
  accepts (fun _ => true) f -> accepts (fun _ => true) (ET.for_each_desc t f).
Proof.
  intros Hf root _ Hok. unfold ET.for_each_desc.
  destruct (mapM_accepts f (ET.findall t root)) as (res & -> & _).
  { apply List.Forall_forall. intros c _ Hc. now apply Hf. }
  { now apply findall_fields_ok. }
  simpl bind.
  destruct (mapM_accepts (ET.visit t f) (children root)) as (kids' & -> & Hk').
  - apply List.Forall_forall. intros c _ Hc. now apply visit_accepts.
  - now apply fields_ok_children.
  - simpl. eexists. split; [reflexivity|]. now apply fields_ok_set_children.
Qed.

Lemma modify_first_desc_fields_ok t f :
  (forall c, fields_ok c = true -> fields_ok (f c) = true) ->
  forall e e', ET.modify_first_desc t f e = Some e' ->
               fields_ok e = true -> fields_ok e' = true.
Proof.
  intros Hf e. induction e as [tg a x kids tl IH] using Element_rect'.
  intros e'. rewrite modify_first_desc_eq.
  destruct (modify_first_desc_list t f kids) as [kids'|] eqn:E; [|discriminate].
  intros [= <-] Hok.
  apply (fields_ok_set_children kids' (Elem tg a x kids tl)); [easy|].
  apply (fields_ok_children (Elem tg a x kids tl)) in Hok. simpl in Hok.
  revert kids' E Hok. induction IH as [|c l Hc _ IHl]; simpl; intros kids' E Hok;
    [discriminate|].
  apply andb_prop in Hok as [Hokc Hokl].
  destruct (has_tag t c).
  - injection E as <-. simpl. now rewrite Hf, Hokl.
  - destruct (ET.modify_first_desc t f c) as [c'|] eqn:Ec.
    + injection E as <-. simpl. now rewrite (Hc _ eq_refl Hokc), Hokl.
    + destruct (modify_first_desc_list t f l) as [l'|] eqn:El; [|discriminate].
      injection E as <-. simpl. now rewrite Hokc, (IHl _ eq_refl Hokl).
Qed.

Lemma remove_creator_fields_ok root :
  fields_ok root = true -> fields_ok (remove_creator root) = true.
Proof.
  intros Hok. unfold remove_creator, ET.with_first_desc.
  destruct (ET.modify_first_desc _ _ root) as [r|] eqn:E; [|easy].
  eapply modify_first_desc_fields_ok; eauto.
  intros c. apply remove_child_fields_ok.
Qed.

(** X14: a tree in which no text reads as an infinity and every Calories,
    Value, Cadence and Watts element has a text is cleaned without an
    exception, and the cleaned tree is such a tree again. *)
Theorem acceptable_fields_are_cleaned_without_error (root : Element) :
  fields_ok root = true ->
  exists out, clean_tree root = Ok out /\ fields_ok out = true.
Proof.
  intros Hok. unfold clean_tree.
  destruct (for_each_desc_accepts (tcx "Lap") process_lap
              (process_lap_accepts _) _ eq_refl (remove_creator_fields_ok _ Hok))
    as (r1 & -> & H1).
  simpl bind.
  apply (for_each_desc_accepts (tcx "Trackpoint") process_trackpoint
           (process_trackpoint_accepts _) _ eq_refl H1).
Qed.

Lemma acceptable_fields_are_cleaned_without_error_witness :
  exists out, clean_tree sample_ride = Ok out /\ fields_ok out = true.
Proof.
  apply (acceptable_fields_are_cleaned_without_error sample_ride).
  vm_compute. reflexivity.
Defined.

(** ** A second pass over a lap, over a trackpoint *)

Lemma set_children_same e : set_children (children e) e = e.
Proof. now destruct e. Qed.

Lemma modify_first_noop P f l :
  forallb (fun c => negb (P c)) l = true -> ET.modify_first P f l = Ok l.
Proof.
  induction l as [|c l IH]; simpl; [easy|]. intros H.
  apply andb_prop in H as [Hc Hl]. destruct (P c); [discriminate|].
  now rewrite (IH Hl).
Qed.

Lemma remove_first_noop P l :
  forallb (fun c => negb (P c)) l = true -> ET.remove_first P l = l.
Proof.
  induction l as [|c l IH]; simpl; [easy|]. intros H.
  apply andb_prop in H as [Hc Hl]. destruct (P c); [discriminate|].
  now rewrite (IH Hl).
Qed.

Lemma count_tag_zero t l :
  count_tag t l = 0%nat -> forallb (fun c => negb (has_tag t c)) l = true.
Proof.
  unfold count_tag. induction l as [|c l IH]; simpl; [easy|].
  destruct (has_tag t c); simpl; [discriminate | auto].
Qed.

(** A second update of the first element that satisfies [P] changes nothing
    when the update of that element is stable. *)
Lemma modify_first_idem P f l l' :
  ET.modify_first P f l = Ok l' ->
  (forall c c', List.find P l = Some c -> f c = Ok c' ->
                P c' = true /\ f c' = Ok c') ->
  ET.modify_first P f l' = Ok l'.
Proof.
  revert l'. induction l as [|c l IH]; simpl; intros l' H Hf.
  - now injection H as <-.
  - destruct (P c) eqn:E.
    + bind_inv H. injection H as <-.
      destruct (Hf _ _ eq_refl Ha) as [HP Hfa]. simpl. now rewrite HP, Hfa.
    + bind_inv H. injection H as <-. simpl. rewrite E.
      now rewrite (IH _ Ha Hf).
Qed.

(** A stable update of the first [P] stays stable when an element that does
    not satisfy [P] is replaced by another one that does not. *)
Lemma modify_first_stable_replace P f l1 c c' l2 :
  P c = false -> P c' = false ->
  ET.modify_first P f (l1 ++ c :: l2) = Ok (l1 ++ c :: l2)%list ->
  ET.modify_first P f (l1 ++ c' :: l2) = Ok (l1 ++ c' :: l2)%list.
Proof.
  intros Hc Hc'. induction l1 as [|d l1 IH]; simpl.
  - rewrite Hc, Hc'. intros H. bind_inv H. injection H as ->. now rewrite Ha.
  - destruct (P d).
    + intros H. bind_inv H. injection H as ->. now rewrite Ha.
    + intros H. bind_inv H. injection H as ->.
      now rewrite (IH Ha).
Qed.

Lemma modify_first_stable_other P Q f g l l' :
  ET.modify_first P f l = Ok l ->
  ET.modify_first Q g l = Ok l' ->
  (forall c c', Q c = true -> g c = Ok c' -> P c = false /\ P c' = false) ->
  ET.modify_first P f l' = Ok l'.
Proof.
  intros HP HQ Hg.
  destruct (modify_first_ok _ _ _ _ HQ)
    as [[_ ->] | (l1 & c & c' & l2 & -> & -> & _ & Hc & Hgc)]; [easy|].
  destruct (Hg _ _ Hc Hgc). now apply (modify_first_stable_replace P f l1 c c' l2).
Qed.

Lemma existsb_modify_first P f t l l' :
  ET.modify_first P f l = Ok l' ->
  (forall c c', P c = true -> f c = Ok c' -> tag c' = tag c) ->
  existsb (has_tag t) l' = existsb (has_tag t) l.
Proof.
  intros H Hf.
  destruct (modify_first_ok _ _ _ _ H)
    as [[_ ->] | (l1 & c & c' & l2 & -> & -> & _ & Hc & Hfc)]; [easy|].
  rewrite !List.existsb_app. simpl. unfold has_tag at 2 5.
  now rewrite (Hf _ _ Hc Hfc).
Qed.

Lemma with_child_idem t f e e' :
  ET.with_child t f e = Ok e' ->
  (forall c c', ET.find t e = Some c -> f c = Ok c' ->
                tag c' = tag c /\ f c' = Ok c') ->
  ET.with_child t f e' = Ok e'.
Proof.
  unfold ET.with_child, ET.find. intros H Hf. bind_inv H. injection H as <-.
  rewrite children_set_children.
  rewrite (modify_first_idem _ _ _ _ Ha).
  - simpl. destruct e; reflexivity.
  - intros c c' Hc Hfc. destruct (Hf _ _ Hc Hfc) as [Ht Hs]. split; [|easy].
    apply has_tag_true. rewrite Ht. apply List.find_some in Hc as [_ Hc].
    now apply has_tag_true.
Qed.

Lemma with_grandchild_idem t1 t2 f e e' :
  ET.with_grandchild t1 t2 f e = Ok e' ->
  (forall v v', f v = Ok v' -> tag v' = tag v /\ f v' = Ok v') ->
  ET.with_grandchild t1 t2 f e' = Ok e'.
Proof.
  unfold ET.with_grandchild. intros H Hf. bind_inv H. injection H as <-.
  rewrite children_set_children.
  rewrite (modify_first_idem _ _ _ _ Ha).
  - simpl. destruct e; reflexivity.
  - intros c c' Hc Hfc. apply List.find_some in Hc as [_ Hc].
    apply andb_prop in Hc as [Hc1 Hc2]. split.
    + apply andb_true_intro. split.
      * apply has_tag_true. rewrite (with_child_tag _ _ _ _ Hfc).
        now apply has_tag_true.
      * unfold ET.with_child in Hfc. bind_inv Hfc. injection Hfc as <-.
        rewrite children_set_children.
        rewrite (existsb_modify_first _ _ _ _ _ Ha0); [easy|].
        intros v v' _ Hv. now apply Hf.
    + apply (with_child_idem _ _ _ _ Hfc). intros v v' _. apply Hf.
Qed.

Lemma update_first_child_stable_other P Q f g e e' :
  update_first_child P f e = Ok e ->
  update_first_child Q g e = Ok e' ->
  (forall c c', Q c = true -> g c = Ok c' -> P c = false /\ P c' = false) ->
  update_first_child P f e' = Ok e'.
Proof.
  unfold update_first_child. intros HP HQ Hg.
  bind_inv HP. bind_inv HQ. injection HQ as <-.
  assert (a = children e).
  { destruct e. simpl in *. now injection HP. }
  subst a. rewrite children_set_children.
  rewrite (modify_first_stable_other _ _ _ _ _ _ Ha Ha0 Hg).
  simpl. now destruct e.
Qed.

(** A stable [with_child] or [with_grandchild] stays stable across a later
    update of a child under a tag that [P] refuses. *)
Lemma stable_across_with_child P f t g e e' :
  update_first_child P f e = Ok e ->
  ET.with_child t g e = Ok e' ->
  (forall c, tag c = t -> P c = false) ->
  (forall c c', g c = Ok c' -> tag c' = tag c) ->
  update_first_child P f e' = Ok e'.
Proof.
  intros HP Hg Hne Htag.
  apply (update_first_child_stable_other P (has_tag t) f g e e' HP Hg).
  intros c c' Hc Hgc. apply has_tag_true in Hc. split; apply Hne; [easy|].
  now rewrite (Htag _ _ Hgc).
Qed.

Lemma stable_across_with_grandchild P f t1 t2 g e e' :
  update_first_child P f e = Ok e ->
  ET.with_grandchild t1 t2 g e = Ok e' ->
  (forall c, tag c = t1 -> P c = false) ->
  update_first_child P f e' = Ok e'.
Proof.
  intros HP Hg Hne.
  apply (update_first_child_stable_other P _ f _ e e' HP Hg).
  intros c c' Hc Hgc. apply andb_prop in Hc as [Hc _]. apply has_tag_true in Hc.
  split; apply Hne; [easy|]. now rewrite (with_child_tag _ _ _ _ Hgc).
Qed.

Lemma has_tag_refuses t t' c : t <> t' -> tag c = t -> has_tag t' c = false.
Proof. intros Hne Hc. apply has_tag_false. congruence. Qed.

Lemma path_refuses t t1 t2 c :
  t <> t1 -> tag c = t ->
  has_tag t1 c && existsb (has_tag t2) (children c) = false.
Proof. intros Hne Hc. apply andb_false_intro1, has_tag_false. congruence. Qed.

Lemma remove_child_noop t e :
  count_tag t (children e) = 0%nat -> ET.remove_child t e = e.
Proof.
  intros H. unfold ET.remove_child.
  rewrite (remove_first_noop _ _ (count_tag_zero _ _ H)). apply set_children_same.
Qed.

(** The retagging of the block, once more: with at most one [ae:TPX] child
    there is none left to retag. *)
Lemma lap_block_retag_idem ext ext' :
  ET.with_child (ae "TPX") lap_tpx ext = Ok ext' ->
  (count_tag (ae "TPX") (children ext) <= 1)%nat ->
  ET.with_child (ae "TPX") lap_tpx ext' = Ok ext'.
Proof.
  unfold ET.with_child. intros H Hcount. bind_inv H. injection H as <-.
  rewrite children_set_children.
  destruct (modify_first_ok _ _ _ _ Ha)
    as [[Hnone ->] | (l1 & c & c' & l2 & Hl & -> & Hl1 & Hc & Hfc)].
  - rewrite Ha. simpl. now destruct ext.
  - rewrite modify_first_noop; [simpl; now destruct ext|].
    rewrite Hl in Hcount. unfold count_tag in Hcount.
    rewrite List.filter_app, List.length_app in Hcount. simpl in Hcount.
    rewrite Hc in Hcount. simpl in Hcount.
    rewrite List.forallb_app. rewrite Hl1. simpl.
    destruct (lap_tpx_ok _ _ Hfc) as [Htag _].
    replace (has_tag (ae "TPX") c') with false
      by (symmetry; apply has_tag_false; rewrite Htag; apply ae_neq; discriminate).
    simpl. apply count_tag_zero. unfold count_tag. lia.
Qed.

Lemma trackpoint_tpx_idem tpx tpx' :
  trackpoint_tpx tpx = Ok tpx' ->
  (count_tag (ae "Resistance") (children tpx) <= 1)%nat ->
  trackpoint_tpx tpx' = Ok tpx'.
Proof.
  intros H Hcount. destruct (trackpoint_tpx_ok _ _ H) as [Hc _].
  unfold trackpoint_tpx in *.
  rewrite remove_child_noop by lia.
  apply (with_child_idem _ _ _ _ H).
  intros c c' _ Hr. split; [now apply round_field_tag | exact (round_field_idem _ _ Hr)].
Qed.

Lemma child_stable_across_with_child t0 f t g e e' :
  ET.with_child t0 f e = Ok e -> ET.with_child t g e = Ok e' ->
  t <> t0 -> (forall c c', g c = Ok c' -> tag c' = tag c) ->
  ET.with_child t0 f e' = Ok e'.
Proof.
  intros HP Hg Hne Htag.
  apply (stable_across_with_child (has_tag t0) f t g e e' HP Hg); [|easy].
  intros c. now apply has_tag_refuses.
Qed.

Lemma child_stable_across_with_grandchild t0 f t1 t2 g e e' :
  ET.with_child t0 f e = Ok e -> ET.with_grandchild t1 t2 g e = Ok e' ->
  t1 <> t0 -> ET.with_child t0 f e' = Ok e'.
Proof.
  intros HP Hg Hne.
  apply (stable_across_with_grandchild (has_tag t0) f t1 t2 g e e' HP Hg).
  intros c. now apply has_tag_refuses.
Qed.

Lemma grandchild_stable_across_with_child t1 t2 f t g e e' :
  ET.with_grandchild t1 t2 f e = Ok e -> ET.with_child t g e = Ok e' ->
  t <> t1 -> (forall c c', g c = Ok c' -> tag c' = tag c) ->
  ET.with_grandchild t1 t2 f e' = Ok e'.
Proof.
  intros HP Hg Hne Htag.
  apply (stable_across_with_child
           (fun c => has_tag t1 c && existsb (has_tag t2) (children c))
           (ET.with_child t2 f) t g e e' HP Hg); [|easy].
  intros c. now apply path_refuses.
Qed.

Lemma grandchild_stable_across_with_grandchild t1 t2 f t1' t2' g e e' :
  ET.with_grandchild t1 t2 f e = Ok e -> ET.with_grandchild t1' t2' g e = Ok e' ->
  t1' <> t1 -> ET.with_grandchild t1 t2 f e' = Ok e'.
Proof.
  intros HP Hg Hne.
  apply (stable_across_with_grandchild
           (fun c => has_tag t1 c && existsb (has_tag t2) (children c))
           (ET.with_child t2 f) t1' t2' g e e' HP Hg).
  intros c. now apply path_refuses.
Qed.

Lemma round_field_tag_idem v v' :
  round_field v = Ok v' -> tag v' = tag v /\ round_field v' = Ok v'.
Proof. intros H. split; [now apply round_field_tag | exact (round_field_idem _ _ H)]. Qed.

(** X15: a second pass over a processed trackpoint changes nothing, when the
    block of the trackpoint held at most one Resistance child. *)
Theorem trackpoint_second_pass_changes_nothing (tp tp' : Element) :
  process_trackpoint tp = Ok tp' ->
  (forall ext tpx,
     ET.find (tcx "Extensions") tp = Some ext ->
     ET.find (ae "TPX") ext = Some tpx ->
     (count_tag (ae "Resistance") (children tpx) <= 1)%nat) ->
  process_trackpoint tp' = Ok tp'.
Proof.
  intros H Hcount. unfold process_trackpoint in H.
  bind_inv H. rename a into tp2, Ha into H2.
  bind_inv H. rename a into tp3, Ha into H3.
  pose proof (with_grandchild_idem _ _ _ _ _ H2 round_field_tag_idem) as S2.
  assert (S2' : ET.with_grandchild (tcx "HeartRateBpm") (tcx "Value") round_field tp'
                = Ok tp').
  { assert (S23 : ET.with_grandchild (tcx "HeartRateBpm") (tcx "Value") round_field
                    tp3 = Ok tp3).
    { apply (grandchild_stable_across_with_child _ _ _ _ _ _ _ S2 H3).
      - apply tcx_neq. discriminate.
      - apply round_field_tag. }
    apply (grandchild_stable_across_with_child _ _ _ _ _ _ _ S23 H).
    - apply tcx_neq. discriminate.
    - intros c c'. apply with_child_tag. }
  assert (S3 : ET.with_child (tcx "Cadence") round_field tp3 = Ok tp3).
  { apply (with_child_idem _ _ _ _ H3). intros c c' _. apply round_field_tag_idem. }
  assert (S3' : ET.with_child (tcx "Cadence") round_field tp' = Ok tp').
  { apply (child_stable_across_with_child _ _ _ _ _ _ S3 H).
    - apply tcx_neq. discriminate.
    - intros c c'. apply with_child_tag. }
  assert (S5 : ET.with_child (tcx "Extensions")
                 (ET.with_child (ae "TPX") trackpoint_tpx) tp' = Ok tp').
  { apply (with_child_idem _ _ _ _ H). intros ext ext' He Hext.
    split; [now apply with_child_tag in Hext|].
    apply (with_child_idem _ _ _ _ Hext). intros tpx tpx' Ht Htpx.
    split; [now apply trackpoint_tpx_tag|].
    apply (trackpoint_tpx_idem _ _ Htpx). apply (Hcount ext); [|easy].
    rewrite <- He.
    rewrite (find_with_child_other _ _ _ _ _ H3);
      [|apply tcx_neq; discriminate | apply round_field_tag].
    rewrite (find_with_grandchild_other _ _ _ _ _ _ H2); [easy|].
    apply tcx_neq; discriminate. }
  unfold process_trackpoint. rewrite S2'. simpl bind. rewrite S3'. exact S5.
Qed.

Lemma trackpoint_second_pass_changes_nothing_witness :
  process_trackpoint trackpoint_after = Ok trackpoint_after.
Proof.
  apply (trackpoint_second_pass_changes_nothing sample_trackpoint).
  - vm_compute. reflexivity.
  - intros ext tpx He Ht. vm_compute in He. injection He as <-.
    vm_compute in Ht. injection Ht as <-. vm_compute. lia.
Defined.

(** X16: a second pass over a processed lap changes nothing, when the lap
    held at most one Cadence child and its first Extensions child at most one
    [ae:TPX] child. *)
Theorem lap_second_pass_changes_nothing (lap lap' : Element) :
  process_lap lap = Ok lap' ->
  (count_tag (tcx "Cadence") (children lap) <= 1)%nat ->
  (forall ext, ET.find (tcx "Extensions") lap = Some ext ->
               (count_tag (ae "TPX") (children ext) <= 1)%nat) ->
  process_lap lap' = Ok lap'.
Proof.
  intros H0 Hcad Hcount.
  assert (S1 : ET.remove_child (tcx "Cadence") lap' = lap').
  { apply remove_child_noop. unfold count_tag in *.
    rewrite (process_lap_cadence _ _ H0).
    destruct (List.filter _ (children lap)) as [|c l]; simpl in *; lia. }
  pose proof H0 as H. unfold process_lap in H.
  bind_inv H. rename a into lap2, Ha into H2.
  bind_inv H. rename a into lap3, Ha into H3.
  bind_inv H. rename a into lap4, Ha into H4.
  assert (S2 : ET.with_child (tcx "Calories") round_field lap' = Ok lap').
  { assert (S : ET.with_child (tcx "Calories") round_field lap2 = Ok lap2).
    { apply (with_child_idem _ _ _ _ H2). intros c c' _. apply round_field_tag_idem. }
    apply (child_stable_across_with_grandchild _ _ _ _ _ _ _ S) in H3 as S';
      [|apply tcx_neq; discriminate].
    apply (child_stable_across_with_grandchild _ _ _ _ _ _ _ S') in H4 as S'';
      [|apply tcx_neq; discriminate].
    apply (child_stable_across_with_child _ _ _ _ _ _ S'' H).
    - apply tcx_neq. discriminate.
    - intros c c'. apply with_child_tag. }
  assert (S3 : ET.with_grandchild (tcx "AverageHeartRateBpm") (tcx "Value")
                 round_field lap' = Ok lap').
  { pose proof (with_grandchild_idem _ _ _ _ _ H3 round_field_tag_idem) as S.
    apply (grandchild_stable_across_with_grandchild _ _ _ _ _ _ _ _ S) in H4 as S';
      [|apply tcx_neq; discriminate].
    apply (grandchild_stable_across_with_child _ _ _ _ _ _ _ S' H).
    - apply tcx_neq. discriminate.
    - intros c c'. apply with_child_tag. }
  assert (S4 : ET.with_grandchild (tcx "MaximumHeartRateBpm") (tcx "Value")
                 round_field lap' = Ok lap').
  { pose proof (with_grandchild_idem _ _ _ _ _ H4 round_field_tag_idem) as S.
    apply (grandchild_stable_across_with_child _ _ _ _ _ _ _ S H).
    - apply tcx_neq. discriminate.
    - intros c c'. apply with_child_tag. }
  assert (S5 : ET.with_child (tcx "Extensions")
                 (ET.with_child (ae "TPX") lap_tpx) lap' = Ok lap').
  { apply (with_child_idem _ _ _ _ H). intros ext ext' He Hext.
    split; [now apply with_child_tag in Hext|].
    apply (lap_block_retag_idem _ _ Hext). apply Hcount. rewrite <- He.
    rewrite (find_with_grandchild_other _ _ _ _ _ _ H4) by (apply tcx_neq; discriminate).
    rewrite (find_with_grandchild_other _ _ _ _ _ _ H3) by (apply tcx_neq; discriminate).
    rewrite (find_with_child_other _ _ _ _ _ H2);
      [|apply tcx_neq; discriminate | apply round_field_tag].
    symmetry. apply find_remove_child_other. apply tcx_neq. discriminate. }
  unfold process_lap. rewrite S1, S2. simpl bind. rewrite S3. simpl bind.
  rewrite S4. exact S5.
Qed.

Lemma lap_second_pass_changes_nothing_witness :
  process_lap lap_after = Ok lap_after.
Proof.
  apply (lap_second_pass_changes_nothing lap_before).
  - vm_compute. reflexivity.
  - vm_compute. lia.
  - intros ext He. vm_compute in He. injection He as <-. vm_compute. lia.
Defined.

(** ** The namespaces of the cleaned tree *)

Lemma declared_namespaces_eq t a x kids tl :
  declared_namespaces (Elem t a x kids tl)
  = (namespace_of t ++ flat_map (fun kv => namespace_of (fst kv)) a
     ++ flat_map declared_namespaces kids)%list.
Proof. reflexivity. Qed.

Lemma fresh_namespace t : fresh_tag t = true -> namespace_of t = [ns_ext].
Proof.
  intros H. destruct (fresh_tag_cases _ H) as [->|[->|[->|[->| ->]]]];
    vm_compute; reflexivity.
Qed.

Lemma in_lap_block_parent t ctx :
  in_lap_block (t :: ctx) = true -> namespace_of t = [ns_ext].
Proof.
  unfold in_lap_block. cbn [starts_with]. intros H.
  apply andb_prop in H as [H _]. apply String.eqb_eq in H. subst t.
  vm_compute. reflexivity.
Qed.

Lemma edited_namespaces_mut :
  (forall ctx e e', edited ctx e e' ->
     forall u, In u (declared_namespaces e') ->
       In u (declared_namespaces e) \/ (u = ns_ext /\ in_lap_block ctx = true)) /\
  (forall ctx l l', edited_list ctx l l' ->
     forall u, In u (flat_map declared_namespaces l') ->
       In u (flat_map declared_namespaces l) \/
       (u = ns_ext /\ in_lap_block ctx = true)).
Proof.
  apply edited_mutind.
  - intros ctx t t' a x x' kids kids' tl Htag _ _ IH u.
    rewrite !declared_namespaces_eq, !in_app_iff. intros [Hu|[Hu|Hu]].
    + destruct Htag as [->|Hr]; [auto|].
      rewrite (fresh_namespace _ (may_retag_fresh _ _ _ Hr)) in Hu.
      destruct Hu as [<-|[]].
      unfold may_retag in Hr. apply orb_prop in Hr as [Hr|Hr].
      * apply andb_prop in Hr as [Hr _]. apply andb_prop in Hr as [_ Hr].
        apply String.eqb_eq in Hr. subst t. left. left. vm_compute. auto.
      * apply andb_prop in Hr as [Hr _]. auto.
    + auto.
    + destruct (IH _ Hu) as [H|[-> H]]; [auto|].
      left. left. rewrite (in_lap_block_parent _ _ H). now left.
  - intros ctx u [].
  - intros ctx c c' l l' _ IHc _ IHl u. simpl. rewrite !in_app_iff.
    intros [Hu|Hu]; [destruct (IHc _ Hu) | destruct (IHl _ Hu)]; auto.
  - intros ctx c l l' _ _ IHl u Hu. simpl. rewrite in_app_iff.
    destruct (IHl _ Hu); auto.
Qed.

(** X17: the edits bring no namespace into the tree: the namespace of every
    element and attribute name of the cleaned tree is the namespace of a name
    of the input tree (the new names are built in the extension namespace,
    inside a block that is itself named in it). *)
Theorem cleaning_introduces_no_namespace (root out : Element) (u : string) :
  clean_tree root = Ok out ->
  In u (declared_namespaces out) -> In u (declared_namespaces root).
Proof.
  intros H Hu. apply clean_tree_edited in H.
  destruct (proj1 edited_namespaces_mut _ _ _ H _ Hu) as [Hin|[_ Hb]]; [easy|].
  discriminate.
Qed.

Lemma cleaning_introduces_no_namespace_witness :
  In ns_ext (declared_namespaces sample_ride).
Proof.
  apply (cleaning_introduces_no_namespace sample_ride sample_ride_cleaned ns_ext).
  - vm_compute. reflexivity.
  - vm_compute. repeat first [left; reflexivity | right].
Defined.

(* ===================================================================== *)
(** * The cleaner at a place of the document *)

(** ** Changes in and below elements of given tags *)

Lemma deep_own ts e e' :
  deep ts e e' ->
  tag e' = tag e /\ attrib e' = attrib e /\ text e' = text e /\ tail e' = tail e.
Proof. destruct 1. simpl. auto. Qed.

Lemma deep_children ts e e' :
  deep ts e e' -> in_names (tag e) ts = false ->
  Forall2 (deep ts) (children e) (children e').
Proof. destruct 1. simpl. auto. Qed.

Lemma deep_refl ts e : deep ts e e.
Proof.
  induction e as [tg a x kids tl IH] using Element_rect'.
  constructor. intros _. induction IH; constructor; auto.
Qed.

Lemma Forall2_deep_refl ts l : Forall2 (deep ts) l l.
Proof. induction l; constructor; auto using deep_refl. Qed.

Lemma deep_mono ts ts' e :
  (forall t, in_names t ts' = false -> in_names t ts = false) ->
  forall e', deep ts e e' -> deep ts' e e'.
Proof.
  intros Hsub. induction e as [tg a x kids tl IH] using Element_rect'.
  intros e' H. inversion H as [? ? ? ? kids' ? Hk]; subst.
  constructor. intros Hn. specialize (Hk (Hsub _ Hn)).
  clear H Hn. revert kids' Hk.
  induction IH as [|c l Hc _ IHl]; intros kids' Hk; inversion Hk; subst;
    constructor; auto.
Qed.

Lemma deep_trans ts e :
  forall e' e'', deep ts e e' -> deep ts e' e'' -> deep ts e e''.
Proof.
  induction e as [tg a x kids tl IH] using Element_rect'.
  intros e' e'' H1 H2.
  inversion H1 as [? ? ? ? kids1 ? Hk1]; subst.
  inversion H2 as [? ? ? ? kids2 ? Hk2]; subst.
  constructor. intros Hn. specialize (Hk1 Hn). specialize (Hk2 Hn).
  clear H1 H2 Hn. revert kids1 kids2 Hk1 Hk2.
  induction IH as [|c l Hc _ IHl]; intros kids1 kids2 Hk1 Hk2;
    inversion Hk1; subst; inversion Hk2; subst; constructor; eauto.
Qed.

Lemma Forall2_deep_trans ts l :
  forall l' l'', Forall2 (deep ts) l l' -> Forall2 (deep ts) l' l'' ->
                 Forall2 (deep ts) l l''.
Proof.
  induction l as [|c l IH]; intros l' l'' H1 H2;
    inversion H1; subst; inversion H2; subst; constructor;
    eauto using deep_trans.
Qed.

Lemma Forall2_deep_mono ts ts' l l' :
  (forall t, in_names t ts' = false -> in_names t ts = false) ->
  Forall2 (deep ts) l l' -> Forall2 (deep ts') l l'.
Proof. intros Hsub H. induction H; constructor; eauto using deep_mono. Qed.

(** The first element that satisfies a test, in two lists related one for
    one by a relation that keeps the test. *)
Lemma Forall2_find {A : Type} (R : A -> A -> Prop) (P : A -> bool) l l' :
  Forall2 R l l' -> (forall c c', R c c' -> P c' = P c) ->
  match List.find P l with
  | Some c => exists c', List.find P l' = Some c' /\ R c c'
  | None => List.find P l' = None
  end.
Proof.
  intros H HP. induction H as [|c c' l l' Hc _ IH]; simpl; [easy|].
  rewrite (HP _ _ Hc). destruct (P c); eauto.
Qed.

Lemma Forall2_filter {A : Type} (R : A -> A -> Prop) (P : A -> bool) l l' :
  Forall2 R l l' -> (forall c c', R c c' -> P c' = P c) ->
  Forall2 R (List.filter P l) (List.filter P l').
Proof.
  intros H HP. induction H as [|c c' l l' Hc _ IH]; simpl; [constructor|].
  rewrite (HP _ _ Hc). destruct (P c); auto.
Qed.

Lemma deep_has_tag ts t c c' : deep ts c c' -> has_tag t c' = has_tag t c.
Proof. intros H. unfold has_tag. now destruct (deep_own _ _ _ H) as (-> & _). Qed.

Lemma Forall2_existsb_tag ts t l l' :
  Forall2 (deep ts) l l' -> existsb (has_tag t) l' = existsb (has_tag t) l.
Proof.
  induction 1 as [|c c' l l' Hc _ IH]; simpl; [easy|].
  now rewrite (deep_has_tag _ _ _ _ Hc), IH.
Qed.

Lemma deep_path_test ts t1 t2 c c' :
  deep ts c c' -> in_names t1 ts = false ->
  has_tag t1 c' && existsb (has_tag t2) (children c')
  = has_tag t1 c && existsb (has_tag t2) (children c).
Proof.
  intros H Hn. rewrite (deep_has_tag _ _ _ _ H).
  destruct (has_tag t1 c) eqn:E; [|reflexivity]. simpl.
  apply Forall2_existsb_tag with (ts := ts). apply deep_children; [easy|].
  apply has_tag_true in E. now rewrite E.
Qed.

(** [find] and a path of two steps, in an element and in one that differs
    from it in and below elements tagged in [ts] only. *)
Lemma deep_find ts t e e' c :
  Forall2 (deep ts) (children e) (children e') ->
  ET.find t e = Some c ->
  exists c', ET.find t e' = Some c' /\ deep ts c c'.
Proof.
  intros H Hc. unfold ET.find in *.
  pose proof (Forall2_find _ (has_tag t) _ _ H (deep_has_tag ts t)) as HF.
  now rewrite Hc in HF.
Qed.

Lemma deep_find_path ts t1 t2 e e' v :
  Forall2 (deep ts) (children e) (children e') ->
  in_names t1 ts = false ->
  ET.find_path t1 t2 e = Some v ->
  exists v', ET.find_path t1 t2 e' = Some v' /\ deep ts v v'.
Proof.
  intros H Hn Hv. unfold ET.find_path in *.
  pose proof (Forall2_find _
                (fun c => has_tag t1 c && existsb (has_tag t2) (children c))
                _ _ H (fun c c' Hc => deep_path_test ts t1 t2 c c' Hc Hn)) as HF.
  destruct (List.find _ (children e)) as [c|] eqn:Ec; [|discriminate].
  destruct HF as (c' & -> & Hcc).
  apply (deep_find ts t2 c c' v); [|exact Hv].
  apply deep_children; [easy|].
  apply List.find_some in Ec as [_ Ec]. apply andb_prop in Ec as [Ec _].
  apply has_tag_true in Ec. now rewrite Ec.
Qed.

(** ** The steps keep the element's own fields *)

Lemma set_children_twice k k0 e :
  set_children k (set_children k0 e) = set_children k e.
Proof. now destruct e. Qed.

Lemma with_child_shape t f e e' :
  ET.with_child t f e = Ok e' -> exists k, e' = set_children k e.
Proof. unfold ET.with_child. intros H. bind_inv H. injection H as <-. eauto. Qed.

Lemma with_grandchild_shape t1 t2 f e e' :
  ET.with_grandchild t1 t2 f e = Ok e' -> exists k, e' = set_children k e.
Proof.
  unfold ET.with_grandchild. intros H. bind_inv H. injection H as <-. eauto.
Qed.

Lemma process_lap_shape lap lap' :
  process_lap lap = Ok lap' -> exists k, lap' = set_children k lap.
Proof.
  intros H. unfold process_lap in H.
  bind_inv H. apply with_child_shape in Ha as (k2 & ->).
  bind_inv H. apply with_grandchild_shape in Ha as (k3 & ->).
  bind_inv H. apply with_grandchild_shape in Ha as (k4 & ->).
  apply with_child_shape in H as (k5 & ->).
  unfold ET.remove_child. rewrite !set_children_twice. eauto.
Qed.

Lemma process_trackpoint_shape tp tp' :
  process_trackpoint tp = Ok tp' -> exists k, tp' = set_children k tp.
Proof.
  intros H. unfold process_trackpoint in H.
  bind_inv H. apply with_grandchild_shape in Ha as (k2 & ->).
  bind_inv H. apply with_child_shape in Ha as (k3 & ->).
  apply with_child_shape in H as (k5 & ->).
  rewrite !set_children_twice. eauto.
Qed.

Lemma visit_deep ts t f :
  in_names t ts = true ->
  (forall e e', f e = Ok e' -> exists k, e' = set_children k e) ->
  forall e e', ET.visit t f e = Ok e' -> deep ts e e'.
Proof.
  intros Ht Hf e. induction e as [tg a x kids tl IH] using Element_rect'.
  intros e' H. rewrite visit_eq in H. bind_inv H. rename a0 into kids1.
  destruct (String.eqb tg t) eqn:E.
  - apply String.eqb_eq in E. subst tg.
    destruct (Hf _ _ H) as (k & ->). simpl.
    constructor. intros Hn. rewrite Ht in Hn. discriminate.
  - injection H as <-. constructor. intros _.
    clear E. revert kids1 Ha.
    induction IH as [|c l Hc _ IHl]; simpl; intros kids1 Ha.
    + injection Ha as <-. constructor.
    + bind_inv Ha. bind_inv Ha. injection Ha as <-. constructor; auto.
Qed.

Lemma mapM_visit_deep ts t f l l' :
  in_names t ts = true ->
  (forall e e', f e = Ok e' -> exists k, e' = set_children k e) ->
  mapM (ET.visit t f) l = Ok l' -> Forall2 (deep ts) l l'.
Proof.
  intros Ht Hf. revert l'. induction l as [|c l IH]; simpl; intros l' H.
  - injection H as <-. constructor.
  - bind_inv H. bind_inv H. injection H as <-.
    constructor; eauto using visit_deep.
Qed.

Lemma modify_first_desc_deep ts t f :
  in_names t ts = true ->
  (forall c, exists k, f c = set_children k c) ->
  forall e e', ET.modify_first_desc t f e = Some e' -> deep ts e e'.
Proof.
  intros Ht Hf e. induction e as [tg a x kids tl IH] using Element_rect'.
  intros e'. rewrite modify_first_desc_eq.
  destruct (modify_first_desc_list t f kids) as [kids'|] eqn:E; [|discriminate].
  intros [= <-]. constructor. intros _.
  revert kids' E. induction IH as [|c l Hc _ IHl]; simpl; intros kids' E;
    [discriminate|].
  destruct (has_tag t c) eqn:Et.
  - injection E as <-. constructor; [|apply Forall2_deep_refl].
    destruct (Hf c) as (k & ->). destruct c as [tg' a' x' kids0 tl']. simpl.
    constructor. intros Hn. apply has_tag_true in Et. simpl in Et. subst tg'.
    rewrite Ht in Hn. discriminate.
  - destruct (ET.modify_first_desc t f c) as [c'|] eqn:Ec.
    + injection E as <-. constructor; [auto | apply Forall2_deep_refl].
    + destruct (modify_first_desc_list t f l) as [l'|] eqn:El; [|discriminate].
      injection E as <-. constructor; [apply deep_refl | auto].
Qed.

Lemma remove_creator_deep ts root :
  in_names (tcx "Activity") ts = true -> deep ts root (remove_creator root).
Proof.
  intros Ht. unfold remove_creator, ET.with_first_desc.
  destruct (ET.modify_first_desc _ _ root) as [r|] eqn:E; [|apply deep_refl].
  apply (modify_first_desc_deep ts _ _ Ht) in E; [easy|].
  intros c. unfold ET.remove_child. eauto.
Qed.

(** ** The way to a place *)

Lemma edited_list_trans ctx l1 l2 l3 :
  edited_list ctx l1 l2 -> edited_list ctx l2 l3 -> edited_list ctx l1 l3.
Proof.
  intros H1 H2.
  exact (proj2 edited_trans_mut _ _ _ H1 _ _ (renamed_ctx_refl ctx) H2).
Qed.

Lemma same_path_refl C : forall ctx, same_path ctx C C.
Proof.
  induction C as [|F C IH]; intros ctx; constructor;
    auto using edited_list_refl.
Qed.

Lemma same_path_trans C1 :
  forall ctx C2 C3, same_path ctx C1 C2 -> same_path ctx C2 C3 ->
                    same_path ctx C1 C3.
Proof.
  induction C1 as [|F C1 IH]; intros ctx C2 C3 H1 H2;
    inversion H1; subst; inversion H2; subst; constructor; try congruence.
  - eapply edited_list_trans; [eassumption|]. congruence.
  - eapply edited_list_trans; [eassumption|]. congruence.
  - eapply IH; [eassumption|]. congruence.
Qed.

Lemma tag_plug C x : tag (plug C x) = tag_at C (tag x).
Proof. now destruct C. Qed.

Lemma same_path_tag_at ctx C C' t :
  same_path ctx C C' -> tag_at C' t = tag_at C t.
Proof. destruct 1; simpl; auto. Qed.

Lemma same_path_length ctx C C' :
  same_path ctx C C' -> List.length C' = List.length C.
Proof. induction 1; simpl; auto. Qed.

Lemma mapM_split {A B : Type} (g : A -> result B) l c r k :
  mapM g (l ++ c :: r) = Ok k ->
  exists l' c' r', k = (l' ++ c' :: r')%list /\
                   mapM g l = Ok l' /\ g c = Ok c' /\ mapM g r = Ok r'.
Proof.
  revert k. induction l as [|d l IH]; simpl; intros k H.
  - bind_inv H. bind_inv H. injection H as <-.
    exists [], a, a0. auto.
  - bind_inv H. bind_inv H. injection H as <-.
    destruct (IH _ Ha0) as (l' & c' & r' & -> & Hl & Hc & Hr).
    exists (a :: l'), c', r'. rewrite Ha, Hl. auto.
Qed.

(** An update, or a removal, of the first element that satisfies [P] keeps
    an element that does not satisfy it where it is, between what becomes
    of the elements before it and after it. *)
Lemma modify_first_split ctx P f l c r k :
  ET.modify_first P f (l ++ c :: r) = Ok k -> P c = false ->
  (forall d d', P d = true -> f d = Ok d' -> edited ctx d d') ->
  exists l' r', k = (l' ++ c :: r')%list /\
                edited_list ctx l l' /\ edited_list ctx r r'.
Proof.
  intros H Hc Hf. revert k H. induction l as [|d l IH]; simpl; intros k H.
  - rewrite Hc in H. bind_inv H. injection H as <-.
    exists [], a. repeat split; [constructor|].
    eapply modify_first_edited; eauto.
  - destruct (P d) eqn:E.
    + bind_inv H. injection H as <-.
      exists (a :: l), r. repeat split; [|apply edited_list_refl].
      constructor; [eauto | apply edited_list_refl].
    + bind_inv H. injection H as <-.
      destruct (IH _ Ha) as (l' & r' & -> & Hl & Hr).
      exists (d :: l'), r'. repeat split; [|easy].
      constructor; [apply edited_refl | easy].
Qed.

Lemma remove_first_split ctx P l c r :
  P c = false ->
  (forall d, P d = true -> may_remove ctx (tag d) = true) ->
  exists l' r', ET.remove_first P (l ++ c :: r) = (l' ++ c :: r')%list /\
                edited_list ctx l l' /\ edited_list ctx r r'.
Proof.
  intros Hc HP. induction l as [|d l IH]; simpl.
  - rewrite Hc. exists [], (ET.remove_first P r).
    repeat split; [constructor | now apply remove_first_edited].
  - destruct (P d) eqn:E.
    + exists l, r. repeat split; [|apply edited_list_refl].
      apply edited_drop; [auto | apply edited_list_refl].
    + destruct IH as (l' & r' & -> & Hl & Hr).
      exists (d :: l'), r'. repeat split; [|easy].
      constructor; [apply edited_refl | easy].
Qed.

Lemma with_child_split ctx t f tg a x l c r tl out :
  ET.with_child t f (Elem tg a x (l ++ c :: r) tl) = Ok out ->
  tag c <> t ->
  (forall d d', tag d = t -> f d = Ok d' -> edited (tg :: ctx) d d') ->
  exists l' r', out = Elem tg a x (l' ++ c :: r') tl /\
                edited_list (tg :: ctx) l l' /\ edited_list (tg :: ctx) r r'.
Proof.
  unfold ET.with_child. simpl. intros H Hc Hf. bind_inv H. injection H as <-.
  destruct (modify_first_split (tg :: ctx) _ _ _ _ _ _ Ha) as (l' & r' & -> & Hl & Hr).
  - now apply has_tag_false.
  - intros d d' Hd. apply Hf. now apply has_tag_true.
  - eauto.
Qed.

Lemma with_grandchild_split ctx t1 t2 f tg a x l c r tl out :
  ET.with_grandchild t1 t2 f (Elem tg a x (l ++ c :: r) tl) = Ok out ->
  tag c <> t1 ->
  (forall d d', tag d = t2 -> f d = Ok d' -> edited (t1 :: tg :: ctx) d d') ->
  exists l' r', out = Elem tg a x (l' ++ c :: r') tl /\
                edited_list (tg :: ctx) l l' /\ edited_list (tg :: ctx) r r'.
Proof.
  unfold ET.with_grandchild. simpl. intros H Hc Hf. bind_inv H. injection H as <-.
  destruct (modify_first_split (tg :: ctx) _ _ _ _ _ _ Ha) as (l' & r' & -> & Hl & Hr).
  - apply andb_false_intro1. now apply has_tag_false.
  - intros d d' Hd Hw. apply andb_prop in Hd as [Hd _]. apply has_tag_true in Hd.
    eapply with_child_edited; [exact Hw|]. rewrite Hd. exact Hf.
  - eauto.
Qed.

Lemma remove_child_split ctx t tg a x l c r tl :
  tag c <> t -> may_remove (tg :: ctx) t = true ->
  exists l' r',
    ET.remove_child t (Elem tg a x (l ++ c :: r) tl)
    = Elem tg a x (l' ++ c :: r') tl /\
    edited_list (tg :: ctx) l l' /\ edited_list (tg :: ctx) r r'.
Proof.
  intros Hc Hm. unfold ET.remove_child. simpl.
  destruct (remove_first_split (tg :: ctx) (has_tag t) l c r) as (l' & r' & -> & Hl & Hr).
  - now apply has_tag_false.
  - intros d Hd. apply has_tag_true in Hd. now rewrite Hd.
  - eauto.
Qed.

(** ** A step keeps the children it does not handle *)

Lemma in_names_cons_false k a l :
  in_names k (a :: l) = false -> k <> a /\ in_names k l = false.
Proof.
  unfold in_names. simpl. intros H. apply orb_false_elim in H as [H1 H2].
  split; [now apply String.eqb_neq | easy].
Qed.

Lemma lap_unhandled t :
  handled_child (tcx "Lap") t = false ->
  t <> tcx "Cadence" /\ t <> tcx "Calories" /\
  t <> tcx "AverageHeartRateBpm" /\ t <> tcx "MaximumHeartRateBpm" /\
  t <> tcx "Extensions".
Proof.
  unfold handled_child. intros H.
  apply orb_false_elim in H as [H _]. apply orb_false_elim in H as [_ H].
  rewrite String.eqb_refl in H. simpl andb in H.
  repeat (let E := fresh "E" in
          apply orb_false_elim in H as [E H]; apply String.eqb_neq in E).
  repeat split; assumption.
Qed.

Lemma trackpoint_unhandled t :
  handled_child (tcx "Trackpoint") t = false ->
  t <> tcx "HeartRateBpm" /\ t <> tcx "Cadence" /\ t <> tcx "Extensions".
Proof.
  unfold handled_child. intros H.
  apply orb_false_elim in H as [_ H].
  rewrite String.eqb_refl in H. simpl andb in H.
  repeat (let E := fresh "E" in
          apply orb_false_elim in H as [E H]; apply String.eqb_neq in E).
  repeat split; assumption.
Qed.

Lemma activity_unhandled t :
  handled_child (tcx "Activity") t = false -> t <> tcx "Creator".
Proof.
  unfold handled_child. intros H.
  apply orb_false_elim in H as [H _]. apply orb_false_elim in H as [H _].
  rewrite String.eqb_refl in H. simpl andb in H. now apply String.eqb_neq.
Qed.

Lemma process_lap_keeps_child ctx a x l c r tl out :
  process_lap (Elem (tcx "Lap") a x (l ++ c :: r) tl) = Ok out ->
  handled_child (tcx "Lap") (tag c) = false ->
  exists l' r', out = Elem (tcx "Lap") a x (l' ++ c :: r') tl /\
                edited_list (tcx "Lap" :: ctx) l l' /\
                edited_list (tcx "Lap" :: ctx) r r'.
Proof.
  intros H Hun. destruct (lap_unhandled _ Hun) as (N1 & N2 & N3 & N4 & N5).
  unfold process_lap in H.
  destruct (remove_child_split ctx (tcx "Cadence") (tcx "Lap") a x l c r tl N1)
    as (l1 & r1 & E1 & Hl1 & Hr1); [vm_compute; reflexivity|].
  rewrite E1 in H. bind_inv H.
  destruct (with_child_split ctx _ _ _ _ _ _ _ _ _ _ Ha N2)
    as (l2 & r2 & -> & Hl2 & Hr2).
  { intros d d' Hd Hr. apply round_field_edited; [easy|].
    rewrite Hd. vm_compute; reflexivity. }
  bind_inv H.
  destruct (with_grandchild_split ctx _ _ _ _ _ _ _ _ _ _ _ Ha0 N3)
    as (l3 & r3 & -> & Hl3 & Hr3).
  { intros d d' Hd Hr. apply round_field_edited; [easy|].
    rewrite Hd. vm_compute; reflexivity. }
  bind_inv H.
  destruct (with_grandchild_split ctx _ _ _ _ _ _ _ _ _ _ _ Ha1 N4)
    as (l4 & r4 & -> & Hl4 & Hr4).
  { intros d d' Hd Hr. apply round_field_edited; [easy|].
    rewrite Hd. vm_compute; reflexivity. }
  destruct (with_child_split ctx _ _ _ _ _ _ _ _ _ _ H N5)
    as (l5 & r5 & -> & Hl5 & Hr5).
  { intros ext ext' Hext Hw.
    eapply with_child_edited; [exact Hw|]. intros tpx lx Htpx Hl. rewrite Hext.
    apply lap_tpx_edited; auto. }
  exists l5, r5. split; [reflexivity|].
  split; repeat (eapply edited_list_trans; [eassumption|]); apply edited_list_refl.
Qed.

Lemma process_trackpoint_keeps_child ctx a x l c r tl out :
  process_trackpoint (Elem (tcx "Trackpoint") a x (l ++ c :: r) tl) = Ok out ->
  handled_child (tcx "Trackpoint") (tag c) = false ->
  exists l' r', out = Elem (tcx "Trackpoint") a x (l' ++ c :: r') tl /\
                edited_list (tcx "Trackpoint" :: ctx) l l' /\
                edited_list (tcx "Trackpoint" :: ctx) r r'.
Proof.
  intros H Hun. destruct (trackpoint_unhandled _ Hun) as (N1 & N2 & N3).
  unfold process_trackpoint in H. bind_inv H.
  destruct (with_grandchild_split ctx _ _ _ _ _ _ _ _ _ _ _ Ha N1)
    as (l2 & r2 & -> & Hl2 & Hr2).
  { intros d d' Hd Hr. apply round_field_edited; [easy|].
    rewrite Hd. vm_compute; reflexivity. }
  bind_inv H.
  destruct (with_child_split ctx _ _ _ _ _ _ _ _ _ _ Ha0 N2)
    as (l3 & r3 & -> & Hl3 & Hr3).
  { intros d d' Hd Hr. apply round_field_edited; [easy|].
    rewrite Hd. vm_compute; reflexivity. }
  destruct (with_child_split ctx _ _ _ _ _ _ _ _ _ _ H N3)
    as (l5 & r5 & -> & Hl5 & Hr5).
  { intros ext ext' Hext Hw.
    eapply with_child_edited; [exact Hw|]. intros tpx tpx' Htpx Hl. rewrite Hext.
    unfold trackpoint_tpx in Hl.
    eapply edited_trans.
    { apply (remove_child_edited _ (ae "Resistance")). rewrite Htpx.
      vm_compute; reflexivity. }
    eapply with_child_edited; [exact Hl|]. intros w w' Hw' Hr.
    unfold ET.remove_child. rewrite tag_set_children, Htpx.
    apply round_field_edited; [easy|]. rewrite Hw'. vm_compute; reflexivity. }
  exists l5, r5. split; [reflexivity|].
  split; repeat (eapply edited_list_trans; [eassumption|]); apply edited_list_refl.
Qed.

(** ** A loop at a place *)

Lemma visit_tag t f :
  (forall e e', f e = Ok e' -> tag e' = tag e) ->
  forall e e', ET.visit t f e = Ok e' -> tag e' = tag e.
Proof.
  intros Hf [tg a x kids tl] e' H. rewrite visit_eq in H. bind_inv H.
  destruct (String.eqb tg t); [now rewrite (Hf _ _ H) | now injection H as <-].
Qed.

Lemma mapM_visit_edited t f ctx l l' :
  (forall ctx e e', tag e = t -> f e = Ok e' -> edited ctx e e') ->
  mapM (ET.visit t f) l = Ok l' -> edited_list ctx l l'.
Proof.
  intros Hf H. eapply mapM_edited; [|exact H].
  apply List.Forall_forall. intros c _ c'. now apply visit_edited.
Qed.

Lemma same_path_clear ctx C C' t :
  same_path ctx C C' -> clear_path C' t = clear_path C t.
Proof.
  induction 1 as [|ctx F F' C C' Ht _ _ _ _ _ Hp IH]; simpl; [easy|].
  now rewrite Ht, IH, (same_path_tag_at _ _ _ t Hp).
Qed.

Section VisitPlace.

Variable t : string.
Variable f : Element -> result Element.
Hypothesis f_sound :
  forall ctx e e', tag e = t -> f e = Ok e' -> edited ctx e e'.
Hypothesis f_tag_kept : forall e e', f e = Ok e' -> tag e' = tag e.
Hypothesis f_keeps :
  forall ctx a x l c r tl out,
    f (Elem t a x (l ++ c :: r) tl) = Ok out ->
    handled_child t (tag c) = false ->
    exists l' r', out = Elem t a x (l' ++ c :: r') tl /\
                  edited_list (t :: ctx) l l' /\ edited_list (t :: ctx) r r'.

(** The loop over a document with [x] at a place that no handled child
    leads to: [x] is visited, and is at the same place afterwards. *)
Lemma visit_plug C :
  forall ctx x out,
    ET.visit t f (plug C x) = Ok out -> clear_path C (tag x) = true ->
    exists C' x', out = plug C' x' /\ ET.visit t f x = Ok x' /\
                  same_path ctx C C'.
Proof.
  induction C as [|F C IH]; intros ctx x out H Hclear.
  - exists [], out. repeat split; [easy | constructor].
  - cbn [plug] in H. cbn [clear_path] in Hclear.
    apply andb_prop in Hclear as [Hun Hclear].
    apply negb_true_iff in Hun.
    rewrite visit_eq in H. bind_inv H. rename a into kids1.
    destruct (mapM_split _ _ _ _ _ Ha) as (l1 & y & r1 & -> & Hl & Hy & Hr).
    destruct (IH (f_tag F :: ctx) _ _ Hy Hclear) as (C1 & x' & -> & Hx & Hp).
    pose proof (mapM_visit_edited t f (f_tag F :: ctx) _ _ f_sound Hl) as El.
    pose proof (mapM_visit_edited t f (f_tag F :: ctx) _ _ f_sound Hr) as Er.
    destruct (String.eqb (f_tag F) t) eqn:E.
    + apply String.eqb_eq in E.
      assert (Hc : handled_child t (tag (plug C1 x')) = false).
      { rewrite tag_plug, (same_path_tag_at _ _ _ _ Hp),
          (visit_tag t f f_tag_kept _ _ Hx), <- E. exact Hun. }
      rewrite E in H.
      destruct (f_keeps ctx _ _ _ _ _ _ _ H Hc) as (l2 & r2 & -> & Hl2 & Hr2).
      exists (mkFrame t (f_attrib F) (f_text F) l2 r2 (f_tail F) :: C1), x'.
      repeat split; [easy|]. constructor; simpl; auto.
      * rewrite E. eapply edited_list_trans; eauto. now rewrite <- E.
      * rewrite E. eapply edited_list_trans; eauto. now rewrite <- E.
    + injection H as <-.
      exists (mkFrame (f_tag F) (f_attrib F) (f_text F) l1 r1 (f_tail F) :: C1), x'.
      repeat split; [easy|]. constructor; simpl; auto.
Qed.

Lemma for_each_desc_plug F C x out :
  ET.for_each_desc t f (plug (F :: C) x) = Ok out ->
  clear_path C (tag x) = true ->
  exists C' x', out = plug C' x' /\ ET.visit t f x = Ok x' /\
                same_path [] (F :: C) C'.
Proof.
  intros H Hclear. apply for_each_desc_ok in H as (kids & Hk & ->).
  cbn [plug children] in Hk.
  destruct (mapM_split _ _ _ _ _ Hk) as (l1 & y & r1 & -> & Hl & Hy & Hr).
  destruct (visit_plug C [f_tag F] _ _ Hy Hclear) as (C1 & x' & -> & Hx & Hp).
  exists (mkFrame (f_tag F) (f_attrib F) (f_text F) l1 r1 (f_tail F) :: C1), x'.
  repeat split; [easy|]. constructor; simpl; auto.
  - eapply mapM_visit_edited; eauto.
  - eapply mapM_visit_edited; eauto.
Qed.

(** What the loop does to an element tagged [t]: its children are visited,
    then [f] is applied. *)
Lemma visit_at_tag x x' :
  ET.visit t f x = Ok x' -> tag x = t ->
  exists kids, mapM (ET.visit t f) (children x) = Ok kids /\
               f (set_children kids x) = Ok x'.
Proof.
  destruct x as [tg a tx kids tl]. cbn [tag children]. intros H ->.
  rewrite visit_eq in H. bind_inv H. rewrite String.eqb_refl in H. eauto.
Qed.

End VisitPlace.

(** ** The creator removal at a place *)

Lemma modify_first_desc_list_app t g l p r k :
  modify_first_desc_list t g (l ++ p :: r) = Some k ->
  (exists l', modify_first_desc_list t g l = Some l' /\ k = (l' ++ p :: r)%list) \/
  (modify_first_desc_list t g l = None /\
   ((has_tag t p = true /\ k = (l ++ g p :: r)%list) \/
    (has_tag t p = false /\
     exists p', ET.modify_first_desc t g p = Some p' /\ k = (l ++ p' :: r)%list) \/
    (has_tag t p = false /\ ET.modify_first_desc t g p = None /\
     exists r', modify_first_desc_list t g r = Some r' /\
                k = (l ++ p :: r')%list))).
Proof.
  revert k. induction l as [|d l IH]; simpl; intros k H.
  - right. split; [reflexivity|].
    destruct (has_tag t p); [injection H as <-; auto|].
    destruct (ET.modify_first_desc t g p) as [p'|];
      [injection H as <-; right; left; split; [easy|]; exists p'; auto|].
    destruct (modify_first_desc_list t g r) as [r'|]; [|discriminate].
    injection H as <-. right. right. split; [easy|]. split; [easy|].
    exists r'. auto.
  - destruct (has_tag t d); [injection H as <-; eauto|].
    destruct (ET.modify_first_desc t g d) as [d'|]; [injection H as <-; eauto|].
    destruct (modify_first_desc_list t g (l ++ p :: r)) as [k'|]; [|discriminate].
    injection H as <-.
    destruct (IH _ eq_refl) as [(l' & -> & ->) | (-> & Hcases)].
    + left. eauto.
    + right. split; [reflexivity|].
      destruct Hcases as [(Hp & ->) | [(Hp & p' & Hp' & ->) | (Hp & Hn & r' & Hr & ->)]].
      * left. auto.
      * right. left. split; [easy|]. exists p'. auto.
      * right. right. split; [easy|]. split; [easy|]. exists r'. auto.
Qed.

Lemma modify_first_desc_list_edited t g tg ctx l l' :
  (forall ctx c, tag c = t -> edited ctx c (g c)) ->
  modify_first_desc_list t g l = Some l' -> edited_list (tg :: ctx) l l'.
Proof.
  intros Hg H.
  assert (E : ET.modify_first_desc t g (Elem tg [] None l None)
              = Some (Elem tg [] None l' None))
    by (rewrite modify_first_desc_eq, H; reflexivity).
  apply (modify_first_desc_edited t g Hg _ ctx) in E.
  now inversion E.
Qed.

Section CreatorPlace.

Variable t : string.
Variable g : Element -> Element.
Hypothesis g_sound : forall ctx c, tag c = t -> edited ctx c (g c).
Hypothesis g_keeps :
  forall ctx a x l c r tl,
    handled_child t (tag c) = false ->
    exists l' r', g (Elem t a x (l ++ c :: r) tl) = Elem t a x (l' ++ c :: r') tl /\
                  edited_list (t :: ctx) l l' /\ edited_list (t :: ctx) r r'.

Lemma modify_first_desc_plug C :
  forall ctx x e',
    ET.modify_first_desc t g (plug C x) = Some e' ->
    tag x <> t -> clear_path C (tag x) = true ->
    exists C' x', e' = plug C' x' /\ same_path ctx C C' /\
                  (x' = x \/ ET.modify_first_desc t g x = Some x').
Proof.
  induction C as [|F C IH]; intros ctx x e' H Hx Hclear.
  - exists [], e'. repeat split; [constructor | now right].
  - cbn [plug] in H. cbn [clear_path] in Hclear.
    apply andb_prop in Hclear as [Hun Hclear]. apply negb_true_iff in Hun.
    rewrite modify_first_desc_eq in H.
    destruct (modify_first_desc_list t g _) as [k|] eqn:E; [|discriminate].
    injection H as <-.
    destruct (modify_first_desc_list_app _ _ _ _ _ _ E)
      as [(l' & Hl & ->) | (Hl & [(Hp & ->) | [(Hp & p' & Hp' & ->) | (Hp & Hn & r' & Hr & ->)]])].
    + exists (mkFrame (f_tag F) (f_attrib F) (f_text F) l' (f_right F) (f_tail F) :: C), x.
      repeat split; [|now left].
      constructor; simpl; auto using edited_list_refl, same_path_refl.
      eapply modify_first_desc_list_edited; eauto.
    + destruct C as [|G C].
      { simpl in Hp. apply has_tag_true in Hp. contradiction. }
      cbn [plug] in Hp |- *. apply has_tag_true in Hp. simpl in Hp.
      cbn [clear_path] in Hclear. apply andb_prop in Hclear as [HunG _].
      apply negb_true_iff in HunG. rewrite Hp in HunG.
      rewrite <- tag_plug in HunG.
      destruct (g_keeps (f_tag F :: ctx) (f_attrib G) (f_text G) (f_left G)
                  (plug C x) (f_right G) (f_tail G) HunG)
        as (l' & r' & Eg & Hl' & Hr').
      rewrite Hp, Eg.
      exists (F :: mkFrame t (f_attrib G) (f_text G) l' r' (f_tail G) :: C), x.
      repeat split; [|now left].
      constructor; simpl; auto using edited_list_refl.
      constructor; simpl; auto using same_path_refl; now rewrite Hp.
    + destruct (IH (f_tag F :: ctx) _ _ Hp' Hx Hclear) as (C' & x' & -> & Hpath & Hcase).
      exists (F :: C'), x'. repeat split; [|easy].
      constructor; simpl; auto using edited_list_refl.
    + exists (mkFrame (f_tag F) (f_attrib F) (f_text F) (f_left F) r' (f_tail F) :: C), x.
      repeat split; [|now left].
      constructor; simpl; auto using edited_list_refl, same_path_refl.
      eapply modify_first_desc_list_edited; eauto.
Qed.

End CreatorPlace.

Lemma remove_creator_plug C x :
  tag x <> tcx "Activity" -> clear_path C (tag x) = true ->
  exists C' x', remove_creator (plug C x) = plug C' x' /\
                same_path [] C C' /\ deep [tcx "Activity"] x x'.
Proof.
  intros Hx Hclear. unfold remove_creator, ET.with_first_desc.
  destruct (ET.modify_first_desc _ _ (plug C x)) as [e'|] eqn:E.
  - assert (Hs : forall ctx c, tag c = tcx "Activity" ->
                   edited ctx c (ET.remove_child (tcx "Creator") c)).
    { intros ctx c Hc. apply remove_child_edited. rewrite Hc.
      vm_compute; reflexivity. }
    assert (Hk : forall ctx a tx l c r tl,
               handled_child (tcx "Activity") (tag c) = false ->
               exists l' r',
                 ET.remove_child (tcx "Creator")
                   (Elem (tcx "Activity") a tx (l ++ c :: r) tl)
                 = Elem (tcx "Activity") a tx (l' ++ c :: r') tl /\
                 edited_list (tcx "Activity" :: ctx) l l' /\
                 edited_list (tcx "Activity" :: ctx) r r').
    { intros ctx a tx l c r tl Hun. apply remove_child_split.
      - now apply activity_unhandled.
      - vm_compute; reflexivity. }
    destruct (modify_first_desc_plug _ _ Hs Hk C [] x e' E Hx Hclear)
      as (C' & x' & -> & Hp & Hcase).
    exists C', x'. repeat split; [easy|].
    destruct Hcase as [->|Hm]; [apply deep_refl|].
    apply (modify_first_desc_deep [tcx "Activity"] (tcx "Activity")
             (ET.remove_child (tcx "Creator"))) in Hm; [easy | |].
    + vm_compute; reflexivity.
    + intros c. unfold ET.remove_child. eauto.
  - exists C, x. auto using same_path_refl, deep_refl.
Qed.

(** ** The whole pass at a lap, at a trackpoint *)

Lemma process_lap_tag lap lap' : process_lap lap = Ok lap' -> tag lap' = tag lap.
Proof. intros H. apply process_lap_shape in H as (k & ->). apply tag_set_children. Qed.

Lemma process_trackpoint_tag tp tp' :
  process_trackpoint tp = Ok tp' -> tag tp' = tag tp.
Proof.
  intros H. apply process_trackpoint_shape in H as (k & ->). apply tag_set_children.
Qed.

Lemma in_names_weaken t (l l' : list string) :
  (forall a, In a l -> In a l') -> in_names t l' = false -> in_names t l = false.
Proof.
  unfold in_names. intros Hsub H.
  destruct (existsb (String.eqb t) l) eqn:E; [|reflexivity].
  apply List.existsb_exists in E as (a & Ha & Ea).
  assert (existsb (String.eqb t) l' = true)
    by (apply List.existsb_exists; eauto).
  congruence.
Qed.

Lemma same_path_cons_inv ctx F C C0 :
  same_path ctx (F :: C) C0 -> exists F0 C0', C0 = F0 :: C0'.
Proof. intros H. inversion H; subst. eauto. Qed.

Lemma clear_path_tail F C t : clear_path (F :: C) t = true -> clear_path C t = true.
Proof. simpl. intros H. now apply andb_prop in H as [_ H]. Qed.


(** A trackpoint below the root, at a place that no handled child leads to,
    is at the same place in the cleaned document, and is there what
    [process_trackpoint] makes of it, but for changes in and below the
    activities, laps and trackpoints inside it before. *)
Lemma clean_tree_at_trackpoint F C tp out :
  clean_tree (plug (F :: C) tp) = Ok out ->
  tag tp = tcx "Trackpoint" -> clear_path (F :: C) (tcx "Trackpoint") = true ->
  exists C' tp_in tp',
    out = plug C' tp' /\ same_path [] (F :: C) C' /\
    tag tp_in = tcx "Trackpoint" /\
    Forall2 (deep [tcx "Activity"; tcx "Lap"; tcx "Trackpoint"])
            (children tp) (children tp_in) /\
    process_trackpoint tp_in = Ok tp'.
Proof.
  intros H Ht Hclear. unfold clean_tree in H.
  destruct (remove_creator_plug (F :: C) tp) as (C0 & x0 & E0 & P0 & D0).
  { rewrite Ht. apply tcx_neq. discriminate. }
  { now rewrite Ht. }
  rewrite E0 in H. clear E0.
  destruct (deep_own _ _ _ D0) as (T0 & _).
  destruct (same_path_cons_inv _ _ _ _ P0) as (F0 & C0' & ->).
  assert (Hc0 : clear_path (F0 :: C0') (tcx "Trackpoint") = true)
    by (now rewrite (same_path_clear _ _ _ _ P0)).
  bind_inv H. rename a into r1.
  destruct (for_each_desc_plug (tcx "Lap") process_lap
              (fun ctx e e' Hte He => process_lap_edited ctx e e' He Hte)
              process_lap_tag process_lap_keeps_child F0 C0' x0 r1 Ha)
    as (C1 & x1 & -> & V1 & P1).
  { rewrite T0, Ht. now apply clear_path_tail in Hc0. }
  pose proof (visit_tag _ _ process_lap_tag _ _ V1) as T1.
  destruct (same_path_cons_inv _ _ _ _ P1) as (F1 & C1' & ->).
  assert (Hc1 : clear_path (F1 :: C1') (tcx "Trackpoint") = true)
    by (now rewrite (same_path_clear _ _ _ _ P1)).
  destruct (for_each_desc_plug (tcx "Trackpoint") process_trackpoint
              (fun ctx e e' Hte He => process_trackpoint_edited ctx e e' He Hte)
              process_trackpoint_tag process_trackpoint_keeps_child
              F1 C1' x1 out H)
    as (C2 & x2 & -> & V2 & P2).
  { rewrite T1, T0, Ht. now apply clear_path_tail in Hc1. }
  destruct (visit_at_tag _ _ _ _ V2) as (kids2 & Hk2 & Hp2);
    [now rewrite T1, T0|].
  pose proof (visit_deep [tcx "Lap"] (tcx "Lap") _ eq_refl
                process_lap_shape _ _ V1) as D1.
  exists C2, (set_children kids2 x1), x2.
  split; [reflexivity|]. split.
  { eapply same_path_trans; [exact P0|]. eapply same_path_trans; eauto. }
  split; [now rewrite tag_set_children, T1, T0|].
  split; [|exact Hp2].
  rewrite children_set_children.
  eapply Forall2_deep_trans.
  { eapply Forall2_deep_mono; [|apply (deep_children _ _ _ D0)].
    - intros t. apply in_names_weaken. simpl. tauto.
    - rewrite Ht. vm_compute; reflexivity. }
  eapply Forall2_deep_trans.
  { eapply Forall2_deep_mono; [|apply (deep_children _ _ _ D1)].
    - intros t. apply in_names_weaken. simpl. tauto.
    - rewrite T0, Ht. vm_compute; reflexivity. }
  eapply Forall2_deep_mono;
    [|apply (mapM_visit_deep [tcx "Trackpoint"] (tcx "Trackpoint") _ _ _ eq_refl
               process_trackpoint_shape Hk2)].
  intros t. apply in_names_weaken. simpl. tauto.
Qed.

(* ===================================================================== *)
(** * The fields of the rounding set in the cleaned document *)

(** ** The rounding step *)

Lemma round_field_same x x' :
  round_field x = Ok x' -> same_field rounded x x' /\ children x' = children x.
Proof.
  unfold round_field, same_field, rounded, rounded_text.
  destruct (PyNum.round_text (text x)) as [s|e]; [|destruct e];
    intros H; inversion H; subst x'; destruct x; cbn; auto.
Qed.

Lemma same_field_deep ts ts' R c1 c2 c3 c4 :
  deep ts c1 c2 -> same_field R c2 c3 -> deep ts' c3 c4 -> same_field R c1 c4.
Proof.
  intros H1 (Ht & Ha & Hl & Hx) H3.
  destruct (deep_own _ _ _ H1) as (T1 & A1 & X1 & L1).
  destruct (deep_own _ _ _ H3) as (T3 & A3 & X3 & L3).
  unfold same_field. rewrite T3, A3, X3, L3, Ht, Ha, Hl, T1, A1, L1.
  rewrite X1 in Hx. auto.
Qed.







(** ** The fields of a lap *)








(** ** The fields of a trackpoint *)

Lemma deep_block_of ts e e' tpx :
  Forall2 (deep ts) (children e) (children e') ->
  in_names (tcx "Extensions") ts = false ->
  block_of e = Some tpx ->
  exists tpx', block_of e' = Some tpx' /\ deep ts tpx tpx'.
Proof.
  intros H Hn. unfold block_of.
  destruct (ET.find (tcx "Extensions") e) as [ext|] eqn:He; [|discriminate].
  destruct (deep_find _ _ _ _ _ H He) as (ext' & -> & De). intros Hx.
  apply (deep_find ts _ ext ext' tpx); [|exact Hx].
  apply deep_children; [exact De|]. now rewrite (find_tag _ _ _ He).
Qed.

Lemma block_of_tag e tpx : block_of e = Some tpx -> tag tpx = ae "TPX".
Proof.
  unfold block_of. destruct (ET.find (tcx "Extensions") e); [|discriminate].
  apply find_tag.
Qed.

Lemma deep_trackpoint_field ts p e e' c :
  Forall2 (deep ts) (children e) (children e') ->
  in_names (tcx "HeartRateBpm") ts = false ->
  in_names (tcx "Extensions") ts = false ->
  in_names (ae "TPX") ts = false ->
  trackpoint_field p e = Some c ->
  exists c', trackpoint_field p e' = Some c' /\ deep ts c c'.
Proof.
  intros H H1 H2 H3. destruct p; cbn [trackpoint_field].
  - now apply deep_find_path.
  - now apply deep_find.
  - destruct (block_of e) as [tpx|] eqn:Hb; [|discriminate].
    destruct (deep_block_of _ _ _ _ H H2 Hb) as (tpx' & -> & Dx).
    apply deep_find. apply deep_children; [exact Dx|].
    now rewrite (block_of_tag _ _ Hb).
Qed.

Lemma process_trackpoint_block tp tp' tpx :
  process_trackpoint tp = Ok tp' -> block_of tp = Some tpx ->
  exists tpx', block_of tp' = Some tpx' /\ trackpoint_tpx tpx = Ok tpx'.
Proof.
  intros H. unfold block_of.
  destruct (ET.find (tcx "Extensions") tp) as [ext|] eqn:He; [|discriminate].
  intros Hx.
  destruct (process_trackpoint_extensions _ _ _ _ He Hx H)
    as (ext' & tpx' & -> & Hx' & Htpx).
  eauto.
Qed.

Lemma process_trackpoint_field p tp tp' c :
  process_trackpoint tp = Ok tp' -> trackpoint_field p tp = Some c ->
  exists c', trackpoint_field p tp' = Some c' /\ round_field c = Ok c'.
Proof.
  intros H. destruct (process_trackpoint_fields _ _ H) as (Hv & Hc & Hw).
  destruct p; cbn [trackpoint_field]; intros Hf.
  - destruct (Hv _ Hf) as (c' & ? & ?). eauto.
  - destruct (Hc _ Hf) as (c' & ? & ?). eauto.
  - destruct (block_of tp) as [tpx|] eqn:Hb; [|discriminate].
    destruct (process_trackpoint_block _ _ _ H Hb) as (tpx' & -> & Htpx).
    destruct (trackpoint_tpx_ok _ _ Htpx) as [_ Hwatts].
    destruct (Hwatts _ Hf) as (w' & ? & ?). eauto.
Qed.

(** The block of a trackpoint loses its first Resistance child and no
    other. *)
Lemma trackpoint_tpx_resistance tpx tpx' :
  trackpoint_tpx tpx = Ok tpx' ->
  List.filter (has_tag (ae "Resistance")) (children tpx')
  = List.tl (List.filter (has_tag (ae "Resistance")) (children tpx)).
Proof.
  unfold trackpoint_tpx. intros H.
  rewrite (filter_with_child_other _ _ _ _ _ H);
    [|apply ae_neq; discriminate | intros c c'; apply round_field_tag].
  unfold ET.remove_child. rewrite children_set_children.
  apply filter_remove_first.
Qed.

Lemma map_tail {A B : Type} (f : A -> B) l :
  List.map f (List.tl l) = List.tl (List.map f l).
Proof. now destruct l. Qed.

Lemma Forall2_deep_own ts l l' :
  Forall2 (deep ts) l l' -> List.map own l' = List.map own l.
Proof.
  induction 1 as [|c c' l l' Hc _ IH]; cbn [List.map]; [reflexivity|].
  destruct (deep_own _ _ _ Hc) as (T & A & X & L).
  unfold own at 1 3. now rewrite T, A, X, L, IH.
Qed.

(** What the cleaner makes of a trackpoint at a place of the document. *)
Lemma clean_tree_trackpoint_fields F C tp out :
  clean_tree (plug (F :: C) tp) = Ok out ->
  tag tp = tcx "Trackpoint" ->
  clear_path (F :: C) (tcx "Trackpoint") = true ->
  exists C' tp',
    out = plug C' tp' /\ same_path [] (F :: C) C' /\
    tag tp' = tcx "Trackpoint" /\ trackpoint_fields rounded tp tp'.
Proof.
  intros H Ht Hclear.
  destruct (clean_tree_at_trackpoint _ _ _ _ H Ht Hclear)
    as (C' & tp_in & tp' & -> & HP & Tin & Hin & Hp).
  exists C', tp'. split; [reflexivity|]. split; [exact HP|]. split.
  { rewrite (process_trackpoint_tag _ _ Hp). exact Tin. }
  split.
  - intros p c Hc.
    destruct (deep_trackpoint_field _ p _ _ _ Hin eq_refl eq_refl eq_refl Hc)
      as (c1 & Hc1 & D1).
    destruct (process_trackpoint_field _ _ _ _ Hp Hc1) as (c2 & Hc2 & Hr).
    exists c2. split; [exact Hc2|].
    apply round_field_same in Hr as [Hr _].
    exact (same_field_deep _ [] _ _ _ _ _ D1 Hr (deep_refl _ _)).
  - intros tpx Hb.
    destruct (deep_block_of _ _ _ _ Hin eq_refl Hb) as (tpx1 & Hb1 & Dx).
    destruct (process_trackpoint_block _ _ _ Hp Hb1) as (tpx2 & Hb2 & Htpx).
    exists tpx2. split; [exact Hb2|].
    rewrite (trackpoint_tpx_resistance _ _ Htpx), map_tail. f_equal.
    apply Forall2_deep_own with (ts := [tcx "Activity"; tcx "Lap"; tcx "Trackpoint"]).
    apply Forall2_filter; [|apply deep_has_tag].
    apply deep_children; [exact Dx|].
    rewrite (block_of_tag _ _ Hb). vm_compute; reflexivity.
Qed.

(** ** The number that the rounding step writes *)






(** ** The children of a lap's block *)






(* ===================================================================== *)
(** * The fields in the cleaned document: the statements *)










(** C8 (the code departs from it): the trackpoint loop removes what
    [tpx.find] returns, one Resistance child.  In a trackpoint below the
    root, to which no child leads that the cleaner handles in its parent,
    the Resistance children of the block in the cleaned document are those
    of the block but the first, as they were and in their order; the first
    Watts child is there with its text rounded, so that "145.3" reads "145".
    A block with two Resistance children goes to the serializer with the
    second one in it. *)
Theorem block_keeps_every_resistance_child_but_the_first :
  (forall F C tp out,
     clean_tree (plug (F :: C) tp) = Ok out ->
     tag tp = tcx "Trackpoint" ->
     clear_path (F :: C) (tcx "Trackpoint") = true ->
     exists C' tp',
       out = plug C' tp' /\ same_path [] (F :: C) C' /\
       tag tp' = tcx "Trackpoint" /\
       (forall tpx, block_of tp = Some tpx ->
          exists tpx', block_of tp' = Some tpx' /\
            List.map own
              (List.filter (has_tag (ae "Resistance")) (children tpx'))
            = List.tl (List.map own
                (List.filter (has_tag (ae "Resistance")) (children tpx))) /\
            (forall w, ET.find (ae "Watts") tpx = Some w ->
               text w = Some "145.3" ->
               exists w', ET.find (ae "Watts") tpx' = Some w' /\
                          text w' = Some "145"))) /\
  plug [ride_root] trackpoint_two_resistance = doc_two_resistance /\
  clean_tree doc_two_resistance
  = Ok (plug [ride_root] trackpoint_two_resistance_cleaned) /\
  (exists tpx', block_of trackpoint_two_resistance_cleaned = Some tpx' /\
     ET.find (ae "Resistance") tpx' = Some (el (ae "Resistance") (Some "31") [])).
Proof.
  split; [|repeat split; try (vm_compute; reflexivity)].
  - intros F C tp out H Ht Hclear.
    destruct (clean_tree_trackpoint_fields _ _ _ _ H Ht Hclear)
      as (C' & tp' & -> & HP & Ht' & Hf & Hb).
    exists C', tp'. repeat (split; [easy|]).
    intros tpx Hx. destruct (Hb tpx Hx) as (tpx' & Hx' & Hres).
    exists tpx'. split; [exact Hx'|]. split; [exact Hres|].
    intros w Hw Hwx.
    destruct (Hf TrackpointWatts w) as (w' & Hw' & _ & _ & _ & Hr).
    { cbn [trackpoint_field]. now rewrite Hx. }
    cbn [trackpoint_field] in Hw'. rewrite Hx' in Hw'.
    exists w'. split; [exact Hw'|].
    unfold rounded in Hr. rewrite Hr, Hwx. vm_compute. reflexivity.
  - eexists. split; vm_compute; reflexivity.
Qed.

Lemma block_keeps_every_resistance_child_but_the_first_witness :
  exists C' tp',
    plug [ride_root] trackpoint_two_resistance_cleaned = plug C' tp' /\
    same_path [] [ride_root] C' /\
    tag tp' = tcx "Trackpoint" /\
    (forall tpx, block_of trackpoint_two_resistance = Some tpx ->
       exists tpx', block_of tp' = Some tpx' /\
         List.map own
           (List.filter (has_tag (ae "Resistance")) (children tpx'))
         = List.tl (List.map own
             (List.filter (has_tag (ae "Resistance")) (children tpx))) /\
         (forall w, ET.find (ae "Watts") tpx = Some w ->
            text w = Some "145.3" ->
            exists w', ET.find (ae "Watts") tpx' = Some w' /\
                       text w' = Some "145")).
Proof.
  apply (proj1 block_keeps_every_resistance_child_but_the_first
           ride_root [] trackpoint_two_resistance).
  - vm_compute. reflexivity.
  - reflexivity.
  - vm_compute. reflexivity.
Defined.

(* ===================================================================== *)
(** * The creator, a second run, the frame *)

(** ** The creator of the activities *)

(** An update that leaves the element found as it is leaves the tree as it
    is. *)
Lemma modify_first_desc_noop t f :
  (forall c, tag (f c) = tag c) ->
  forall e, (forall d, ET.find_desc t e = Some d -> f d = d) ->
            forall e', ET.modify_first_desc t f e = Some e' -> e' = e.
Proof.
  intros Hf e. induction e as [tg a x kids tl IH] using Element_rect'.
  rewrite find_desc_eq. intros H e'. rewrite modify_first_desc_eq.
  assert (Hl : forall k, modify_first_desc_list t f kids = Some k -> k = kids).
  { clear e'. induction IH as [|c l Hc _ IHl]; simpl in *; [discriminate|].
    destruct (has_tag t c) eqn:Et.
    - intros k [= <-]. now rewrite (H c eq_refl).
    - pose proof (find_desc_modify_first_desc t f Hf c) as Hm.
      destruct (ET.find_desc t c) as [d|] eqn:Ed.
      + destruct Hm as (c' & Hc' & _). rewrite Hc'. intros k [= <-].
        f_equal. apply Hc; [|exact Hc']. intros d' [= <-]. now apply H.
      + rewrite Hm. intros k Hk.
        destruct (modify_first_desc_list t f l) as [k'|] eqn:El; [|discriminate].
        injection Hk as <-. f_equal. now apply IHl. }
  destruct (modify_first_desc_list t f kids) as [k|]; [|discriminate].
  intros [= <-]. now rewrite (Hl k eq_refl).
Qed.

Lemma with_first_desc_noop t f e :
  (forall c, tag (f c) = tag c) ->
  (forall d, ET.find_desc t e = Some d -> f d = d) ->
  ET.with_first_desc t f e = e.
Proof.
  intros Hf H. unfold ET.with_first_desc.
  destruct (ET.modify_first_desc t f e) as [e'|] eqn:E; [|reflexivity].
  exact (modify_first_desc_noop t f Hf e H e' E).
Qed.

Lemma find_none_count t e :
  ET.find t e = None -> count_tag t (children e) = 0%nat.
Proof.
  unfold ET.find, count_tag. intros H.
  induction (children e) as [|c l IH]; simpl in *; [reflexivity|].
  destruct (has_tag t c); [discriminate | auto].
Qed.

(** C2 (the code departs from it): the creator is looked for in the first
    Activity element below the root, and the first Creator child found there
    is removed.  Without an Activity below the root, and with a first
    Activity that has no Creator child, the step returns the tree as it is.
    The Creator of a second Activity, a second Creator child, and the Creator
    of an Activity that is the root of the document are in the cleaned
    document. *)
Theorem creator_is_removed_from_the_first_activity_only :
  (forall root, ET.find_desc (tcx "Activity") root = None ->
     remove_creator root = root) /\
  (forall root act,
     ET.find_desc (tcx "Activity") root = Some act ->
     ET.find (tcx "Creator") act = None ->
     remove_creator root = root) /\
  clean_tree doc_two_activities = Ok doc_two_activities /\
  clean_tree doc_two_creators
  = Ok (el (tcx "TrainingCenterDatabase") None
          [el (tcx "Activity") None [el (tcx "Creator") (Some "b") []]]) /\
  clean_tree doc_activity_at_root = Ok doc_activity_at_root.
Proof.
  split; [|split; [|repeat split; vm_compute; reflexivity]].
  - intros root H. apply with_first_desc_noop.
    + intros c. apply tag_set_children.
    + intros d Hd. rewrite H in Hd. discriminate.
  - intros root act H Hc. apply with_first_desc_noop.
    + intros c. apply tag_set_children.
    + intros d Hd. rewrite H in Hd. injection Hd as <-.
      apply remove_child_noop. now apply find_none_count.
Qed.

Lemma creator_is_removed_from_the_first_activity_only_witness :
  remove_creator doc_no_activity = doc_no_activity /\
  remove_creator doc_no_creator = doc_no_creator.
Proof.
  split.
  - apply (proj1 creator_is_removed_from_the_first_activity_only).
    vm_compute. reflexivity.
  - apply (proj1 (proj2 creator_is_removed_from_the_first_activity_only)
             doc_no_creator (el (tcx "Activity") None [el (tcx "Id") (Some "ride") []])).
    + vm_compute. reflexivity.
    + vm_compute. reflexivity.
Defined.

(** ** A second run *)

(** C3 (the code departs from it): a second pass takes away what the first
    one left.  Of two Resistance children of a trackpoint's block the first
    pass removes the first and the second pass the second, so the two cleaned
    trees differ; and so do the files of two runs in a row, whatever the
    parser and the serializer are, when the parser reads each written file
    back as the tree that was written. *)
Theorem second_run_removes_what_the_first_left :
  clean_tree doc_two_resistance = Ok doc_one_resistance /\
  clean_tree doc_one_resistance = Ok doc_no_resistance /\
  doc_one_resistance <> doc_no_resistance /\
  (forall (fromstring : string -> parsed) (tostring : Element -> written)
          (input_file : string) (w : World) (raw s1 s2 : string),
     files w !! input_file = Some raw ->
     fromstring (PyStr.strip raw) = Parsed doc_two_resistance ->
     tostring doc_one_resistance = Written s1 ->
     fromstring (PyStr.strip s1) = Parsed doc_one_resistance ->
     tostring doc_no_resistance = Written s2 ->
     fromstring (PyStr.strip s2) = Parsed doc_no_resistance ->
     exists w1 w2,
       clean_strava_peloton_tcx fromstring tostring input_file None w
       = (Ok input_file, w1) /\
       files w1 !! input_file = Some s1 /\
       clean_strava_peloton_tcx fromstring tostring input_file None w1
       = (Ok input_file, w2) /\
       files w2 !! input_file = Some s2 /\
       s1 <> s2).
Proof.
  assert (H1 : clean_tree doc_two_resistance = Ok doc_one_resistance)
    by (vm_compute; reflexivity).
  assert (H2 : clean_tree doc_one_resistance = Ok doc_no_resistance)
    by (vm_compute; reflexivity).
  assert (Hne : doc_one_resistance <> doc_no_resistance) by discriminate.
  repeat split; try assumption.
  intros fromstring tostring input_file w raw s1 s2 Hf Hp0 Hw1 Hp1 Hw2 Hp2.
  eexists. eexists. split; [|split; [|split; [|split]]].
  - unfold clean_strava_peloton_tcx, parse. rewrite Hf, Hp0.
    cbn [bind]. rewrite H1, Hw1. reflexivity.
  - cbn [files default]. apply lookup_insert_eq.
  - unfold clean_strava_peloton_tcx, parse. cbn [files default].
    rewrite lookup_insert_eq, Hp1. cbn [bind]. rewrite H2, Hw2. reflexivity.
  - cbn [files default]. apply lookup_insert_eq.
  - intros ->. rewrite Hp1 in Hp2. apply Hne. congruence.
Qed.

Lemma second_run_removes_what_the_first_left_witness :
  exists w1 w2,
    clean_strava_peloton_tcx resistance_fromstring resistance_tostring
      "ride.tcx" None (world_of "ride.tcx" " two ")
    = (Ok "ride.tcx", w1) /\
    files w1 !! "ride.tcx" = Some "one" /\
    clean_strava_peloton_tcx resistance_fromstring resistance_tostring
      "ride.tcx" None w1
    = (Ok "ride.tcx", w2) /\
    files w2 !! "ride.tcx" = Some "none" /\
    "one" <> "none".
Proof.
  apply (proj2 (proj2 (proj2 second_run_removes_what_the_first_left))
           resistance_fromstring resistance_tostring "ride.tcx"
           (world_of "ride.tcx" " two ") " two " "one" "none").
  - unfold world_of. simpl. apply lookup_singleton_eq.
  - vm_compute. reflexivity.
  - vm_compute. reflexivity.
  - vm_compute. reflexivity.
  - vm_compute. reflexivity.
  - vm_compute. reflexivity.
Defined.

(** ** The frame, and the namespaces that are declared *)








